(** * A replicated-text engine with per-participant undo, and its relay server

    Shallow embedding of the [SimpleYDoc] class of the collaborative editor
    (the client-side replica engine: [getText], [insert], [delete], [undo],
    [redo], [applyRemoteOps], [getState], [setState]), of the
    [SimulatedConnection] and the editor's handlers that drive both, and of
    the session handling of [server.js] ([handleJoin], [handleUpdate],
    [handleSyncRequest], the ['close'] and ['pong'] listeners, the heartbeat
    and the [DocumentManager] they drive).

    Modelling conventions.
    - JavaScript strings are [string]; a unit of text ([text[i]]) is an
      [ascii].  JavaScript numbers that hold positions, lengths and clocks
      are integers [Z] (fractions and NaN are outside the model).  The
      source's numbers are doubles: the model's sums are the source's as
      long as they stay within [2^53] in absolute value, which a clock
      that starts at 0 and grows by one per character does in any run.
    - Arrays are lists in array order: [push] appends at the end, [pop]
      takes the last element.
    - The [vectorClock] object is a finite map from client id to clock.
    - Character objects are shared by reference: [insert] puts the object
      it creates into [content] and into the operation it returns,
      [applyRemoteOps] pushes [op.char] itself into [content], [delete]
      returns the objects of [content], and an undo entry keeps them.  The
      only field ever written after creation is [deleted].  A [Char] is
      therefore a reference: the address [char_ref] of the object together
      with its immutable fields; the [deleted] flags live in a [Store]
      shared by every replica of the process.  Two replicas that received
      the same operation object hold the same [char_ref]; replicas that
      each deserialised a message hold copies, equal records under
      different addresses.
    - Listeners only observe ([notifyListeners] calls them with the emitted
      operations); they are not part of the state. *)

From Stdlib Require Import ZArith Ascii String.
From stdpp Require Import base decidable option list sorting strings pretty gmap.

Local Open Scope Z_scope.

(** ** Data model *)

(** A reference to a character object
    [{ id, value, clientId, clock, deleted, position }]: its address and
    its immutable fields. *)
Record Char := mkChar {
  char_ref : nat;
  char_id : string;
  char_value : ascii;
  char_clientId : string;
  char_clock : Z;
  char_position : Z
}.

Global Instance Char_eq_dec : EqDecision Char.
Proof. solve_decision. Defined.

(** The character objects of the process: the next free address and the
    addresses of the objects whose [deleted] flag is [true]. *)
Record Store := mkStore {
  next_ref : nat;
  tombstoned : gset nat
}.

Global Instance Store_eq_dec : EqDecision Store.
Proof. solve_decision. Defined.

(** [char.deleted] *)
Definition char_deleted (s : Store) (c : Char) : bool :=
  bool_decide (char_ref c ∈ tombstoned s).

(** [char.deleted = b] *)
Definition set_deleted (b : bool) (c : Char) (s : Store) : Store :=
  mkStore (next_ref s)
          (if b then {[char_ref c]} ∪ tombstoned s
           else tombstoned s ∖ {[char_ref c]}).

(** A new object [{ ..., deleted: false, ... }]: its address, and the store
    that holds it. *)
Definition new_object (s : Store) : nat * Store :=
  (next_ref s, mkStore (S (next_ref s)) (tombstoned s ∖ {[next_ref s]})).

(** An operation object: [{ type, char, origin }]. *)
Record Op := mkOp {
  op_type : string;
  op_char : Char;
  op_origin : string
}.

Global Instance Op_eq_dec : EqDecision Op.
Proof. solve_decision. Defined.

(** An entry of the undo or redo stack:
    [{ type: 'insert', text, position, count }] or
    [{ type: 'delete', position, chars }], with [isRedo: true] once the
    entry went through [undo]. *)
Inductive Entry :=
| EInsert (text : string) (position : Z) (count : Z) (isRedo : bool)
| EDelete (position : Z) (chars : list Char) (isRedo : bool).

Global Instance Entry_eq_dec : EqDecision Entry.
Proof. solve_decision. Defined.

(** The fields of a [SimpleYDoc]. *)
Record SimpleYDoc := mkDoc {
  clientId : string;
  content : list Char;
  vectorClock : gmap string Z;
  undoStack : list Entry;
  redoStack : list Entry
}.

(** [constructor(clientId)] *)
Definition new_SimpleYDoc (cid : string) : SimpleYDoc :=
  mkDoc cid [] ∅ [] [].

Definition set_content (l : list Char) (d : SimpleYDoc) : SimpleYDoc :=
  mkDoc (clientId d) l (vectorClock d) (undoStack d) (redoStack d).

Definition set_undoStack (u : list Entry) (d : SimpleYDoc) : SimpleYDoc :=
  mkDoc (clientId d) (content d) (vectorClock d) u (redoStack d).

Definition set_redoStack (r : list Entry) (d : SimpleYDoc) : SimpleYDoc :=
  mkDoc (clientId d) (content d) (vectorClock d) (undoStack d) r.

(** [!char.deleted] *)
Definition visible (s : Store) (c : Char) : Prop := char_deleted s c = false.

Global Instance visible_dec s c : Decision (visible s c).
Proof. unfold visible. apply _. Defined.

(** ** [getText]

    [content.filter(char => !char.deleted).map(char => char.value).join('')] *)
Definition visibleValues (s : Store) (l : list Char) : list ascii :=
  char_value <$> filter (visible s) l.

Definition getText (s : Store) (d : SimpleYDoc) : string :=
  string_of_list_ascii (visibleValues s (content d)).

(** ** [insert] *)

(** The inner loop of [insert]: [insertIndex] counts the visible characters
    met before the one at visible position [target]. *)
Fixpoint insertIndex_loop (s : Store) (l : list Char) (target : Z)
    (insertIndex : nat) : nat :=
  match l with
  | [] => insertIndex
  | c :: rest =>
      if char_deleted s c then insertIndex_loop s rest target insertIndex
      else if Z.of_nat insertIndex =? target then insertIndex
      else insertIndex_loop s rest target (S insertIndex)
  end.

(** [array.splice(start, 0, x)] for [0 <= start]. *)
Definition splice {A} (start : nat) (x : A) (l : list A) : list A :=
  take start l ++ x :: drop start l.

(** [`${clientId}-${clock}`] *)
Definition make_id (cid : string) (clock : Z) : string :=
  cid +:+ "-" +:+ pretty clock.

(** The body of the outer loop of [insert], for [i] and the rest of [text]
    from index [i] on; [ops] is returned in emission order. *)
Fixpoint insert_loop (s : Store) (d : SimpleYDoc) (position : Z)
    (origin : string) (text : string) (i : Z)
  : Store * SimpleYDoc * list Op :=
  match text with
  | EmptyString => (s, d, [])
  | String u rest =>
      let clock := default 0 (vectorClock d !! clientId d) + 1 in
      let vc := <[clientId d := clock]> (vectorClock d) in
      let '(ref, s1) := new_object s in
      let char :=
        mkChar ref (make_id (clientId d) clock) u (clientId d) clock
               (position + i) in
      let insertIndex := insertIndex_loop s1 (content d) (position + i) 0 in
      let d1 :=
        mkDoc (clientId d) (splice insertIndex char (content d)) vc
              (undoStack d) (redoStack d) in
      let '(s2, d2, ops) := insert_loop s1 d1 position origin rest (i + 1) in
      (s2, d2, mkOp "insert" char origin :: ops)
  end.

Definition insert (s : Store) (d : SimpleYDoc) (position : Z) (text : string)
    (origin : string) : Store * SimpleYDoc * list Op :=
  let '(s1, d1, ops) := insert_loop s d position origin text 0 in
  let d2 :=
    if decide (origin = "local") then
      set_redoStack []
        (set_undoStack
           (undoStack d1 ++
            [EInsert text position (Z.of_nat (String.length text)) false]) d1)
    else d1 in
  (s1, d2, ops).

(** ** [delete] *)

(** The loop of [delete] over [content] from index [i] on; [deleted] and
    [currentPos] are the loop's counters.  The emitted operation holds the
    character object of [content] itself. *)
Fixpoint delete_loop (s : Store) (l : list Char) (position length : Z)
    (origin : string) (deleted currentPos : Z) : Store * list Op :=
  match l with
  | [] => (s, [])
  | c :: rest =>
      if deleted <? length then
        if char_deleted s c then
          delete_loop s rest position length origin deleted currentPos
        else if position <=? currentPos then
          let '(s', ops) :=
            delete_loop (set_deleted true c s) rest position length origin
                        (deleted + 1) (currentPos + 1) in
          (s', mkOp "delete" c origin :: ops)
        else
          delete_loop s rest position length origin deleted (currentPos + 1)
      else (s, [])
  end.

Definition delete (s : Store) (d : SimpleYDoc) (position length : Z)
    (origin : string) : Store * SimpleYDoc * list Op :=
  let '(s1, ops) := delete_loop s (content d) position length origin 0 0 in
  let d1 :=
    if decide (origin = "local") then
      set_redoStack []
        (set_undoStack
           (undoStack d ++ [EDelete position (op_char <$> ops) false]) d)
    else d in
  (s1, d1, ops).

(** ** [undo] and [redo] *)

(** [array.pop()]: the array without its last element, and that element. *)
Fixpoint pop {A} (l : list A) : option (list A * A) :=
  match l with
  | [] => None
  | x :: rest =>
      match pop rest with
      | None => Some ([], x)
      | Some (rest', y) => Some (x :: rest', y)
      end
  end.

(** [chars.forEach(char => { char.deleted = b })] *)
Definition mark_chars (b : bool) (chars : list Char) (s : Store) : Store :=
  foldl (λ s c, set_deleted b c s) s chars.

Definition undo (s : Store) (d : SimpleYDoc) : Store * SimpleYDoc :=
  match pop (undoStack d) with
  | None => (s, d)
  | Some (rest, operation) =>
      let d1 := set_undoStack rest d in
      match operation with
      | EInsert text position count _ =>
          let '(s2, d2, _) := delete s d1 position count "undo" in
          (s2,
           set_redoStack (redoStack d2 ++ [EInsert text position count true])
                         d2)
      | EDelete position chars _ =>
          (mark_chars false chars s,
           set_redoStack (redoStack d1 ++ [EDelete position chars true]) d1)
      end
  end.

Definition redo (s : Store) (d : SimpleYDoc) : Store * SimpleYDoc :=
  match pop (redoStack d) with
  | None => (s, d)
  | Some (rest, operation) =>
      let d1 := set_redoStack rest d in
      match operation with
      | EInsert text position _ _ =>
          let '(s2, d2, _) := insert s d1 position text "redo" in
          (s2, set_undoStack (undoStack d2 ++ [operation]) d2)
      | EDelete position chars _ =>
          (mark_chars true chars s,
           set_undoStack (undoStack d1 ++ [operation]) d1)
      end
  end.

(** ** [applyRemoteOps] *)

(** [array.findIndex(p)], counted from [i]. *)
Fixpoint findIndex_from {A} (p : A → bool) (l : list A) (i : Z) : Z :=
  match l with
  | [] => -1
  | x :: rest => if p x then i else findIndex_from p rest (i + 1)
  end.

Definition findIndex {A} (p : A → bool) (l : list A) : Z :=
  findIndex_from p l 0.

(** [array.find(p)] *)
Fixpoint find {A} (p : A → bool) (l : list A) : option A :=
  match l with
  | [] => None
  | x :: rest => if p x then Some x else find p rest
  end.

(** [array.sort(cmp)].  The language specifies a stable sort; for a
    comparator that is a consistent ordering every stable sort returns the
    same array, here computed by insertion. *)
Fixpoint sort_insert {A} (cmp : A → A → Z) (x : A) (l : list A) : list A :=
  match l with
  | [] => [x]
  | y :: rest =>
      if cmp x y <=? 0 then x :: y :: rest else y :: sort_insert cmp x rest
  end.

Definition js_sort {A} (cmp : A → A → Z) (l : list A) : list A :=
  foldr (sort_insert cmp) [] l.

Section Merge.
(** [String.prototype.localeCompare] depends on the host's collation; the
    engine is parametric in it. *)
Variable localeCompare : string → string → Z.

(** The comparator handed to [sort] *)
Definition compareChars (a b : Char) : Z :=
  if decide (char_clientId a = char_clientId b)
  then char_clock a - char_clock b
  else localeCompare (char_clientId a) (char_clientId b).

(** The body of [ops.forEach] *)
Definition applyRemoteOp (sd : Store * SimpleYDoc) (op : Op)
  : Store * SimpleYDoc :=
  let '(s, d) := sd in
  if decide (op_type op = "insert") then
    let existingIndex :=
      findIndex (λ c, bool_decide (char_id c = char_id (op_char op)))
                (content d) in
    if existingIndex =? -1 then
      (s, set_content (js_sort compareChars (content d ++ [op_char op])) d)
    else (s, d)
  else if decide (op_type op = "delete") then
    match find (λ c, bool_decide (char_id c = char_id (op_char op)))
               (content d) with
    | Some char => (set_deleted true char s, d)
    | None => (s, d)
    end
  else (s, d).

Definition applyRemoteOps (s : Store) (d : SimpleYDoc) (ops : list Op)
  : Store * SimpleYDoc :=
  foldl applyRemoteOp (s, d) ops.
End Merge.

(** A collation that is a strict total order on strings: what
    [localeCompare] is on client ids. *)
Record Collation (localeCompare : string → string → Z) : Prop := {
  collation_eq : ∀ a b, localeCompare a b = 0 → a = b;
  collation_antisym : ∀ a b, localeCompare a b < 0 ↔ 0 < localeCompare b a;
  collation_trans : ∀ a b c,
    localeCompare a b < 0 → localeCompare b c < 0 → localeCompare a c < 0
}.

(** Comparison by code units, the collation of ASCII client ids such as
    [client-k3j9x0a1b]. *)
Definition codeUnitCompare (a b : string) : Z :=
  match String.compare a b with
  | Eq => 0
  | Lt => -1
  | Gt => 1
  end.

(** The store of a process that has created no character yet. *)
Definition empty_store : Store := mkStore 0 ∅.

(** ** The relay server ([server.js])

    The server keeps one [Y.Doc] per document.  [yjs] is an external
    library: the document type and the three calls the server makes are
    parameters.  [Y_applyUpdate doc update] is [None] when the call throws
    and otherwise the merged document with the update that the document's
    ['update'] event carries, if the merge changed anything.  The file
    writes of [saveState] are asynchronous in the source and their failure
    is only logged; the model records the bytes handed to [fs.writeFile]
    at once, so [files] is what was written last, not what a read that
    races with the write would find.  [loadState] is asynchronous as well:
    the constructor of a [DocumentManager] returns before the file is
    read, and the rest of [loadState] is a step of its own. *)

(** What the server sends to a session. *)
Inductive ServerMessage :=
| MsgError (message : string)
| MsgSync (update : list Z) (docId : string)
| MsgUpdate (update : list Z) (docId : string)
| MsgJoined (docId : string) (clients : nat) (textLength : Z)
            (updateSize : nat).

(** A client message [{ type, docId, update }]; a field that is missing is
    [None]. *)
Record ClientMessage := mkMessage {
  msg_type : string;
  msg_docId : option string;
  msg_update : list Z
}.

(** The fields the server keeps on a connection [ws]. *)
Record WebSocket := mkWs {
  ws_id : string;
  currentDoc : option string;
  isAlive : bool;
  readyState : Z
}.

(** JavaScript truthiness of a doc id: [null], [undefined] and [''] are
    falsy. *)
Definition truthy (v : option string) : bool :=
  match v with
  | None => false
  | Some s => negb (bool_decide (s = ""))
  end.

Section Server.
Context {YDoc : Type}.
Variable Y_new : YDoc.
Variable Y_applyUpdate : YDoc → list Z → option (YDoc * option (list Z)).
Variable Y_encodeStateAsUpdate : YDoc → list Z.
Variable Y_textLength : YDoc → Z.

(** A [DocumentManager]: its [Y.Doc] and the set of attached connections
    (in insertion order, by connection id). *)
Record DocumentManager := mkManager {
  dm_docId : string;
  dm_doc : YDoc;
  dm_clients : list string
}.

(** The process state: the [documents] map, the connections, the
    persisted canonical files by doc id, and the log of messages sent
    (connection id, message), oldest first. *)
Record Server := mkServer {
  documents : gmap string DocumentManager;
  connections : gmap string WebSocket;
  files : gmap string (list Z);
  sent : list (string * ServerMessage)
}.

Definition set_documents (m : gmap string DocumentManager) (s : Server)
  : Server :=
  mkServer m (connections s) (files s) (sent s).

(** [ws.send(JSON.stringify(m))] *)
Definition send (w : string) (m : ServerMessage) (s : Server) : Server :=
  mkServer (documents s) (connections s) (files s) (sent s ++ [(w, m)]).

(** [DocumentManager.saveState]: the state of the document is encoded and
    handed to [fs.writeFile] for the file of the document. *)
Definition saveState (dm : DocumentManager) (s : Server) : Server :=
  mkServer (documents s) (connections s)
           (<[dm_docId dm := Y_encodeStateAsUpdate (dm_doc dm)]> (files s))
           (sent s).

(** [DocumentManager.broadcastUpdate(update, origin)] *)
Definition broadcastUpdate (dm : DocumentManager) (update : list Z)
    (origin : string) (s : Server) : Server :=
  foldl (λ s client,
           if decide (client ≠ origin) then
             match connections s !! client with
             | Some ws =>
                 if readyState ws =? 1
                 then send client (MsgUpdate update (dm_docId dm)) s
                 else s
             | None => s
             end
           else s)
        s (dm_clients dm).

(** [DocumentManager.applyUpdate(update, client)], with the ['update']
    listener the constructor registers (the origin is a connection, never
    ['load']). *)
Definition dm_applyUpdate (dm : DocumentManager) (update : list Z)
    (client : string) (s : Server) : Server :=
  match Y_applyUpdate (dm_doc dm) update with
  | None => s
  | Some (doc', event) =>
      let dm' := mkManager (dm_docId dm) doc' (dm_clients dm) in
      let s1 := set_documents (<[dm_docId dm := dm']> (documents s)) s in
      match event with
      | None => s1
      | Some u => broadcastUpdate dm' u client (saveState dm' s1)
      end
  end.

(** [handleUpdate(ws, message)] *)
Definition handleUpdate (w : string) (message : ClientMessage) (s : Server)
  : Server :=
  match connections s !! w with
  | None => s
  | Some ws =>
      if negb (truthy (currentDoc ws))
         || negb (bool_decide (currentDoc ws = msg_docId message))
      then send w (MsgError "Not in document") s
      else
        match msg_docId message with
        | None => s
        | Some docId =>
            match documents s !! docId with
            | Some doc => dm_applyUpdate doc (msg_update message) w s
            | None => s
            end
        end
  end.

(** [DocumentManager.removeClient(client)], with [cleanup] *)
Definition removeClient (dm : DocumentManager) (client : string)
    (s : Server) : Server :=
  let clients' := filter (λ c, c ≠ client) (dm_clients dm) in
  let dm' := mkManager (dm_docId dm) (dm_doc dm) clients' in
  match clients' with
  | [] => set_documents (base.delete (dm_docId dm) (documents s))
             (saveState dm' s)
  | _ => set_documents (<[dm_docId dm := dm']> (documents s)) s
  end.

(** [getDocument(docId)].  The constructor of a new manager calls
    [loadState], which stops at its first [await]: the manager is filed
    with a new, empty [Y.Doc]. *)
Definition getDocument (docId : string) (s : Server)
  : DocumentManager * Server :=
  match documents s !! docId with
  | Some dm => (dm, s)
  | None =>
      let dm := mkManager docId Y_new [] in
      (dm, set_documents (<[docId := dm]> (documents s)) s)
  end.

(** [DocumentManager.loadState], from the point where the file has been
    read, for the manager filed under [docId]: the bytes are merged with
    origin ['load'], which the ['update'] listener neither saves nor
    broadcasts; a missing file or a throwing merge changes nothing. *)
Definition loadState (docId : string) (s : Server) : Server :=
  match documents s !! docId, files s !! docId with
  | Some dm, Some data =>
      match Y_applyUpdate (dm_doc dm) data with
      | Some (doc', _) =>
          set_documents
            (<[docId := mkManager (dm_docId dm) doc' (dm_clients dm)]>
               (documents s)) s
      | None => s
      end
  | _, _ => s
  end.

(** The same, with what the file system answered made explicit: [data] is
    what [fs.readFile] returned, or [None] when [fs.pathExists] found no
    file or either call threw.  The read races with every write that is
    still under way, so [data] need not be what was written last. *)
Definition loadState_read (docId : string) (data : option (list Z))
    (s : Server) : Server :=
  match documents s !! docId, data with
  | Some dm, Some bytes =>
      match Y_applyUpdate (dm_doc dm) bytes with
      | Some (doc', _) =>
          set_documents
            (<[docId := mkManager (dm_docId dm) doc' (dm_clients dm)]>
               (documents s)) s
      | None => s
      end
  | _, _ => s
  end.

(** [DocumentManager.addClient(client)] *)
Definition addClient (dm : DocumentManager) (client : string) (s : Server)
  : DocumentManager * Server :=
  let clients' :=
    if decide (client ∈ dm_clients dm) then dm_clients dm
    else dm_clients dm ++ [client] in
  let dm' := mkManager (dm_docId dm) (dm_doc dm) clients' in
  (dm',
   send client
     (MsgSync (Y_encodeStateAsUpdate (dm_doc dm)) (dm_docId dm))
     (set_documents (<[dm_docId dm := dm']> (documents s)) s)).

(** [handleJoin(ws, message)] *)
Definition handleJoin (w : string) (message : ClientMessage) (s : Server)
  : Server :=
  match connections s !! w with
  | None => s
  | Some ws =>
      match msg_docId message with
      | Some docId =>
          if truthy (Some docId) then
            let s1 :=
              match currentDoc ws with
              | Some old =>
                  if truthy (Some old) then
                    match documents s !! old with
                    | Some oldDoc => removeClient oldDoc w s
                    | None => s
                    end
                  else s
              | None => s
              end in
            let ws' := mkWs (ws_id ws) (Some docId) (isAlive ws)
                            (readyState ws) in
            let s2 :=
              mkServer (documents s1) (<[w := ws']> (connections s1))
                       (files s1) (sent s1) in
            let '(dm, s3) := getDocument docId s2 in
            let '(dm', s4) := addClient dm w s3 in
            send w
              (MsgJoined docId (List.length (dm_clients dm'))
                 (Y_textLength (dm_doc dm'))
                 (List.length (Y_encodeStateAsUpdate (dm_doc dm'))))
              s4
          else send w (MsgError "Document ID required") s
      | None => send w (MsgError "Document ID required") s
      end
  end.

(** [handleSyncRequest(ws, message)]; [message.vectorClock] is not read. *)
Definition handleSyncRequest (w : string) (message : ClientMessage)
    (s : Server) : Server :=
  match msg_docId message with
  | Some docId =>
      match documents s !! docId with
      | Some doc =>
          send w (MsgSync (Y_encodeStateAsUpdate (dm_doc doc)) docId) s
      | None => send w (MsgError "Document not found") s
      end
  | None => send w (MsgError "Document not found") s
  end.

(** The ['close'] listener of a connection, after which the connection is
    no longer among [wss.clients]. *)
Definition onClose (w : string) (s : Server) : Server :=
  match connections s !! w with
  | None => s
  | Some ws =>
      let s1 :=
        match currentDoc ws with
        | Some docId =>
            if truthy (Some docId) then
              match documents s !! docId with
              | Some doc => removeClient doc w s
              | None => s
              end
            else s
        | None => s
        end in
      mkServer (documents s1) (base.delete w (connections s1)) (files s1)
               (sent s1)
  end.



(** A call [saveSnapshot] makes to the file system; a name stands for the
    path [path.join(PERSISTENCE_DIR, name)]. *)
Inductive FsCall :=
| WriteFile (name : string) (data : list Z)
| Readdir
| Remove (name : string).

Global Instance FsCall_eq_dec : EqDecision FsCall.
Proof. solve_decision. Defined.



(** The ['pong'] listener of a connection. *)
Definition onPong (w : string) (s : Server) : Server :=
  mkServer (documents s)
           (alter (λ ws, mkWs (ws_id ws) (currentDoc ws) true (readyState ws))
                  w (connections s))
           (files s) (sent s).

(** The heartbeat timer.  A connection whose [isAlive] is [false] is
    terminated; every other one is marked not alive and pinged.  The
    result is the set of the terminated connections and the new state;
    their ['close'] listeners run later. *)
Definition heartbeat (s : Server) : gset string * Server :=
  (dom (filter (λ kv, isAlive kv.2 = false) (connections s)),
   mkServer (documents s)
            ((λ ws, if isAlive ws
                    then mkWs (ws_id ws) (currentDoc ws) false (readyState ws)
                    else ws) <$> connections s)
            (files s) (sent s)).
End Server.

Arguments mkManager {YDoc} _ _ _.
Arguments mkServer {YDoc} _ _ _ _.
(** ** Predicates and sample data of the statements *)

(** The operations [insert] emits for [text] from index [i] on, when the
    clock table holds [clock0] for the client and [ref0] is the next free
    address. *)
Fixpoint emitted (cid origin : string) (position clock0 : Z) (ref0 : nat)
    (text : string) (i : Z) : list Op :=
  match text with
  | EmptyString => []
  | String u rest =>
      mkOp "insert"
           (mkChar ref0 (make_id cid (clock0 + 1)) u cid (clock0 + 1)
                   (position + i)) origin
      :: emitted cid origin position (clock0 + 1) (S ref0) rest (i + 1)
  end.

(** [l] holds every object once, and only objects that exist. *)
Definition store_wf (s : Store) (l : list Char) : Prop :=
  NoDup (char_ref <$> l) ∧ Forall (λ c, (char_ref c < next_ref s)%nat) l.

Global Instance store_wf_dec s l : Decision (store_wf s l).
Proof. unfold store_wf. apply _. Defined.

(** The store [s] with the characters [l] tombstoned as well. *)
Definition tombstone_all (l : list Char) (s : Store) : Store :=
  mkStore (next_ref s) (list_to_set (char_ref <$> l) ∪ tombstoned s).

(** No delete of the list comes before an insert of the same id in the
    list. *)
Fixpoint deletes_follow_inserts (ops : list Op) : bool :=
  match ops with
  | [] => true
  | op :: rest =>
      (negb (bool_decide (op_type op = "delete"))
       || forallb (λ ins, negb (bool_decide (op_type ins = "insert"))
                          || negb (bool_decide (char_id (op_char ins) =
                                                char_id (op_char op)))) rest)
      && deletes_follow_inserts rest
  end.

(** Every character of [l] with id [ident] is a tombstone. *)
Definition all_tombstoned (s : Store) (ident : string) (l : list Char) : Prop :=
  ∀ c, c ∈ l → char_id c = ident → char_deleted s c = true.

(** An operation is absorbed by a state that already shows its effect. *)
Definition absorbed (s : Store) (d : SimpleYDoc) (op : Op) : Prop :=
  (op_type op = "insert" → char_id (op_char op) ∈ char_id <$> content d) ∧
  (op_type op = "delete" →
   all_tombstoned s (char_id (op_char op)) (content d)).

(** Every delete of the list comes after an insert of the same id, or
    refers to an id that is [known] from the start. *)
Fixpoint causal (known : list string) (ops : list Op) : bool :=
  match ops with
  | [] => true
  | op :: rest =>
      if decide (op_type op = "insert")
      then causal (char_id (op_char op) :: known) rest
      else if decide (op_type op = "delete")
      then bool_decide (char_id (op_char op) ∈ known) && causal known rest
      else causal known rest
  end.

(** What [JSON.stringify] keeps of a character object and of an
    operation: every field, and no address. *)
Record WireChar := mkWireChar {
  w_id : string;
  w_value : ascii;
  w_clientId : string;
  w_clock : Z;
  w_deleted : bool;
  w_position : Z
}.

Global Instance WireChar_eq_dec : EqDecision WireChar.
Proof. solve_decision. Defined.

Definition wire_char (s : Store) (c : Char) : WireChar :=
  mkWireChar (char_id c) (char_value c) (char_clientId c) (char_clock c)
             (char_deleted s c) (char_position c).

Definition wire (s : Store) (op : Op) : string * WireChar * string :=
  (op_type op, wire_char s (op_char op), op_origin op).

(** Two lists carry the same set of operations, as messages: each
    operation of one list has a twin in the other, the same object or a
    copy of it. *)
Definition same_operations (s : Store) (ops1 ops2 : list Op) : Prop :=
  Forall (λ a, Exists (λ b, wire s a = wire s b) ops2) ops1 ∧
  Forall (λ b, Exists (λ a, wire s a = wire s b) ops1) ops2.

Global Instance same_operations_dec s ops1 ops2 :
  Decision (same_operations s ops1 ops2).
Proof. unfold same_operations. apply _. Defined.

(** The operations name characters consistently: among the inserts, an id
    stands for one character (copies of it are equal field by field), a
    client id and clock for one id (as in [`${clientId}-${clock}`]), and
    an address for one object. *)
Definition coherent (s : Store) (ops : list Op) : Prop :=
  Forall (λ a, Forall (λ b,
    op_type a = "insert" → op_type b = "insert" →
    (char_id (op_char a) = char_id (op_char b) →
     wire_char s (op_char a) = wire_char s (op_char b)) ∧
    (char_clientId (op_char a) = char_clientId (op_char b) →
     char_clock (op_char a) = char_clock (op_char b) →
     char_id (op_char a) = char_id (op_char b)) ∧
    (char_ref (op_char a) = char_ref (op_char b) →
     char_id (op_char a) = char_id (op_char b))) ops) ops.

Global Instance coherent_dec s ops : Decision (coherent s ops).
Proof. unfold coherent. apply _. Defined.

(** Some delete of the list refers to [ident]. *)
Definition deleted_in (ops : list Op) (ident : string) : bool :=
  bool_decide
    (Exists (λ op, op_type op = "delete" ∧ char_id (op_char op) = ident) ops).

(** The order [sort] establishes: [a] may stand before [b]. *)
Definition key_le (localeCompare : string → string → Z) (a b : Char) : Prop :=
  compareChars localeCompare a b ≤ 0.

(** The same order on serialised characters. *)
Definition wire_le (localeCompare : string → string → Z) (a b : WireChar)
  : Prop :=
  (if decide (w_clientId a = w_clientId b) then w_clock a - w_clock b
   else localeCompare (w_clientId a) (w_clientId b)) ≤ 0.

(** The invariant of the server state: a manager is filed under its own
    doc id, and the doc id a connection has joined is never the empty
    string ([handleJoin] refuses falsy ids). *)
Definition server_wf {YDoc : Type} (s : @Server YDoc) : Prop :=
  map_Forall (λ k dm, dm_docId dm = k) (documents s) ∧
  map_Forall (λ _ ws, currentDoc ws ≠ Some "") (connections s).

(** [del] deletes the character that [ins] inserts. *)
Definition conflict (ins del : Op) : Prop :=
  op_type ins = "insert" ∧ op_type del = "delete" ∧
  char_id (op_char ins) = char_id (op_char del).

(** Client [a] types "x" and deletes it.  The insert is sent before the
    delete happens, the delete after: a replica that shares the objects of
    its peers receives [x_insert_op] and [x_delete_op] themselves, a replica
    across a JSON transport receives the copies [x_insert_copy] and
    [x_delete_copy] (the character object at address 1, a copy of the one
    at address 0 made while it was not yet tombstoned). *)
Definition x_char : Char := mkChar 0 "a-1" "x" "a" 1 0.
Definition x_copy : Char := mkChar 1 "a-1" "x" "a" 1 0.
Definition x_insert_op : Op := mkOp "insert" x_char "local".
Definition x_delete_op : Op := mkOp "delete" x_char "local".
Definition x_insert_copy : Op := mkOp "insert" x_copy "local".
Definition x_delete_copy : Op := mkOp "delete" x_copy "local".
Definition x_store : Store := mkStore 2 ∅.

(** Client [a] types "hi" and deletes the "h": the three operations as a
    peer receives them, and copies of them. *)
Definition h_char (ref : nat) : Char := mkChar ref "a-1" "h" "a" 1 0.
Definition i_char (ref : nat) : Char := mkChar ref "a-2" "i" "a" 2 1.
Definition hi_ops (h i : nat) : list Op :=
  [mkOp "insert" (h_char h) "local"; mkOp "insert" (i_char i) "local";
   mkOp "delete" (h_char h) "local"].
Definition hi_store : Store := mkStore 4 ∅.

(** A server with one document, joined by two connections, and a third
    connection that joined nothing; [Y.Doc] is played by the list of the
    bytes merged so far. *)
Definition demo_applyUpdate (doc update : list Z)
  : option (list Z * option (list Z)) :=
  Some (doc ++ update, Some update).

Definition demo_server : @Server (list Z) :=
  mkServer
    {[ "doc1" := mkManager "doc1" [7] ["w1"; "w2"] ]}
    (<["w1" := mkWs "w1" (Some "doc1") true 1]>
       (<["w2" := mkWs "w2" (Some "doc1") true 1]>
          {[ "w3" := mkWs "w3" None true 1 ]}))
    ∅ [].

(** Two participants type "X" and "Y", each at position 0 of their own
    replica; each replica then merges the other's operation (the very
    objects, as the simulated connection hands them over); at last the
    first participant calls [undo].  The texts of both replicas after the
    merge, and after the undo. *)
Definition undo_after_merge (p1 p2 : string)
  : (string * string) * (string * string) :=
  let '(s1, d1, ops1) := insert empty_store (new_SimpleYDoc p1) 0 "X" "local" in
  let '(s2, d2, ops2) := insert s1 (new_SimpleYDoc p2) 0 "Y" "local" in
  let '(s3, d1') := applyRemoteOps codeUnitCompare s2 d1 ops2 in
  let '(s4, d2') := applyRemoteOps codeUnitCompare s3 d2 ops1 in
  let '(s5, d1'') := undo s4 d1' in
  ((getText s4 d1', getText s4 d2'), (getText s5 d1'', getText s5 d2')).

(** ** [getState], [setState] and the saved state *)

(** The object [{ content, vectorClock, clientId }] of [getState]. *)
Record DocState := mkDocState {
  state_content : list Char;
  state_vectorClock : gmap string Z;
  state_clientId : string
}.

Definition getState (d : SimpleYDoc) : DocState :=
  mkDocState (content d) (vectorClock d) (clientId d).

(** [setState(state)]; [state.clientId] is not read, and the two stacks
    stay.  The source keeps the array and the clock table of [state]
    themselves; the callers hand it what [JSON.parse] has just made, which
    nothing else refers to. *)
Definition setState (state : DocState) (d : SimpleYDoc) : SimpleYDoc :=
  mkDoc (clientId d) (state_content state) (state_vectorClock state)
        (undoStack d) (redoStack d).

(** The text [JSON.stringify(state)]: every character with its fields as
    they are at that moment, and no address. *)
Record SavedState := mkSavedState {
  saved_content : list WireChar;
  saved_vectorClock : gmap string Z;
  saved_clientId : string
}.

Definition stringify_state (s : Store) (state : DocState) : SavedState :=
  mkSavedState (wire_char s <$> state_content state)
               (state_vectorClock state) (state_clientId state).

(** [JSON.parse] makes a new object of every character. *)
Fixpoint parse_chars (s : Store) (l : list WireChar) : Store * list Char :=
  match l with
  | [] => (s, [])
  | w :: rest =>
      let '(ref, s1) := new_object s in
      let c :=
        mkChar ref (w_id w) (w_value w) (w_clientId w) (w_clock w)
               (w_position w) in
      let '(s2, cs) := parse_chars (set_deleted (w_deleted w) c s1) rest in
      (s2, c :: cs)
  end.

Definition parse_state (s : Store) (saved : SavedState) : Store * DocState :=
  let '(s1, cs) := parse_chars s (saved_content saved) in
  (s1, mkDocState cs (saved_vectorClock saved) (saved_clientId saved)).

(** What the editor keeps in [localStorage]:
    [JSON.stringify(docRef.current.getState())]. *)
Definition save (s : Store) (d : SimpleYDoc) : SavedState :=
  stringify_state s (getState d).

(** What the editor does with a saved state when it mounts:
    [docRef.current.setState(JSON.parse(savedState))]. *)
Definition restore (s : Store) (d : SimpleYDoc) (saved : SavedState)
  : Store * SimpleYDoc :=
  let '(s1, state) := parse_state s saved in
  (s1, setState state d).

(** ** Invariants of a replica *)


(** No character of the replica's own client carries a clock beyond the
    client's entry of the clock table. *)
Definition clock_bounded (d : SimpleYDoc) : Prop :=
  Forall (λ c, char_clientId c = clientId d →
               char_clock c ≤ default 0 (vectorClock d !! clientId d))
         (content d).

Global Instance clock_bounded_dec d : Decision (clock_bounded d).
Proof. unfold clock_bounded. apply _. Defined.

(** The integers a JavaScript number counts one by one: a number is a
    double, and from [2^53] on [n + 1] is no longer the integer above [n]
    (it is [n] again at [2^53]).  Between two such integers the sums the
    code forms ([clock + 1], [position + i]) are the integers the model
    computes; statements about the clocks, ids and positions [insert]
    gives out are made within this range. *)
Definition exact_integer (n : Z) : Prop := - 2 ^ 53 ≤ n ≤ 2 ^ 53.

Global Instance exact_integer_dec n : Decision (exact_integer n).
Proof. unfold exact_integer. apply _. Defined.

(** [isRedo: true] written into an entry, as [{ ...operation, isRedo: true }]
    does. *)
Definition with_isRedo (e : Entry) : Entry :=
  match e with
  | EInsert text position count _ => EInsert text position count true
  | EDelete position chars _ => EDelete position chars true
  end.

(** ** [SimulatedConnection] *)

(** A message [{ type, ops, clientId }]. *)
Record Message := mkMsg {
  message_type : string;
  message_ops : list Op;
  message_clientId : string
}.

Global Instance Message_eq_dec : EqDecision Message.
Proof. solve_decision. Defined.

(** The fields of a connection object that are read after construction.
    [onMessage] and [onStatusChange] are callbacks of the editor that owns
    the connection. *)
Record SimulatedConnection := mkConnection {
  conn_clientId : string;
  connected : bool;
  messageQueue : list Message
}.

(** The connection objects of the page by address, the set
    [window.__collaborativeState.connections] in insertion order, and the
    timers started by [broadcast] that have not fired: [(c, m)] will call
    [onMessage(m)] of the connection at address [c].  The delays are
    random, so the timers fire in any order. *)
Record Network := mkNetwork {
  next_conn : nat;
  conn_heap : gmap nat SimulatedConnection;
  registered : list nat;
  timers : list (nat * Message)
}.

Definition set_conn (a : nat) (c : SimulatedConnection) (net : Network)
  : Network :=
  mkNetwork (next_conn net) (<[a := c]> (conn_heap net)) (registered net)
            (timers net).

(** [conn.connected] of the object at address [c] *)
Definition is_connected (net : Network) (c : nat) : bool :=
  match conn_heap net !! c with
  | Some conn => connected conn
  | None => false
  end.

(** [new SimulatedConnection(clientId, onMessage, onStatusChange)] *)
Definition new_SimulatedConnection (cid : string) (net : Network)
  : nat * Network :=
  let a := next_conn net in
  (a,
   mkNetwork (S a) (<[a := mkConnection cid true []]> (conn_heap net))
             (if decide (a ∈ registered net) then registered net
              else registered net ++ [a])
             (timers net)).

(** [broadcast(message)] of the connection at address [a] *)
Definition broadcast (a : nat) (message : Message) (net : Network)
  : Network :=
  foldl (λ n conn,
           if decide (conn ≠ a) then
             if is_connected n conn
             then mkNetwork (next_conn n) (conn_heap n) (registered n)
                            (timers n ++ [(conn, message)])
             else n
           else n)
        net (registered net).

(** [send(message)] *)
Definition send_message (a : nat) (message : Message) (net : Network)
  : Network :=
  match conn_heap net !! a with
  | None => net
  | Some conn =>
      if connected conn then broadcast a message net
      else set_conn a
             (mkConnection (conn_clientId conn) (connected conn)
                           (messageQueue conn ++ [message])) net
  end.

(** [disconnect()] *)
Definition disconnect (a : nat) (net : Network) : Network :=
  match conn_heap net !! a with
  | None => net
  | Some conn =>
      set_conn a (mkConnection (conn_clientId conn) false (messageQueue conn))
               net
  end.

(** The loop of [reconnect]:
    [while (queue.length > 0) this.broadcast(queue.shift())], for the
    [queue] that the object at [a] holds. *)
Fixpoint reconnect_loop (a : nat) (queue : list Message) (net : Network)
  : Network :=
  match queue with
  | [] => net
  | message :: rest =>
      let net1 :=
        match conn_heap net !! a with
        | Some conn =>
            set_conn a
              (mkConnection (conn_clientId conn) (connected conn) rest) net
        | None => net
        end in
      reconnect_loop a rest (broadcast a message net1)
  end.

(** [reconnect()] *)
Definition reconnect (a : nat) (net : Network) : Network :=
  match conn_heap net !! a with
  | None => net
  | Some conn =>
      reconnect_loop a (messageQueue conn)
        (set_conn a
           (mkConnection (conn_clientId conn) true (messageQueue conn)) net)
  end.

(** [destroy()] *)
Definition destroy (a : nat) (net : Network) : Network :=
  mkNetwork (next_conn net) (conn_heap net)
            (filter (λ c, c ≠ a) (registered net)) (timers net).

(** What an editor may do to the network. *)
Inductive NetAction :=
| ActNew (cid : string)
| ActSend (a : nat) (message : Message)
| ActDisconnect (a : nat)
| ActReconnect (a : nat)
| ActDestroy (a : nat).

Definition net_step (net : Network) (act : NetAction) : Network :=
  match act with
  | ActNew cid => (new_SimulatedConnection cid net).2
  | ActSend a message => send_message a message net
  | ActDisconnect a => disconnect a net
  | ActReconnect a => reconnect a net
  | ActDestroy a => destroy a net
  end.

(** The connections [broadcast] of [a] reaches: the registered ones other
    than [a] that are connected. *)
Definition peers (a : nat) (net : Network) : list nat :=
  filter (λ c, c ≠ a ∧ is_connected net c) (registered net).

(** The network [net] with the timers [ts]. *)
Definition with_timers (ts : list (nat * Message)) (net : Network) : Network :=
  mkNetwork (next_conn net) (conn_heap net) (registered net) ts.

(** The timers that will call [onMessage] of the connection [p]. *)
Definition timers_for (p : nat) (net : Network) : list (nat * Message) :=
  filter (λ t, t.1 = p) (timers net).

(** ** The editor component *)

(** [String.prototype.slice(start, end)]: a negative index counts from
    the end, and indices are clamped to the string. *)
Definition slice_index (len i : Z) : Z :=
  if i <? 0 then Z.max (len + i) 0 else Z.min i len.

Definition slice (str : string) (start end_ : Z) : string :=
  let len := Z.of_nat (String.length str) in
  let from := slice_index len start in
  let to := slice_index len end_ in
  String.substring (Z.to_nat from) (Z.to_nat (to - from)) str.

(** [handleTextChange(e)] for the editor with replica [d] and connection
    [a]: [text] is the editor's [text] state, [newText] and [cursorPos] are
    [e.target.value] and [e.target.selectionStart]. *)
Definition handleTextChange (s : Store) (d : SimpleYDoc) (a : nat)
    (net : Network) (text newText : string) (cursorPos : Z)
  : Store * SimpleYDoc * Network :=
  let newLength := Z.of_nat (String.length newText) in
  let oldLength := Z.of_nat (String.length text) in
  if oldLength <? newLength then
    let insertPos := cursorPos - (newLength - oldLength) in
    let insertedText := slice newText insertPos cursorPos in
    let '(s1, d1, ops) := insert s d insertPos insertedText "local" in
    (s1, d1, send_message a (mkMsg "ops" ops (clientId d)) net)
  else if newLength <? oldLength then
    let deletePos := cursorPos in
    let deleteCount := oldLength - newLength in
    let '(s1, d1, ops) := delete s d deletePos deleteCount "local" in
    (s1, d1, send_message a (mkMsg "ops" ops (clientId d)) net)
  else (s, d, net).


(** ** Invariants of the relay server *)

(** The connection [w] is open: [readyState === 1]. *)
Definition is_open {YDoc : Type} (s : @Server YDoc) (w : string) : Prop :=
  ∃ ws, connections s !! w = Some ws ∧ readyState ws = 1.

Global Instance is_open_dec {YDoc : Type} (s : @Server YDoc) w :
  Decision (is_open s w).
Proof.
  unfold is_open. destruct (connections s !! w) as [ws|].
  - destruct (decide (readyState ws = 1)) as [H|H].
    + left. by exists ws.
    + right. intros (ws' & [= <-] & ?). done.
  - right. by intros (ws' & [=] & _).
Defined.

(** Documents and connections agree on who has joined what: the clients
    of a document are distinct connections whose [currentDoc] is that
    document, and a connection whose [currentDoc] is set is a client of
    that document. *)
Definition attached {YDoc : Type} (s : @Server YDoc) : Prop :=
  server_wf s ∧
  map_Forall (λ docId dm,
      NoDup (dm_clients dm) ∧
      Forall (λ w, ∃ ws, connections s !! w = Some ws ∧
                         currentDoc ws = Some docId) (dm_clients dm))
    (documents s) ∧
  map_Forall (λ w ws,
      ∀ docId, currentDoc ws = Some docId →
               ∃ dm, documents s !! docId = Some dm ∧ w ∈ dm_clients dm)
    (connections s).

(** [attached], but for the connection [w], which has left its document
    and is a client of none. *)
Definition attached_but {YDoc : Type} (w : string) (s : @Server YDoc)
  : Prop :=
  server_wf s ∧
  map_Forall (λ docId dm,
      NoDup (dm_clients dm) ∧
      Forall (λ c, c ≠ w ∧
                   ∃ ws, connections s !! c = Some ws ∧
                         currentDoc ws = Some docId) (dm_clients dm))
    (documents s) ∧
  map_Forall (λ c ws,
      c ≠ w →
      ∀ docId, currentDoc ws = Some docId →
               ∃ dm, documents s !! docId = Some dm ∧ c ∈ dm_clients dm)
    (connections s).

(** No document is without a client. *)
Definition no_orphans {YDoc : Type} (s : @Server YDoc) : Prop :=
  map_Forall (λ _ dm, dm_clients dm ≠ []) (documents s).

(** ** Sample states *)

(** "ab" typed into a fresh replica of client [p]. *)
Definition typed_ab : Store * SimpleYDoc :=
  (insert empty_store (new_SimpleYDoc "p") 0 "ab" "local").1.

(** The same replica once its "a" is deleted: the visible text is "b",
    behind a tombstone. *)
Definition deleted_a : Store * SimpleYDoc :=
  (delete typed_ab.1 typed_ab.2 0 1 "local").1.

(** A page with two editors, connected. *)
Definition demo_net : Network :=
  mkNetwork 2
    {[ 0%nat := mkConnection "p" true []; 1%nat := mkConnection "q" true [] ]}
    [0%nat; 1%nat] [].

Definition hello (n : Z) : Message :=
  mkMsg "ops" [mkOp "insert" (mkChar 0 "p-1" "x" "p" 1 n) "local"] "p".

Global Instance NetAction_eq_dec : EqDecision NetAction.
Proof. solve_decision. Defined.

(** A server whose one document has one client, and a connection that has
    joined nothing. *)
Definition solo_server : @Server (list Z) :=
  mkServer
    {[ "doc1" := mkManager "doc1" [7] ["w1"] ]}
    (<["w1" := mkWs "w1" (Some "doc1") true 1]>
       {[ "w2" := mkWs "w2" None true 1 ]})
    ∅ [].

Definition demo_textLength (doc : list Z) : Z := Z.of_nat (List.length doc).

(** * Properties *)

(** ** Basic facts about the data model *)

Lemma set_content_id d : set_content (content d) d = d.
Proof. by destruct d. Qed.

Lemma pop_snoc {A} (l : list A) x : pop (l ++ [x]) = Some (l, x).
Proof. induction l as [|y l IH]; simpl; [done|]. by rewrite IH. Qed.

Lemma store_eq s1 s2 :
  next_ref s1 = next_ref s2 → tombstoned s1 = tombstoned s2 → s1 = s2.
Proof. destruct s1, s2. simpl. by intros -> ->. Qed.

Lemma char_deleted_true s c : char_deleted s c = true ↔ char_ref c ∈ tombstoned s.
Proof. unfold char_deleted. apply bool_decide_eq_true. Qed.

Lemma char_deleted_false s c : char_deleted s c = false ↔ char_ref c ∉ tombstoned s.
Proof. unfold char_deleted. apply bool_decide_eq_false. Qed.

Lemma set_deleted_true_absorbed s c :
  char_deleted s c = true → set_deleted true c s = s.
Proof.
  intros H. apply char_deleted_true in H. apply store_eq; simpl; [done|].
  apply set_eq. intros x. rewrite elem_of_union, elem_of_singleton.
  split; [intros [->|?]; done|by right].
Qed.

Lemma char_deleted_set_true s c c' :
  char_deleted (set_deleted true c s) c' =
  bool_decide (char_ref c' = char_ref c) || char_deleted s c'.
Proof.
  unfold char_deleted, set_deleted. simpl. apply eq_true_iff_eq.
  rewrite orb_true_iff, !bool_decide_eq_true.
  by rewrite elem_of_union, elem_of_singleton.
Qed.

Lemma codeUnitCompare_lt a b : codeUnitCompare a b < 0 ↔ String.compare a b = Lt.
Proof. unfold codeUnitCompare. destruct (String.compare a b); split; (lia || done). Qed.

Lemma string_compare_Lt_le a b : String.compare a b = Lt → String.le a b.
Proof. intros H. unfold String.le, String.leb. by rewrite H. Qed.

Lemma codeUnitCompare_collation : Collation codeUnitCompare.
Proof.
  split.
  - intros a b H. apply String.compare_eq_iff. unfold codeUnitCompare in H.
    destruct (String.compare a b); (done || lia).
  - intros a b. unfold codeUnitCompare. rewrite (String.compare_antisym b a).
    destruct (String.compare a b); simpl; lia.
  - intros a b c. rewrite !codeUnitCompare_lt. intros Hab Hbc.
    assert (String.le a c) as Hac.
    { transitivity b; by apply string_compare_Lt_le. }
    unfold String.le, String.leb in Hac.
    destruct (String.compare a c) eqn:E; [|done|done].
    apply String.compare_eq_iff in E. subst c.
    rewrite String.compare_antisym, Hab in Hbc. discriminate.
Qed.

(** ** The undo ledger of [insert] and [delete] *)

Lemma insert_loop_stacks s d position origin text i :
  let d' := (insert_loop s d position origin text i).1.2 in
  undoStack d' = undoStack d ∧ redoStack d' = redoStack d ∧
  clientId d' = clientId d.
Proof.
  revert s d i. induction text as [|u rest IH]; intros s d i; simpl; [done|].
  match goal with |- context [insert_loop ?s1 ?d1 _ _ _ _] =>
    specialize (IH s1 d1 (i + 1));
    destruct (insert_loop s1 d1 position origin rest (i + 1)) as [[s2 d2] ops]
  end.
  simpl in *. done.
Qed.

(** C8.  Ledger discipline: [insert] and [delete] push an entry onto the
    undo stack exactly when the origin is ['local'], and they empty the redo
    stack exactly then; with any other origin both stacks are left as they
    were. *)
Theorem ledger_discipline s d position text length origin :
  let di := (insert s d position text origin).1.2 in
  let dd := (delete s d position length origin).1.2 in
  undoStack di =
    (if decide (origin = "local")
     then undoStack d ++
          [EInsert text position (Z.of_nat (String.length text)) false]
     else undoStack d) ∧
  redoStack di = (if decide (origin = "local") then [] else redoStack d) ∧
  undoStack dd =
    (if decide (origin = "local")
     then undoStack d ++
          [EDelete position
                   (op_char <$> (delete s d position length origin).2) false]
     else undoStack d) ∧
  redoStack dd = (if decide (origin = "local") then [] else redoStack d) ∧
  (undoStack di ≠ undoStack d ↔ origin = "local") ∧
  (undoStack dd ≠ undoStack d ↔ origin = "local").
Proof.
  assert (∀ (l : list Entry) x, l ++ [x] ≠ l) as Hne.
  { intros l x H. apply (f_equal List.length) in H.
    rewrite length_app in H. simpl in H. lia. }
  unfold insert, delete.
  pose proof (insert_loop_stacks s d position origin text 0) as (Hu & Hr & _).
  destruct (insert_loop s d position origin text 0) as [[s1 d1] ops1].
  destruct (delete_loop s (content d) position length origin 0 0) as [s2 ops2].
  simpl in *. destruct (decide (origin = "local")) as [->|Hor]; simpl.
  - rewrite Hu. repeat split; try done; intros _; apply Hne.
  - rewrite Hu, Hr. repeat split; try done; intros H; by destruct H.
Qed.

(** ** Deletes of unknown ids in [applyRemoteOps] *)

Lemma find_none_id ident l :
  ident ∉ char_id <$> l →
  find (λ c, bool_decide (char_id c = ident)) l = None.
Proof.
  induction l as [|c l IH]; simpl; [done|]. intros H.
  rewrite not_elem_of_cons in H. destruct H as [H1 H2].
  rewrite bool_decide_eq_false_2 by congruence. by apply IH.
Qed.

Lemma find_some_id ident l :
  ident ∈ char_id <$> l →
  ∃ c, find (λ c, bool_decide (char_id c = ident)) l = Some c ∧
       c ∈ l ∧ char_id c = ident.
Proof.
  induction l as [|c l IH]; simpl.
  { intros H. by apply elem_of_nil in H. }
  intros H. destruct (decide (char_id c = ident)) as [E|E].
  - rewrite bool_decide_eq_true_2 by done. exists c.
    split; [done|]. split; [by left|done].
  - rewrite bool_decide_eq_false_2 by done.
    apply elem_of_cons in H as [H|H]; [congruence|].
    destruct (IH H) as (c' & ? & ? & ?). exists c'.
    split; [done|]. split; [by right|done].
Qed.

Lemma findIndex_from_absent {A} (p : A → bool) l i :
  0 ≤ i → (findIndex_from p l i = -1 ↔ ∀ x, x ∈ l → p x = false).
Proof.
  revert i. induction l as [|y l IH]; intros i Hi; simpl.
  - split; [|done]. intros _ x Hx. by apply elem_of_nil in Hx.
  - destruct (p y) eqn:E.
    + split; [lia|]. intros H. specialize (H y (list_elem_of_here _ _)). congruence.
    + rewrite IH by lia. split.
      * intros H x Hx. apply elem_of_cons in Hx as [->|Hx]; auto.
      * intros H x Hx. apply H. by right.
Qed.

Lemma findIndex_absent_id ident l :
  findIndex (λ c, bool_decide (char_id c = ident)) l = -1 ↔
  ident ∉ char_id <$> l.
Proof.
  unfold findIndex. rewrite findIndex_from_absent by lia.
  rewrite list_elem_of_fmap. split.
  - intros H (c & -> & Hc). specialize (H c Hc).
    by rewrite bool_decide_eq_false in H.
  - intros H c Hc. rewrite bool_decide_eq_false. intros <-. apply H. eauto.
Qed.

Lemma sort_insert_perm {A} (cmp : A → A → Z) x l : sort_insert cmp x l ≡ₚ x :: l.
Proof.
  induction l as [|y l IH]; simpl; [done|].
  destruct (cmp x y <=? 0); [done|]. rewrite IH. apply Permutation_swap.
Qed.

Lemma js_sort_perm {A} (cmp : A → A → Z) l : js_sort cmp l ≡ₚ l.
Proof.
  induction l as [|y l IH]; simpl; [done|].
  rewrite sort_insert_perm. by rewrite IH.
Qed.

Lemma applyRemoteOp_insert_new lc s d op :
  op_type op = "insert" → char_id (op_char op) ∉ char_id <$> content d →
  applyRemoteOp lc (s, d) op =
  (s, set_content (js_sort (compareChars lc) (content d ++ [op_char op])) d).
Proof.
  intros Ht Hn. unfold applyRemoteOp. rewrite decide_True by done.
  apply findIndex_absent_id in Hn. by rewrite Hn.
Qed.

Lemma applyRemoteOp_insert_known lc s d op :
  op_type op = "insert" → char_id (op_char op) ∈ char_id <$> content d →
  applyRemoteOp lc (s, d) op = (s, d).
Proof.
  intros Ht Hn. unfold applyRemoteOp. rewrite decide_True by done.
  destruct (findIndex _ (content d) =? -1) eqn:E; [|done].
  apply Z.eqb_eq, findIndex_absent_id in E. done.
Qed.

Lemma applyRemoteOp_delete lc s d op :
  op_type op = "delete" →
  applyRemoteOp lc (s, d) op =
  match find (λ c, bool_decide (char_id c = char_id (op_char op)))
             (content d) with
  | Some char => (set_deleted true char s, d)
  | None => (s, d)
  end.
Proof.
  intros Ht. unfold applyRemoteOp. rewrite Ht.
  rewrite decide_False by done. by rewrite decide_True.
Qed.

Lemma applyRemoteOps_single lc s d op :
  applyRemoteOps lc s d [op] = applyRemoteOp lc (s, d) op.
Proof. done. Qed.

Lemma applyRemoteOp_other lc s d op :
  op_type op ≠ "insert" → op_type op ≠ "delete" →
  applyRemoteOp lc (s, d) op = (s, d).
Proof.
  intros H1 H2. unfold applyRemoteOp. by rewrite !decide_False by done.
Qed.

(** C10, as the code has it.  A delete whose character id is not in the
    replica is discarded: store and replica are left as they were and
    nothing about the delete is remembered, so when the matching insert
    arrives in a later call the result is the one of that insert alone.
    The character is added as the insert carries it: it is the object of
    the insert, visible exactly when that object's [deleted] flag is
    [false] on arrival, and a tombstone when the flag is already [true],
    as it is for the object the author's own [delete] has tombstoned. *)
Theorem delete_of_unknown_id_is_dropped lc s d del ins :
  op_type del = "delete" →
  char_id (op_char del) ∉ char_id <$> content d →
  op_type ins = "insert" →
  char_id (op_char ins) = char_id (op_char del) →
  applyRemoteOps lc s d [del] = (s, d) ∧
  let r1 := applyRemoteOps lc s d [del] in
  let r2 := applyRemoteOps lc r1.1 r1.2 [ins] in
  r2 = applyRemoteOps lc s d [ins] ∧
  r2.1 = s ∧
  op_char ins ∈ content r2.2 ∧
  (∀ c, c ∈ content r2.2 → char_id c = char_id (op_char del) →
        c = op_char ins ∧
        char_deleted r2.1 c = char_deleted s (op_char ins)) ∧
  (char_deleted s (op_char ins) = false →
   ∀ c, c ∈ content r2.2 → char_id c = char_id (op_char del) →
        visible r2.1 c) ∧
  (char_deleted s (op_char ins) = true →
   ∀ c, c ∈ content r2.2 → char_id c = char_id (op_char del) →
        ¬ visible r2.1 c).
Proof.
  intros Hdel Habs Hins Hid.
  assert (applyRemoteOps lc s d [del] = (s, d)) as Hdrop.
  { rewrite applyRemoteOps_single, applyRemoteOp_delete by done.
    by rewrite find_none_id. }
  split; [done|]. rewrite Hdrop. cbv zeta. cbn [fst snd].
  rewrite applyRemoteOps_single.
  rewrite applyRemoteOp_insert_new by (by rewrite ?Hid).
  cbn [fst snd content set_content]. split; [done|]. split; [done|].
  assert (∀ c, c ∈ js_sort (compareChars lc) (content d ++ [op_char ins]) →
               char_id c = char_id (op_char del) → c = op_char ins) as Hone.
  { intros c Hc Hcid. rewrite js_sort_perm in Hc.
    apply elem_of_app in Hc as [Hc|Hc].
    - exfalso. apply Habs. rewrite <- Hcid. apply list_elem_of_fmap. eauto.
    - by apply list_elem_of_singleton in Hc. }
  split; [|split; [|split]].
  - rewrite js_sort_perm. apply elem_of_app. right. by left.
  - intros c Hc Hcid. by rewrite (Hone c Hc Hcid).
  - intros Hvis c Hc Hcid. by rewrite (Hone c Hc Hcid).
  - intros Hdead c Hc Hcid. rewrite (Hone c Hc Hcid). unfold visible.
    by rewrite Hdead.
Qed.

(** ** [delete] removes a range of the visible text *)

Lemma filter_visible_cons s c l :
  filter (visible s) (c :: l) =
  if char_deleted s c then filter (visible s) l else c :: filter (visible s) l.
Proof.
  rewrite filter_cons.
  destruct (decide (visible s c)) as [H|H]; unfold visible in H.
  - by rewrite H.
  - apply not_false_is_true in H. by rewrite H.
Qed.

Lemma visibleValues_cons s c l :
  visibleValues s (c :: l) =
  if char_deleted s c then visibleValues s l
  else char_value c :: visibleValues s l.
Proof.
  unfold visibleValues. rewrite filter_visible_cons.
  by destruct (char_deleted s c).
Qed.

Lemma visibleValues_app s l1 l2 :
  visibleValues s (l1 ++ l2) = visibleValues s l1 ++ visibleValues s l2.
Proof. unfold visibleValues. by rewrite filter_app, fmap_app. Qed.

Lemma visibleValues_all_visible s l :
  Forall (visible s) l → visibleValues s l = char_value <$> l.
Proof.
  induction 1 as [|c l Hc _ IH]; [done|].
  rewrite visibleValues_cons, Hc, IH. done.
Qed.

(** Flags of the characters of [l] are the same in two stores that agree
    on the addresses of [l]. *)
Lemma filter_visible_ext s1 s2 l :
  Forall (λ c, char_deleted s1 c = char_deleted s2 c) l →
  filter (visible s1) l = filter (visible s2) l.
Proof.
  induction 1 as [|c l Hc _ IH]; [done|].
  by rewrite !filter_visible_cons, Hc, IH.
Qed.

Lemma char_deleted_tombstone_all T s c :
  char_deleted (tombstone_all T s) c = true ↔
  char_ref c ∈ char_ref <$> T ∨ char_deleted s c = true.
Proof.
  rewrite !char_deleted_true. unfold tombstone_all. simpl.
  rewrite elem_of_union, elem_of_list_to_set. done.
Qed.

Lemma tombstone_all_nil s : tombstone_all [] s = s.
Proof.
  apply store_eq; simpl; [done|]. apply set_eq. intros x.
  rewrite elem_of_union, elem_of_empty. tauto.
Qed.

Lemma tombstone_all_cons c T s :
  tombstone_all T (set_deleted true c s) = tombstone_all (c :: T) s.
Proof.
  apply store_eq; simpl; [done|]. apply set_eq. intros x.
  rewrite !elem_of_union, elem_of_singleton. tauto.
Qed.

Lemma elem_of_take_drop_filter {A} (P : A → Prop) `{∀ x, Decision (P x)}
    (l : list A) r k x :
  x ∈ take r (drop k (filter P l)) → x ∈ l.
Proof.
  intros Hx. apply subseteq_take, subseteq_drop in Hx.
  by apply list_elem_of_filter in Hx as [_ ?].
Qed.

(** The loop of [delete], with [k] visible characters still to skip and
    [r] characters still to tombstone: it tombstones the next [r] visible
    characters after the [k] skipped ones, and emits them. *)
Lemma delete_loop_spec position length origin l : ∀ s deleted currentPos,
  NoDup (char_ref <$> l) →
  let k := Z.to_nat (position - currentPos) in
  let r := Z.to_nat (length - deleted) in
  let vis := filter (visible s) l in
  let T := take r (drop k vis) in
  let res := delete_loop s l position length origin deleted currentPos in
  res.1 = tombstone_all T s ∧
  res.2 = (λ c, mkOp "delete" c origin) <$> T ∧
  filter (visible res.1) l = take k vis ++ drop (k + r) vis.
Proof.
  induction l as [|c l IH]; intros s deleted currentPos Hnd; simpl.
  { rewrite filter_nil, drop_nil, !take_nil. simpl.
    by rewrite tombstone_all_nil, drop_nil. }
  rewrite fmap_cons in Hnd. apply NoDup_cons in Hnd as [Hc Hnd].
  destruct (deleted <? length) eqn:Hd.
  2:{ apply Z.ltb_ge in Hd.
      replace (Z.to_nat (length - deleted)) with 0%nat by lia.
      simpl. rewrite tombstone_all_nil, Nat.add_0_r, take_drop. done. }
  apply Z.ltb_lt in Hd. rewrite !(filter_visible_cons s).
  destruct (char_deleted s c) eqn:Hcd.
  { specialize (IH s deleted currentPos Hnd). cbv zeta in IH.
    destruct IH as (IH1 & IH2 & IH3). split; [done|]. split; [done|].
    rewrite filter_visible_cons.
    assert (char_deleted
              (delete_loop s l position length origin deleted currentPos).1 c
            = true) as ->; [|done].
    rewrite IH1. apply char_deleted_tombstone_all. by right. }
  destruct (position <=? currentPos) eqn:Hp.
  - apply Z.leb_le in Hp.
    specialize (IH (set_deleted true c s) (deleted + 1) (currentPos + 1) Hnd).
    cbv zeta in IH.
    assert (filter (visible (set_deleted true c s)) l = filter (visible s) l)
      as Hframe.
    { apply filter_visible_ext, Forall_forall. intros x Hx.
      rewrite char_deleted_set_true, bool_decide_eq_false_2; [done|].
      intros E. apply Hc. rewrite <- E. apply list_elem_of_fmap. eauto. }
    rewrite Hframe in IH.
    replace (Z.to_nat (position - (currentPos + 1))) with 0%nat in IH by lia.
    replace (Z.to_nat (position - currentPos)) with 0%nat by lia.
    replace (Z.to_nat (length - deleted))
      with (S (Z.to_nat (length - (deleted + 1)))) by lia.
    destruct (delete_loop (set_deleted true c s) l position length origin
                (deleted + 1) (currentPos + 1)) as [s' ops].
    simpl in *. rewrite !drop_0 in *. destruct IH as (-> & -> & IH3).
    split; [apply tombstone_all_cons|]. split; [done|].
    rewrite filter_visible_cons.
    assert (char_deleted
              (tombstone_all (take (Z.to_nat (length - (deleted + 1)))
                                   (filter (visible s) l))
                             (set_deleted true c s)) c = true) as ->; [|done].
    apply char_deleted_tombstone_all. right.
    rewrite char_deleted_set_true, bool_decide_eq_true_2; done.
  - apply Z.leb_gt in Hp.
    specialize (IH s deleted (currentPos + 1) Hnd). cbv zeta in IH.
    replace (Z.to_nat (position - currentPos))
      with (S (Z.to_nat (position - (currentPos + 1)))) by lia.
    simpl. destruct IH as (IH1 & IH2 & IH3). split; [done|]. split; [done|].
    rewrite filter_visible_cons, IH3.
    assert (char_deleted
              (delete_loop s l position length origin deleted (currentPos + 1)).1
              c = false) as ->; [|done].
    rewrite IH1. apply not_true_iff_false. intros H.
    apply char_deleted_tombstone_all in H as [H|H]; [|congruence].
    apply Hc. apply list_elem_of_fmap in H as (x & -> & Hx).
    apply list_elem_of_fmap. exists x. split; [done|].
    by eapply elem_of_take_drop_filter.
Qed.

Lemma delete_unfold s d position length origin :
  let res := delete_loop s (content d) position length origin 0 0 in
  (delete s d position length origin).1.1 = res.1 ∧
  content (delete s d position length origin).1.2 = content d ∧
  (delete s d position length origin).2 = res.2.
Proof.
  unfold delete.
  destruct (delete_loop s (content d) position length origin 0 0) as [s1 ops].
  by destruct (decide (origin = "local")).
Qed.

(** C7, as the code has it.  On a replica that holds each character object
    once, [delete(position, length)] walks the visible characters from
    visible position [position] (a negative position counts as 0),
    tombstones them until [length] are tombstoned or the store ends, that
    is [min length (visible - position)] of them, and returns one delete
    operation per tombstoned character, in order; afterwards the visible
    text is the old one without the range [position, position + length). *)
Theorem delete_removes_range s d position length origin :
  NoDup (char_ref <$> content d) →
  let p := Z.to_nat position in
  let n := Z.to_nat length in
  let old := filter (visible s) (content d) in
  let s' := (delete s d position length origin).1.1 in
  let d' := (delete s d position length origin).1.2 in
  let ops := (delete s d position length origin).2 in
  ops = (λ c, mkOp "delete" c origin) <$> take n (drop p old) ∧
  List.length ops = (n `min` (List.length old - p))%nat ∧
  s' = tombstone_all (take n (drop p old)) s ∧
  content d' = content d ∧
  List.length (filter (visible s') (content d')) =
    (List.length old - List.length ops)%nat ∧
  getText s' d' =
    string_of_list_ascii
      (take p (visibleValues s (content d)) ++
       drop (p + n) (visibleValues s (content d))).
Proof.
  intros Hnd p n old s' d' ops. subst s' d' ops.
  destruct (delete_unfold s d position length origin) as (-> & Hcont & ->).
  unfold getText. rewrite Hcont.
  pose proof (delete_loop_spec position length origin (content d) s 0 0 Hnd)
    as H.
  cbv zeta in H. rewrite !Z.sub_0_r in H. fold p n old in H.
  destruct H as (Hs & Ho & Hv).
  assert (List.length
            (delete_loop s (content d) position length origin 0 0).2 =
          (n `min` (List.length old - p))%nat) as Hlen.
  { rewrite Ho, length_fmap, length_take, length_drop. done. }
  split; [done|]. split; [done|]. split; [done|]. split; [done|]. split.
  - rewrite Hv, Hlen, length_app, length_take, length_drop. lia.
  - unfold visibleValues. rewrite Hv. fold old.
    by rewrite fmap_app, fmap_take, fmap_drop.
Qed.

(** ** [insert]: identifiers, clocks and placement *)

Lemma insert_loop_ops s d position origin text i :
  let clock0 := default 0 (vectorClock d !! clientId d) in
  let res := insert_loop s d position origin text i in
  res.2 = emitted (clientId d) origin position clock0 (next_ref s) text i ∧
  default 0 (vectorClock res.1.2 !! clientId d) =
    clock0 + Z.of_nat (String.length text) ∧
  next_ref res.1.1 = (next_ref s + String.length text)%nat.
Proof.
  revert s d i. induction text as [|u rest IH]; intros s d i; simpl.
  { split; [done|]. split; lia. }
  match goal with |- context [insert_loop ?s1 ?d1 _ _ _ _] =>
    specialize (IH s1 d1 (i + 1));
    destruct (insert_loop s1 d1 position origin rest (i + 1)) as [[s2 d2] ops]
  end.
  simpl in *. rewrite lookup_insert_eq in IH. simpl in IH.
  destruct IH as (-> & -> & ->). split; [done|]. split; lia.
Qed.

Lemma emitted_length cid origin position clock0 ref0 text i :
  List.length (emitted cid origin position clock0 ref0 text i) =
  String.length text.
Proof.
  revert clock0 ref0 i. induction text as [|u rest IH]; intros; simpl; [done|].
  by rewrite IH.
Qed.

Lemma emitted_values cid origin position clock0 ref0 text i :
  char_value <$> (op_char <$> emitted cid origin position clock0 ref0 text i) =
  list_ascii_of_string text.
Proof.
  revert clock0 ref0 i. induction text as [|u rest IH]; intros; simpl; [done|].
  by rewrite IH.
Qed.


Lemma insertIndex_loop_reached s l target k :
  Z.of_nat k = target → insertIndex_loop s l target k = k.
Proof.
  intros <-. induction l as [|c l IH]; simpl; [done|].
  destruct (char_deleted s c); [done|]. by rewrite Z.eqb_refl.
Qed.

Lemma insertIndex_loop_visible_prefix s vis rest target k :
  Forall (visible s) vis → Z.of_nat (k + List.length vis) ≤ target →
  insertIndex_loop s (vis ++ rest) target k =
  insertIndex_loop s rest target (k + List.length vis).
Proof.
  intros Hvis. revert k. induction Hvis as [|c vis Hc _ IH]; intros k Hk; simpl.
  { by rewrite Nat.add_0_r. }
  simpl in Hk. rewrite Hc.
  destruct (Z.of_nat k =? target) eqn:E; [apply Z.eqb_eq in E; lia|].
  rewrite IH by lia. f_equal. lia.
Qed.

Lemma new_object_flags s c :
  char_deleted (new_object s).2 c =
  char_deleted s c && negb (bool_decide (char_ref c = next_ref s)).
Proof.
  unfold char_deleted, new_object. simpl. apply eq_true_iff_eq.
  rewrite andb_true_iff, negb_true_iff, bool_decide_eq_false,
    !bool_decide_eq_true.
  by rewrite elem_of_difference, elem_of_singleton.
Qed.

Lemma new_object_visible s c : visible s c → visible (new_object s).2 c.
Proof. unfold visible. rewrite new_object_flags. by intros ->. Qed.

(** Creating objects does not touch the flags of the objects that exist. *)
Lemma insert_loop_flags text : ∀ s d position origin i c,
  (char_ref c < next_ref s)%nat →
  char_deleted (insert_loop s d position origin text i).1.1 c =
  char_deleted s c.
Proof.
  induction text as [|u rest IH]; intros s d position origin i c Hc; simpl;
    [done|].
  match goal with |- context [insert_loop ?s1 ?d1 _ _ _ _] =>
    specialize (IH s1 d1 position origin (i + 1) c);
    destruct (insert_loop s1 d1 position origin rest (i + 1)) as [[s2 d2] ops]
  end.
  simpl in *. rewrite IH by lia.
  change (mkStore (S (next_ref s)) (tombstoned s ∖ {[next_ref s]}))
    with (new_object s).2.
  rewrite new_object_flags, bool_decide_eq_false_2 by lia.
  by rewrite andb_true_r.
Qed.

(** Where the first [n] characters of [content] are visible, visible
    position [n] is index [n], and the loop of [insert] puts the new
    characters there, in order and visible. *)
Lemma insert_loop_content text : ∀ s d position origin i,
  0 ≤ position + i →
  let n := Z.to_nat (position + i) in
  (n ≤ List.length (content d))%nat →
  Forall (visible s) (take n (content d)) →
  let res := insert_loop s d position origin text i in
  content res.1.2 =
    take n (content d) ++ (op_char <$> res.2) ++ drop n (content d) ∧
  Forall (visible res.1.1) (op_char <$> res.2).
Proof.
  induction text as [|u rest IH]; intros s d position origin i Hpos n Hn Hvis;
    simpl.
  { by rewrite take_drop. }
  set (s1 := mkStore (S (next_ref s)) (tombstoned s ∖ {[next_ref s]})).
  assert (s1 = (new_object s).2) as Hs1 by done.
  assert (Forall (visible s1) (take n (content d))) as Hvis1.
  { eapply Forall_impl; [exact Hvis|]. intros c. rewrite Hs1.
    apply new_object_visible. }
  assert (insertIndex_loop s1 (content d) (position + i) 0 = n) as Hidx.
  { rewrite <- (take_drop n (content d)) at 1.
    rewrite insertIndex_loop_visible_prefix; [|done|rewrite length_take; lia].
    rewrite length_take.
    replace (0 + n `min` List.length (content d))%nat with n by lia.
    apply insertIndex_loop_reached. lia. }
  rewrite Hidx.
  set (char := mkChar (next_ref s)
                 (make_id (clientId d)
                    (default 0 (vectorClock d !! clientId d) + 1)) u
                 (clientId d) (default 0 (vectorClock d !! clientId d) + 1)
                 (position + i)).
  assert (visible s1 char) as Hchar.
  { unfold visible. rewrite Hs1, new_object_flags. simpl.
    rewrite bool_decide_eq_true_2 by done. apply andb_false_r. }
  match goal with |- context [insert_loop s1 ?d1 _ _ _ _] =>
    specialize (IH s1 d1 position origin (i + 1)); set (d1' := d1) in *
  end.
  assert (Z.to_nat (position + (i + 1)) = S n) as Hn' by lia.
  cbv zeta in IH. rewrite Hn' in IH.
  assert (take (S n) (content d1') = take n (content d) ++ [char]) as Htake.
  { subst d1'. simpl. unfold splice.
    rewrite take_app_ge by (rewrite length_take; lia).
    rewrite length_take.
    replace (S n - n `min` List.length (content d))%nat with 1%nat by lia.
    done. }
  assert (drop (S n) (content d1') = drop n (content d)) as Hdrop.
  { subst d1'. simpl. unfold splice.
    rewrite drop_app_ge by (rewrite length_take; lia).
    rewrite length_take.
    replace (S n - n `min` List.length (content d))%nat with 1%nat by lia.
    done. }
  rewrite Htake, Hdrop in IH.
  pose proof (insert_loop_flags rest s1 d1' position origin (i + 1) char) as Hfl.
  destruct (insert_loop s1 d1' position origin rest (i + 1)) as [[s2 d2] ops].
  simpl in *. destruct IH as [IH1 IH2].
  - lia.
  - subst d1'. simpl. unfold splice. rewrite length_app, length_take. simpl.
    rewrite length_drop. lia.
  - apply Forall_app. split; [done|]. by constructor.
  - split; [by rewrite IH1, <- app_assoc|].
    constructor; [|done]. unfold visible. rewrite Hfl; [done|]. simpl. lia.
Qed.

Lemma insert_unfold s d position text origin :
  let res := insert_loop s d position origin text 0 in
  (insert s d position text origin).1.1 = res.1.1 ∧
  content (insert s d position text origin).1.2 = content res.1.2 ∧
  vectorClock (insert s d position text origin).1.2 = vectorClock res.1.2 ∧
  (insert s d position text origin).2 = res.2.
Proof.
  unfold insert.
  destruct (insert_loop s d position origin text 0) as [[s1 d1] ops].
  by destruct (decide (origin = "local")).
Qed.


(** Where no tombstone precedes the insertion point in [content] (always so
    at position 0), the text lands at the visible position asked for. *)
Lemma insert_at_visible_position s d position text origin :
  0 ≤ position →
  let p := Z.to_nat position in
  (p ≤ List.length (content d))%nat →
  Forall (visible s) (take p (content d)) →
  Forall (λ c, (char_ref c < next_ref s)%nat) (content d) →
  let res := insert s d position text origin in
  getText res.1.1 res.1.2 =
  string_of_list_ascii
    (take p (visibleValues s (content d)) ++ list_ascii_of_string text ++
     drop p (visibleValues s (content d))).
Proof.
  intros Hpos p Hp Hvis Hwf res. subst res. unfold getText.
  destruct (insert_unfold s d position text origin) as (-> & -> & _ & _).
  pose proof (insert_loop_content text s d position origin 0) as H.
  cbv zeta in H. rewrite Z.add_0_r in H. fold p in H.
  destruct H as [Hc Hnew]; [done..|].
  pose proof (insert_loop_ops s d position origin text 0) as (Hops & _).
  assert (∀ l, l ⊆ content d →
            visibleValues (insert_loop s d position origin text 0).1.1 l =
            visibleValues s l) as Hold.
  { intros l Hl. unfold visibleValues. f_equal.
    apply filter_visible_ext, Forall_forall. intros c Hc'.
    apply insert_loop_flags. rewrite Forall_forall in Hwf. by apply Hwf, Hl. }
  rewrite Hc, !visibleValues_app.
  rewrite (visibleValues_all_visible _ (op_char <$> _)) by done.
  rewrite Hops, emitted_values.
  rewrite !Hold by (apply subseteq_take || apply subseteq_drop).
  rewrite <- (take_drop p (content d)) at 3 4.
  rewrite visibleValues_app.
  rewrite (visibleValues_all_visible _ (take p _)) by done.
  rewrite take_app_length', drop_app_length';
    rewrite ?length_fmap, ?length_take; try lia.
  done.
Qed.

(** C3, the defect.  [insert] counts visible characters to find the
    insertion point but then uses that count as an index into [content],
    tombstones included.  After "ab" is typed and "a" deleted, the visible
    text is "b"; [insert(1, "x")] should give "bx" and gives "xb". *)
Theorem insert_after_tombstone_is_misplaced :
  let '(s1, d1, _) := insert empty_store (new_SimpleYDoc "p") 0 "ab" "local" in
  let '(s2, d2, _) := delete s1 d1 0 1 "local" in
  let '(s3, d3, _) := insert s2 d2 1 "x" "local" in
  getText s2 d2 = "b" ∧ getText s3 d3 = "xb" ∧ getText s3 d3 ≠ "bx".
Proof. vm_compute. repeat split; done. Qed.

(** ** [undo] *)

Lemma undo_empty_stack s d : undoStack d = [] → undo s d = (s, d).
Proof. intros H. unfold undo. by rewrite H. Qed.

Lemma insert_undoStack_local s d position text :
  undoStack (insert s d position text "local").1.2 =
  undoStack d ++ [EInsert text position (Z.of_nat (String.length text)) false].
Proof.
  unfold insert.
  pose proof (insert_loop_stacks s d position "local" text 0) as (Hu & _).
  destruct (insert_loop s d position "local" text 0) as [[s1 d1] ops].
  simpl in *. by rewrite Hu.
Qed.

Lemma undo_of_insert_unfold s d position text :
  let r := insert s d position text "local" in
  let u := undo r.1.1 r.1.2 in
  u.1 = (delete_loop r.1.1 (content r.1.2) position
           (Z.of_nat (String.length text)) "undo" 0 0).1 ∧
  content u.2 = content r.1.2.
Proof.
  intros r u. subst u r. unfold undo.
  rewrite insert_undoStack_local, pop_snoc.
  unfold delete. simpl.
  destruct (delete_loop _ _ position
              (Z.of_nat (String.length text)) "undo" 0 0) as [s2 ops].
  done.
Qed.

Lemma emitted_refs cid origin position clock0 ref0 text i :
  char_ref <$> (op_char <$> emitted cid origin position clock0 ref0 text i) =
  seq ref0 (String.length text).
Proof.
  revert clock0 ref0 i. induction text as [|u rest IH]; intros; simpl; [done|].
  by rewrite IH.
Qed.

(** Where [insert] places the text at the visible position asked for (no
    tombstone before the insertion point, as at position 0), an immediate
    [undo] gives the previous visible text back. *)
Lemma undo_of_insert_restores_text s d position text :
  0 ≤ position →
  let p := Z.to_nat position in
  (p ≤ List.length (content d))%nat →
  Forall (visible s) (take p (content d)) →
  store_wf s (content d) →
  let r := insert s d position text "local" in
  let u := undo r.1.1 r.1.2 in
  getText u.1 u.2 = getText s d.
Proof.
  intros Hpos p Hp Hvis [Hnd Hwf] r u.
  pose proof (insert_at_visible_position s d position text "local" Hpos Hp
                Hvis Hwf) as Hins.
  cbv zeta in Hins. fold r in Hins.
  destruct (undo_of_insert_unfold s d position text) as [Hu1 Hu2].
  fold r in Hu1, Hu2. fold u in Hu1, Hu2.
  unfold getText in *. apply (f_equal list_ascii_of_string) in Hins.
  rewrite !list_ascii_of_string_of_list_ascii in Hins. fold p in Hins.
  rewrite Hu1, Hu2. f_equal.
  assert (NoDup (char_ref <$> content r.1.2)) as Hnd'.
  { destruct (insert_unfold s d position text "local") as (_ & Hc & _ & _).
    fold r in Hc. rewrite Hc.
    pose proof (insert_loop_content text s d position "local" 0) as H.
    cbv zeta in H. rewrite Z.add_0_r in H. fold p in H.
    destruct H as [-> _]; [done..|].
    pose proof (insert_loop_ops s d position "local" text 0) as (-> & _).
    rewrite !fmap_app, emitted_refs.
    rewrite (Permutation_app_comm (seq _ _)), app_assoc.
    rewrite <- fmap_app, take_drop. apply NoDup_app.
    split; [done|]. split; [|apply NoDup_seq].
    intros x Hx Hx'. apply list_elem_of_fmap in Hx as (c & -> & Hc').
    rewrite Forall_forall in Hwf. specialize (Hwf c Hc').
    apply elem_of_seq in Hx'. lia. }
  pose proof (delete_loop_spec position (Z.of_nat (String.length text)) "undo"
                (content r.1.2) r.1.1 0 0 Hnd') as (_ & _ & Hv).
  rewrite !Z.sub_0_r in Hv. fold p in Hv.
  unfold visibleValues at 1. rewrite Hv, fmap_app, fmap_take, fmap_drop.
  fold (visibleValues r.1.1 (content r.1.2)). rewrite Hins.
  assert (List.length (take p (visibleValues s (content d))) = p) as Hlen.
  { rewrite <- (take_drop p (content d)), visibleValues_app.
    rewrite (visibleValues_all_visible _ (take p _)) by done.
    rewrite take_app_length'; rewrite length_fmap, length_take; lia. }
  assert (List.length (list_ascii_of_string text) = String.length text) as Ht.
  { clear. induction text as [|a t IH]; simpl; [done|]. by rewrite IH. }
  rewrite take_app_length' by done.
  rewrite drop_app_ge by lia. rewrite Hlen.
  rewrite drop_app_ge by lia.
  replace (p + Z.to_nat (Z.of_nat (String.length text)) - p -
           List.length (list_ascii_of_string text))%nat with 0%nat by lia.
  rewrite drop_0. apply take_drop.
Qed.

(** The spec's own scenario, [insert(0, text)] then [undo()], in every
    state that holds each character object once. *)
Lemma undo_of_insert_at_0_restores_text s d text :
  store_wf s (content d) →
  let r := insert s d 0 text "local" in
  let u := undo r.1.1 r.1.2 in
  getText u.1 u.2 = getText s d.
Proof.
  intros Hwf. apply undo_of_insert_restores_text; [lia|simpl; lia| |done].
  simpl. rewrite take_0. constructor.
Qed.

(** C6, the defect.  After "ab" is typed and "a" deleted, the visible text
    is "b".  [insert(1, "x")] puts "x" in front of "b" (the misplacement of
    [insert]), and the [undo] that follows tombstones the character at
    visible position 1, which is "b": the text is "x", not "b" again. *)
Theorem undo_after_misplaced_insert_loses_text :
  let '(s1, d1, _) := insert empty_store (new_SimpleYDoc "p") 0 "ab" "local" in
  let '(s2, d2, _) := delete s1 d1 0 1 "local" in
  let '(s3, d3, _) := insert s2 d2 1 "x" "local" in
  let '(s4, d4) := undo s3 d3 in
  getText s2 d2 = "b" ∧ getText s4 d4 = "x" ∧ getText s4 d4 ≠ getText s2 d2.
Proof. vm_compute. repeat split; done. Qed.

(** C4, the defect.  [undo] of an insert deletes by visible position, not
    by character id.  After [client-b] typed "X" and [client-a] typed "Y"
    and both merged, both read "YX".  [undo] on the replica of [client-b]
    tombstones the character at position 0, which is the "Y" of
    [client-a]: "X" stays, and since the object is shared "Y" is gone from
    the replica of [client-a] too.  With the client ids the other way
    round the merged text is "XY" and the same [undo] happens to remove the
    right character. *)
Theorem undo_removes_the_other_participants_text :
  undo_after_merge "client-b" "client-a" = (("YX", "YX"), ("X", "X")) ∧
  (undo_after_merge "client-b" "client-a").2.1 ≠ "Y" ∧
  undo_after_merge "client-a" "client-b" = (("XY", "XY"), ("Y", "Y")).
Proof. vm_compute. repeat split; done. Qed.
(** ** The relay server: updates need a joined document *)

Section ServerProperties.
Context {YDoc : Type}.
Variable Y_new : YDoc.
Variable Y_applyUpdate : YDoc → list Z → option (YDoc * option (list Z)).
Variable Y_encodeStateAsUpdate : YDoc → list Z.
Variable Y_textLength : YDoc → Z.

Lemma broadcastUpdate_frame dm update origin (s : @Server YDoc) :
  let s' := broadcastUpdate dm update origin s in
  documents s' = documents s ∧ connections s' = connections s ∧
  files s' = files s ∧
  ∀ m, m ∈ sent s' →
       m ∈ sent s ∨
       ∃ c, m = (c, MsgUpdate update (dm_docId dm)) ∧ c ≠ origin ∧
            c ∈ dm_clients dm.
Proof.
  unfold broadcastUpdate.
  induction (dm_clients dm) as [|c l IH] using rev_ind; simpl.
  { repeat split; auto. }
  rewrite foldl_app. simpl.
  set (s1 := foldl _ s l) in *. destruct IH as (Hd & Hc & Hf & Hs).
  assert (∀ m, m ∈ sent s1 →
            m ∈ sent s ∨
            ∃ c0, m = (c0, MsgUpdate update (dm_docId dm)) ∧ c0 ≠ origin ∧
                  c0 ∈ l ++ [c]) as Hs'.
  { intros m Hm. destruct (Hs m Hm) as [?|(c0 & ? & ? & ?)]; [by left|].
    right. exists c0. repeat split; try done. apply elem_of_app. by left. }
  destruct (decide (c ≠ origin)) as [Hne|]; [|done].
  destruct (connections s1 !! c) as [ws|]; [|done].
  destruct (readyState ws =? 1); [|done].
  simpl. repeat split; try done.
  intros m Hm. apply elem_of_app in Hm as [Hm|Hm]; [by apply Hs'|].
  apply list_elem_of_singleton in Hm. subst m. right. exists c.
  repeat split; try done. apply elem_of_app. right. by left.
Qed.

Lemma handleUpdate_wf w message s :
  server_wf s →
  server_wf (handleUpdate Y_applyUpdate Y_encodeStateAsUpdate w message s).
Proof.
  intros [Hd Hc]. unfold handleUpdate.
  destruct (connections s !! w) as [ws|]; [|done].
  destruct (negb _ || negb _); [done|].
  destruct (msg_docId message) as [docId|]; [|done].
  destruct (documents s !! docId) as [dm|] eqn:Hdm; [|done].
  unfold dm_applyUpdate.
  destruct (Y_applyUpdate (dm_doc dm) (msg_update message)) as [[doc' ev]|];
    [|done].
  assert (server_wf
            (set_documents
               (<[dm_docId dm:=mkManager (dm_docId dm) doc' (dm_clients dm)]>
                  (documents s)) s)) as Hwf.
  { split; simpl; [|done]. by apply map_Forall_insert_2. }
  destruct ev as [u|]; [|done].
  match goal with |- server_wf (broadcastUpdate ?a ?b ?c ?d) =>
    pose proof (broadcastUpdate_frame a b c d) as (H1 & H2 & _)
  end.
  unfold server_wf. rewrite H1, H2. simpl. by destruct Hwf.
Qed.

Lemma handleJoin_wf w message s :
  server_wf s →
  server_wf (handleJoin Y_new Y_encodeStateAsUpdate Y_textLength
               w message s).
Proof.
  intros [Hd Hc]. unfold handleJoin.
  destruct (connections s !! w) as [ws|]; [|done].
  destruct (msg_docId message) as [docId|]; [|done].
  destruct (truthy (Some docId)) eqn:Ht; [|done].
  simpl in Ht. apply negb_true_iff, bool_decide_eq_false in Ht.
  set (s1 := match currentDoc ws with Some _ => _ | None => _ end).
  assert (server_wf s1) as [Hd1 Hc1].
  { subst s1. destruct (currentDoc ws) as [old|]; [|done].
    destruct (truthy (Some old)); [|done].
    destruct (documents s !! old) as [oldDoc|]; [|done].
    unfold removeClient.
    destruct (filter _ (dm_clients oldDoc)); split; simpl; try done.
    - by apply map_Forall_delete.
    - by apply map_Forall_insert_2. }
  clearbody s1.
  unfold getDocument. simpl.
  destruct (documents s1 !! docId) as [dm|] eqn:Hdm; simpl.
  - split; simpl.
    + by apply map_Forall_insert_2.
    + apply map_Forall_insert_2; [simpl; congruence|done].
  - split; simpl.
    + apply map_Forall_insert_2; [done|]. by apply map_Forall_insert_2.
    + apply map_Forall_insert_2; [simpl; congruence|done].
Qed.

(** C9.  An update from a connection that has joined no document, or a
    document other than the one the message names, is answered with the
    error "Not in document" to that connection only; nothing is merged
    and the documents and their files stay as they were.  An update from a
    connection that has joined the named document is handed to that
    document's manager, which merges it into the canonical [Y.Doc];
    whatever is sent then goes to other connections. *)
Theorem update_requires_joined_document w message (s : @Server YDoc) ws :
  server_wf s →
  connections s !! w = Some ws →
  let s' := handleUpdate Y_applyUpdate Y_encodeStateAsUpdate w message s in
  (currentDoc ws = None ∨ currentDoc ws ≠ msg_docId message →
     s' = send w (MsgError "Not in document") s ∧
     documents s' = documents s ∧ files s' = files s ∧
     sent s' = sent s ++ [(w, MsgError "Not in document")]) ∧
  (∀ docId dm,
     currentDoc ws = Some docId → msg_docId message = Some docId →
     documents s !! docId = Some dm →
     s' = dm_applyUpdate Y_applyUpdate Y_encodeStateAsUpdate dm
            (msg_update message) w s ∧
     match Y_applyUpdate (dm_doc dm) (msg_update message) with
     | Some (doc', _) =>
         documents s' !! docId = Some (mkManager docId doc' (dm_clients dm))
     | None => s' = s
     end ∧
     ∀ m, m ∈ sent s' → m ∈ sent s ∨ ∃ c u, m = (c, MsgUpdate u docId) ∧ c ≠ w).
Proof.
  intros [Hd Hc] Hw s'. subst s'. unfold handleUpdate. rewrite Hw.
  split.
  - intros Hcase.
    assert (negb (truthy (currentDoc ws))
            || negb (bool_decide (currentDoc ws = msg_docId message)) = true)
      as ->; [|done].
    destruct Hcase as [->|Hne]; [done|].
    apply orb_true_iff. right. by rewrite bool_decide_eq_false_2.
  - intros docId dm Hcur Hmsg Hdm.
    assert (docId ≠ "") as Hne.
    { intros ->. by apply (Hc _ _ Hw). }
    rewrite Hcur, Hmsg. simpl.
    rewrite (bool_decide_eq_false_2 _ Hne), bool_decide_eq_true_2 by done.
    simpl. rewrite Hdm. split; [done|].
    pose proof (Hd _ _ Hdm) as Hid. simpl in Hid.
    destruct dm as [did doc clients]. simpl in *. subst did.
    unfold dm_applyUpdate. simpl.
    destruct (Y_applyUpdate doc (msg_update message)) as [[doc' ev]|];
      [|by split; [|auto]].
    destruct ev as [u|].
    + match goal with |- context [broadcastUpdate ?a ?b ?c ?d] =>
        pose proof (broadcastUpdate_frame a b c d) as (H1 & _ & _ & H4)
      end.
      cbv zeta in H1, H4. rewrite H1. simpl. rewrite lookup_insert_eq.
      split; [done|]. intros m Hm.
      destruct (H4 m Hm) as [?|(c & -> & ? & _)]; [by left|].
      right. by exists c, u.
    + simpl. rewrite lookup_insert_eq. split; [done|]. auto.
Qed.
End ServerProperties.

(** ** [applyRemoteOps]: what a step does *)

Lemma NoDup_ids_eq (l : list Char) c1 c2 :
  NoDup (char_id <$> l) → c1 ∈ l → c2 ∈ l → char_id c1 = char_id c2 → c1 = c2.
Proof.
  intros Hnd H1 H2 Hid.
  apply list_elem_of_lookup in H1 as [i Hi]. apply list_elem_of_lookup in H2 as [j Hj].
  assert (i = j) as ->; [|congruence].
  eapply NoDup_lookup; [exact Hnd| |].
  - rewrite list_lookup_fmap, Hi. done.
  - rewrite list_lookup_fmap, Hj. simpl. by rewrite Hid.
Qed.

Section MergeProperties.
Variable localeCompare : string → string → Z.

Local Abbreviation step := (applyRemoteOp localeCompare).
Local Abbreviation run := (applyRemoteOps localeCompare).
Local Abbreviation ids d := (char_id <$> content d).

Lemma run_nil s d : run s d [] = (s, d).
Proof. done. Qed.

Lemma run_cons s d op ops :
  run s d (op :: ops) = run (step (s, d) op).1 (step (s, d) op).2 ops.
Proof.
  unfold applyRemoteOps. cbn [foldl]. by destruct (step (s, d) op).
Qed.

(** The three ways a step can go: a new character is merged into
    [content], the character of a known id is tombstoned, or nothing
    happens. *)
Lemma step_cases s d op :
  (op_type op = "insert" ∧ (char_id (op_char op) ∉ ids d) ∧
   (step (s, d) op).1 = s ∧
   clientId (step (s, d) op).2 = clientId d ∧
   content (step (s, d) op).2 =
     js_sort (compareChars localeCompare) (content d ++ [op_char op])) ∨
  (op_type op = "delete" ∧
   ∃ c, c ∈ content d ∧ char_id c = char_id (op_char op) ∧
        step (s, d) op = (set_deleted true c s, d)) ∨
  (step (s, d) op = (s, d) ∧
   (op_type op = "insert" → char_id (op_char op) ∈ ids d) ∧
   (op_type op = "delete" → char_id (op_char op) ∉ ids d)).
Proof.
  destruct (decide (op_type op = "insert")) as [Hi|Hi].
  - destruct (decide (char_id (op_char op) ∈ ids d)) as [Hk|Hk].
    + right. right. rewrite applyRemoteOp_insert_known by done.
      split; [done|]. split; [done|]. intros Hd. congruence.
    + left. rewrite applyRemoteOp_insert_new by done. done.
  - destruct (decide (op_type op = "delete")) as [Hd|Hd].
    + rewrite applyRemoteOp_delete by done.
      destruct (decide (char_id (op_char op) ∈ ids d)) as [Hk|Hk].
      * right. left. split; [done|].
        destruct (find_some_id _ _ Hk) as (c & -> & Hc & Hid). by exists c.
      * right. right. rewrite find_none_id by done. done.
    + right. right. rewrite applyRemoteOp_other by done. done.
Qed.

Lemma step_store s d op :
  next_ref (step (s, d) op).1 = next_ref s ∧
  tombstoned s ⊆ tombstoned (step (s, d) op).1.
Proof.
  destruct (step_cases s d op)
    as [(_ & _ & -> & _)|[(_ & c & _ & _ & ->)|(-> & _)]]; simpl; try done.
  split; [done|]. apply union_subseteq_r.
Qed.

Lemma step_content s d op c :
  c ∈ content (step (s, d) op).2 ↔
  c ∈ content d ∨
  (op_type op = "insert" ∧ (char_id (op_char op) ∉ ids d) ∧ c = op_char op).
Proof.
  destruct (step_cases s d op)
    as [(Hi & Hn & _ & _ & ->)|[(Hd & c' & _ & _ & ->)|(-> & Hk & _)]]; simpl.
  - rewrite js_sort_perm, elem_of_app, list_elem_of_singleton.
    split; [intros [?|?]; auto|intros [?|(_ & _ & ?)]; auto].
  - split; [by left|]. intros [?|(Hi & _)]; [done|congruence].
  - split; [by left|]. intros [?|(Hi & Hn & _)]; [done|]. by destruct Hn; auto.
Qed.

Lemma step_ids s d op x :
  x ∈ ids (step (s, d) op).2 ↔
  x ∈ ids d ∨ (op_type op = "insert" ∧ x = char_id (op_char op)).
Proof.
  rewrite !list_elem_of_fmap. setoid_rewrite step_content. split.
  - intros (c & -> & [Hc|(Hi & _ & ->)]); [left; eauto|by right].
  - intros [(c & -> & Hc)|(Hi & ->)]; [by eauto|].
    destruct (decide (char_id (op_char op) ∈ ids d)) as [Hk|Hk].
    + apply list_elem_of_fmap in Hk as (c & Hid & Hc). exists c. by eauto.
    + exists (op_char op). by eauto 10.
Qed.

Lemma step_NoDup s d op : NoDup (ids d) → NoDup (ids (step (s, d) op).2).
Proof.
  intros Hnd. destruct (step_cases s d op)
    as [(_ & Hn & _ & _ & ->)|[(_ & c & _ & _ & ->)|(-> & _)]]; simpl; try done.
  rewrite js_sort_perm, fmap_app. simpl. apply NoDup_app. split; [done|].
  split; [|apply NoDup_singleton].
  intros x Hx Hx'. apply list_elem_of_singleton in Hx'. by subst x.
Qed.

Lemma run_store ops : ∀ s d,
  next_ref (run s d ops).1 = next_ref s ∧
  tombstoned s ⊆ tombstoned (run s d ops).1.
Proof.
  induction ops as [|op ops IH]; intros s d; [done|].
  rewrite run_cons. destruct (IH (step (s, d) op).1 (step (s, d) op).2) as [-> H].
  destruct (step_store s d op) as [-> H']. split; [done|]. by etrans.
Qed.

Lemma run_deleted_mono ops s d c :
  char_deleted s c = true → char_deleted (run s d ops).1 c = true.
Proof.
  rewrite !char_deleted_true. destruct (run_store ops s d) as [_ H]. apply H.
Qed.

Lemma run_NoDup ops : ∀ s d, NoDup (ids d) → NoDup (ids (run s d ops).2).
Proof.
  induction ops as [|op ops IH]; intros s d Hnd; [done|].
  rewrite run_cons. by apply IH, step_NoDup.
Qed.

Lemma run_content_mono ops : ∀ s d c,
  c ∈ content d → c ∈ content (run s d ops).2.
Proof.
  induction ops as [|op ops IH]; intros s d c Hc; [done|].
  rewrite run_cons. apply IH, step_content. by left.
Qed.

Lemma run_ids_mono ops s d x : x ∈ ids d → x ∈ ids (run s d ops).2.
Proof.
  rewrite !list_elem_of_fmap. intros (c & -> & Hc). exists c.
  split; [done|]. by apply run_content_mono.
Qed.

(** Every character a run adds is the character of one of its inserts. *)
Lemma run_content_origin ops : ∀ s d c,
  c ∈ content (run s d ops).2 →
  c ∈ content d ∨ ∃ op, op ∈ ops ∧ op_type op = "insert" ∧ c = op_char op.
Proof.
  induction ops as [|op ops IH]; intros s d c Hc; [by left|].
  rewrite run_cons in Hc. apply IH in Hc as [Hc|(op' & ? & ? & ?)].
  - apply step_content in Hc as [?|(? & _ & ?)]; [by left|].
    right. exists op. split; [by left|done].
  - right. exists op'. split; [by right|done].
Qed.

(** Every id a run is asked to insert is in the replica afterwards. *)
Lemma run_inserted ops : ∀ s d op,
  op ∈ ops → op_type op = "insert" →
  char_id (op_char op) ∈ ids (run s d ops).2.
Proof.
  induction ops as [|op0 ops IH]; intros s d op Hop Hi.
  { by apply elem_of_nil in Hop. }
  rewrite run_cons. apply elem_of_cons in Hop as [->|Hop]; [|by apply IH].
  apply run_ids_mono, step_ids. by right.
Qed.

(** ** [applyRemoteOps]: idempotence *)

Lemma step_all_tombstoned s d op ident :
  all_tombstoned s ident (content d) →
  (op_type op = "insert" → char_id (op_char op) ≠ ident) →
  all_tombstoned (step (s, d) op).1 ident (content (step (s, d) op).2).
Proof.
  intros Hall Hins c Hc Hid.
  assert (char_deleted s c = true) as Hdel.
  { apply step_content in Hc as [Hc|(Hi & _ & ->)]; [by apply Hall|].
    by destruct (Hins Hi). }
  apply char_deleted_true. apply char_deleted_true in Hdel.
  by apply (proj2 (step_store s d op)).
Qed.

Lemma run_all_tombstoned ops : ∀ s d ident,
  all_tombstoned s ident (content d) →
  Forall (λ ins, op_type ins = "insert" →
                 char_id (op_char ins) ≠ ident) ops →
  all_tombstoned (run s d ops).1 ident (content (run s d ops).2).
Proof.
  induction ops as [|op ops IH]; intros s d ident Hall Hops; [done|].
  apply Forall_cons in Hops as [Hop Hops]. rewrite run_cons.
  apply IH; [|done]. by apply step_all_tombstoned.
Qed.

(** With unique ids, a delete leaves every character of its id a
    tombstone. *)
Lemma step_delete_establishes s d op :
  NoDup (ids d) → op_type op = "delete" →
  all_tombstoned (step (s, d) op).1 (char_id (op_char op))
                 (content (step (s, d) op).2).
Proof.
  intros Hnd Hd.
  destruct (step_cases s d op)
    as [(Hi & _)|[(_ & c & Hc & Hid & ->)|(-> & _ & Hn)]]; simpl.
  - congruence.
  - intros c' Hc' Hid'.
    assert (c' = c) as -> by (eapply NoDup_ids_eq; eauto; congruence).
    rewrite char_deleted_set_true, bool_decide_eq_true_2; done.
  - intros c' Hc' Hid'. destruct (Hn Hd). rewrite <- Hid'.
    apply list_elem_of_fmap. eauto.
Qed.

Lemma step_absorbed s d op : absorbed s d op → step (s, d) op = (s, d).
Proof.
  intros [Hi Hd].
  destruct (step_cases s d op)
    as [(Hi' & Hn & _)|[(Hd' & c & Hc & Hid & ->)|(-> & _)]]; [|f_equal|done].
  - by destruct Hn; auto.
  - apply set_deleted_true_absorbed. by apply (Hd Hd').
Qed.

Lemma run_absorbed ops s d : Forall (absorbed s d) ops → run s d ops = (s, d).
Proof.
  induction 1 as [|op ops Hop _ IH]; [done|].
  by rewrite run_cons, step_absorbed.
Qed.

Lemma deletes_follow_inserts_cons op ops :
  deletes_follow_inserts (op :: ops) →
  (op_type op = "delete" →
   Forall (λ ins, op_type ins = "insert" →
                  char_id (op_char ins) ≠ char_id (op_char op)) ops) ∧
  deletes_follow_inserts ops.
Proof.
  simpl. intros H. apply andb_prop_elim in H as [H1 H2]. split; [|done].
  intros Hd. apply orb_prop_elim in H1 as [H1|H1].
  { apply negb_prop_elim in H1. destruct H1. by apply bool_decide_pack. }
  apply Is_true_eq_true in H1. rewrite forallb_forall in H1.
  apply Forall_forall. intros ins Hin Hi.
  specialize (H1 ins (proj1 (list_elem_of_In _ _) Hin)).
  rewrite (bool_decide_eq_true_2 _ Hi) in H1. simpl in H1.
  apply negb_true_iff, bool_decide_eq_false in H1. done.
Qed.

Lemma run_absorbs_all ops : ∀ s d,
  NoDup (ids d) → deletes_follow_inserts ops →
  Forall (absorbed (run s d ops).1 (run s d ops).2) ops.
Proof.
  induction ops as [|op ops IH]; intros s d Hnd Hord; [done|].
  apply deletes_follow_inserts_cons in Hord as [Hop Hord].
  rewrite run_cons. constructor; [|by apply IH; [apply step_NoDup|]].
  split.
  - intros Hi. apply run_ids_mono, step_ids. by right.
  - intros Hd. apply run_all_tombstoned; [|auto].
    by apply step_delete_establishes.
Qed.

(** C5, as the code has it.  In every state, an insert whose id is already
    present changes nothing, and neither does a delete whose id is absent
    or whose character (the first of that id, the one [find] returns) is
    already a tombstone.  On a replica whose characters have distinct ids,
    applying an operation list in which no delete comes before an insert
    of the same id a second time leaves store and replica exactly as the
    first application left them. *)
Theorem applyRemoteOps_idempotent s d ops :
  (∀ op, op_type op = "insert" →
         char_id (op_char op) ∈ char_id <$> content d →
         run s d [op] = (s, d)) ∧
  (∀ op, op_type op = "delete" →
         match find (λ c, bool_decide (char_id c = char_id (op_char op)))
                    (content d) with
         | Some char => char_deleted s char = true
         | None => True
         end →
         run s d [op] = (s, d)) ∧
  (NoDup (char_id <$> content d) →
   deletes_follow_inserts ops →
   let once := run s d ops in
   run once.1 once.2 ops = once).
Proof.
  split; [|split].
  - intros op Hi Hk. rewrite applyRemoteOps_single.
    by apply applyRemoteOp_insert_known.
  - intros op Hd Hfound.
    rewrite applyRemoteOps_single, applyRemoteOp_delete by done.
    destruct (find _ (content d)) as [char|]; [|done].
    by rewrite set_deleted_true_absorbed.
  - intros Hnd Hord once.
    subst once. rewrite run_absorbed; [by destruct (run s d ops)|].
    by apply run_absorbs_all.
Qed.
End MergeProperties.

(** ** [applyRemoteOps]: convergence *)

Lemma causal_ext ops : ∀ k1 k2,
  (∀ x, x ∈ k1 ↔ x ∈ k2) → causal k1 ops = causal k2 ops.
Proof.
  induction ops as [|op ops IH]; intros k1 k2 H; simpl; [done|].
  destruct (decide (op_type op = "insert")).
  { apply IH. intros x. rewrite !elem_of_cons. by rewrite H. }
  destruct (decide (op_type op = "delete")); [|by apply IH].
  rewrite (IH k1 k2 H). f_equal. apply bool_decide_ext, H.
Qed.

Lemma coherent_elem s ops a b :
  coherent s ops → a ∈ ops → b ∈ ops →
  op_type a = "insert" → op_type b = "insert" →
  (char_id (op_char a) = char_id (op_char b) →
   wire_char s (op_char a) = wire_char s (op_char b)) ∧
  (char_clientId (op_char a) = char_clientId (op_char b) →
   char_clock (op_char a) = char_clock (op_char b) →
   char_id (op_char a) = char_id (op_char b)) ∧
  (char_ref (op_char a) = char_ref (op_char b) →
   char_id (op_char a) = char_id (op_char b)).
Proof.
  intros H Ha Hb. unfold coherent in H. rewrite Forall_forall in H.
  specialize (H a Ha). rewrite Forall_forall in H. exact (H b Hb).
Qed.

Lemma deleted_in_true ops ident :
  deleted_in ops ident = true ↔
  ∃ op, op ∈ ops ∧ op_type op = "delete" ∧ char_id (op_char op) = ident.
Proof. unfold deleted_in. by rewrite bool_decide_eq_true, Exists_exists. Qed.

Lemma deleted_in_cons op ops ident :
  deleted_in (op :: ops) ident =
  bool_decide (op_type op = "delete" ∧ char_id (op_char op) = ident)
  || deleted_in ops ident.
Proof.
  unfold deleted_in. apply eq_true_iff_eq.
  rewrite orb_true_iff, !bool_decide_eq_true. apply Exists_cons.
Qed.

Lemma same_operations_elem s ops1 ops2 a :
  same_operations s ops1 ops2 → a ∈ ops1 →
  ∃ b, b ∈ ops2 ∧ wire s a = wire s b.
Proof.
  intros [H _] Ha. rewrite Forall_forall in H.
  specialize (H a Ha). by apply Exists_exists in H.
Qed.

Lemma same_operations_sym s ops1 ops2 :
  same_operations s ops1 ops2 → same_operations s ops2 ops1.
Proof.
  intros [H1 H2]. split.
  - eapply Forall_impl; [exact H2|]. intros b Hb.
    eapply Exists_impl; [exact Hb|]. by intros a ->.
  - eapply Forall_impl; [exact H1|]. intros a Ha.
    eapply Exists_impl; [exact Ha|]. by intros b ->.
Qed.

Lemma wire_fields s a b :
  wire s a = wire s b →
  op_type a = op_type b ∧ char_id (op_char a) = char_id (op_char b).
Proof. unfold wire, wire_char. intros [= ? ? _]. done. Qed.

Lemma same_operations_deleted_in s ops1 ops2 ident :
  same_operations s ops1 ops2 →
  deleted_in ops1 ident = deleted_in ops2 ident.
Proof.
  intros H. apply eq_true_iff_eq. rewrite !deleted_in_true. split.
  - intros (a & Ha & Hd & Hid).
    destruct (same_operations_elem _ _ _ _ H Ha) as (b & Hb & Hw).
    apply wire_fields in Hw as [Ht Hi]. exists b. split; [done|]. split; congruence.
  - intros (b & Hb & Hd & Hid). apply same_operations_sym in H.
    destruct (same_operations_elem _ _ _ _ H Hb) as (a & Ha & Hw).
    apply wire_fields in Hw as [Ht Hi]. exists a. split; [done|]. split; congruence.
Qed.

(** The visible text, read off the serialised characters. *)
Lemma visibleValues_wire s l :
  visibleValues s l =
  w_value <$> filter (λ w, w_deleted w = false) (wire_char s <$> l).
Proof.
  induction l as [|c l IH]; [done|].
  rewrite visibleValues_cons, fmap_cons, filter_cons. simpl.
  destruct (char_deleted s c); simpl; by rewrite IH.
Qed.

Section Convergence.
Variable localeCompare : string → string → Z.
Hypothesis Hcollation : Collation localeCompare.

Local Abbreviation step := (applyRemoteOp localeCompare).
Local Abbreviation run := (applyRemoteOps localeCompare).
Local Abbreviation ids d := (char_id <$> content d).
Local Abbreviation cmp := (compareChars localeCompare).
Local Abbreviation kle := (key_le localeCompare).

(** Whatever a run tombstones is a character of the replica whose id some
    delete of the run names. *)
Lemma run_tombstoned_origin ops : ∀ s d r,
  r ∈ tombstoned (run s d ops).1 →
  r ∈ tombstoned s ∨
  ∃ c, c ∈ content (run s d ops).2 ∧ char_ref c = r ∧
       deleted_in ops (char_id c) = true.
Proof.
  induction ops as [|op ops IH]; intros s d r Hr; [by left|].
  rewrite run_cons in Hr |- *.
  apply IH in Hr as [Hr|(c & Hc & Href & Hdel)].
  - destruct (step_cases localeCompare s d op)
      as [(_ & _ & Hs & _)|[(Hd & c & Hc & Hid & Hs)|(Hs & _)]];
      rewrite Hs in Hr; simpl in Hr; try by left.
    apply elem_of_union in Hr as [Hr|Hr]; [|by left].
    apply elem_of_singleton in Hr. right. exists c.
    split; [by apply run_content_mono, step_content; left|].
    split; [done|]. rewrite deleted_in_cons.
    by rewrite bool_decide_eq_true_2.
  - right. exists c. split; [done|]. split; [done|].
    rewrite deleted_in_cons, Hdel. apply orb_true_r.
Qed.

(** After a causally ordered run, every character whose id some delete of
    the run names is a tombstone. *)
Lemma run_deleted ops : ∀ s d,
  NoDup (ids d) → causal (ids d) ops →
  ∀ c, c ∈ content (run s d ops).2 → deleted_in ops (char_id c) = true →
       char_deleted (run s d ops).1 c = true.
Proof.
  induction ops as [|op ops IH]; intros s d Hnd Hcausal c Hc Hdel.
  { by apply deleted_in_true in Hdel as (? & ?%elem_of_nil & _). }
  rewrite run_cons in Hc |- *. simpl in Hcausal.
  assert (causal (ids (step (s, d) op).2) ops ∧
          (op_type op = "delete" → char_id (op_char op) ∈ ids d)) as [Hc' Hk].
  { destruct (decide (op_type op = "insert")) as [Hi|Hi].
    - split; [|congruence]. erewrite causal_ext; [exact Hcausal|].
      intros x. rewrite step_ids, elem_of_cons.
      intuition (subst; auto).
    - destruct (decide (op_type op = "delete")) as [Hd|Hd].
      + apply andb_prop_elim in Hcausal as [Hknown Hcausal].
        apply bool_decide_unpack in Hknown. split; [|done].
        erewrite causal_ext; [exact Hcausal|].
        intros x. rewrite step_ids.
        intuition (subst; auto).
      + split; [|done]. erewrite causal_ext; [exact Hcausal|].
        intros x. rewrite step_ids.
        intuition (subst; auto). }
  rewrite deleted_in_cons in Hdel. apply orb_true_iff in Hdel as [Hdel|Hdel].
  2:{ apply IH; [by apply step_NoDup|done..]. }
  apply bool_decide_eq_true in Hdel as [Hd Hid].
  destruct (step_cases localeCompare s d op)
    as [(Hi & _)|[(_ & c0 & Hc0 & Hid0 & Hs)|(_ & _ & Hn)]].
  - congruence.
  - assert (c = c0) as ->.
    { eapply NoDup_ids_eq; [eapply (run_NoDup localeCompare), step_NoDup, Hnd|
                            exact Hc| |congruence].
      apply run_content_mono, step_content. by left. }
    apply run_deleted_mono. rewrite Hs. simpl.
    rewrite char_deleted_set_true, bool_decide_eq_true_2; done.
  - by destruct (Hn Hd); auto.
Qed.

Lemma key_le_total a b : kle a b ∨ kle b a.
Proof.
  unfold key_le, compareChars.
  destruct (decide (char_clientId a = char_clientId b)) as [E|E].
  - rewrite decide_True by done. lia.
  - rewrite (decide_False (P := char_clientId b = char_clientId a)) by done.
    pose proof (collation_antisym _ Hcollation (char_clientId b)
                  (char_clientId a)). lia.
Qed.

Lemma key_le_trans a b c : kle a b → kle b c → kle a c.
Proof.
  unfold key_le, compareChars.
  pose proof (collation_eq _ Hcollation) as Heq.
  pose proof (collation_antisym _ Hcollation) as Hanti.
  pose proof (collation_trans _ Hcollation) as Htrans.
  destruct (decide (char_clientId a = char_clientId b)) as [Eab|Eab];
    destruct (decide (char_clientId b = char_clientId c)) as [Ebc|Ebc];
    destruct (decide (char_clientId a = char_clientId c)) as [Eac|Eac];
    try congruence; try lia.
  - intros H1 H2. exfalso. rewrite <- Eac in H2.
    specialize (Hanti (char_clientId a) (char_clientId b)).
    assert (localeCompare (char_clientId a) (char_clientId b) ≠ 0)
      by (intros Hz; by apply Heq in Hz).
    assert (localeCompare (char_clientId b) (char_clientId a) ≠ 0)
      by (intros Hz; by apply Heq in Hz).
    lia.
  - intros H1 H2.
    assert (localeCompare (char_clientId a) (char_clientId b) ≠ 0)
      by (intros Hz; by apply Heq in Hz).
    assert (localeCompare (char_clientId b) (char_clientId c) ≠ 0)
      by (intros Hz; by apply Heq in Hz).
    specialize (Htrans (char_clientId a) (char_clientId b) (char_clientId c)).
    lia.
Qed.

Lemma wire_le_antisym a b :
  wire_le localeCompare a b → wire_le localeCompare b a →
  w_clientId a = w_clientId b ∧ w_clock a = w_clock b.
Proof.
  unfold wire_le.
  destruct (decide (w_clientId a = w_clientId b)) as [E|E].
  - rewrite decide_True by done. intros. split; [done|lia].
  - rewrite (decide_False (P := w_clientId b = w_clientId a)) by done.
    intros H1 H2. exfalso.
    pose proof (collation_antisym _ Hcollation (w_clientId a) (w_clientId b)).
    assert (localeCompare (w_clientId a) (w_clientId b) = 0) as Hz by lia.
    by apply (collation_eq _ Hcollation) in Hz.
Qed.

Lemma sort_insert_sorted x l :
  StronglySorted kle l → StronglySorted kle (sort_insert cmp x l).
Proof.
  induction 1 as [|y l Hl IH Hy]; simpl.
  { repeat constructor. }
  destruct (cmp x y <=? 0) eqn:E.
  - apply Z.leb_le in E. constructor; [by constructor|].
    constructor; [done|]. eapply Forall_impl; [exact Hy|].
    intros z Hz. by eapply key_le_trans.
  - apply Z.leb_gt in E. constructor; [done|].
    rewrite sort_insert_perm. constructor; [|done].
    destruct (key_le_total x y) as [H|H]; [unfold key_le in H; lia|done].
Qed.

Lemma js_sort_sorted l : StronglySorted kle (js_sort cmp l).
Proof.
  induction l as [|x l IH]; simpl; [constructor|].
  by apply sort_insert_sorted.
Qed.

Lemma run_sorted ops : ∀ s d,
  StronglySorted kle (content d) →
  StronglySorted kle (content (run s d ops).2).
Proof.
  induction ops as [|op ops IH]; intros s d Hs; [done|].
  rewrite run_cons. apply IH.
  destruct (step_cases localeCompare s d op)
    as [(_ & _ & _ & _ & ->)|[(_ & c & _ & _ & ->)|(-> & _)]]; simpl; try done.
  apply js_sort_sorted.
Qed.
End Convergence.

Section Replicas.
Variable localeCompare : string → string → Z.
Hypothesis Hcollation : Collation localeCompare.

Local Abbreviation run := (applyRemoteOps localeCompare).
Local Abbreviation kle := (key_le localeCompare).

(** C1, as the code has it.  Two fresh replicas of one process each apply,
    through [applyRemoteOps], a list over the same coherent set of
    operations (the same objects or copies of them), in any order and with
    any duplication, but with every delete after an insert of its id.
    They then show the same text, and hold the same characters field by
    field. *)
Theorem remote_merge_converges s cid1 cid2 ops1 ops2 :
  coherent s (ops1 ++ ops2) →
  same_operations s ops1 ops2 →
  causal [] ops1 → causal [] ops2 →
  let r1 := run s (new_SimpleYDoc cid1) ops1 in
  let r2 := run r1.1 (new_SimpleYDoc cid2) ops2 in
  getText r2.1 r1.2 = getText r2.1 r2.2 ∧
  wire_char r2.1 <$> content r1.2 = wire_char r2.1 <$> content r2.2.
Proof.
  intros Hcoh Hsame Hcausal1 Hcausal2 r1 r2.
  assert (wire_char r2.1 <$> content r1.2 = wire_char r2.1 <$> content r2.2)
    as Heq.
  2:{ split; [|done]. unfold getText. by rewrite !visibleValues_wire, Heq. }
  (* the characters of each replica come from the inserts of its list *)
  assert (∀ c, c ∈ content r1.2 →
            ∃ op, op ∈ ops1 ∧ op_type op = "insert" ∧ c = op_char op) as Ho1.
  { intros c Hc. apply run_content_origin in Hc as [Hc|?]; [|done].
    by apply elem_of_nil in Hc. }
  assert (∀ c, c ∈ content r2.2 →
            ∃ op, op ∈ ops2 ∧ op_type op = "insert" ∧ c = op_char op) as Ho2.
  { intros c Hc. apply run_content_origin in Hc as [Hc|?]; [|done].
    by apply elem_of_nil in Hc. }
  assert (∀ c c', (c ∈ content r1.2 ∨ c ∈ content r2.2) →
                  (c' ∈ content r1.2 ∨ c' ∈ content r2.2) →
            (char_id c = char_id c' → wire_char s c = wire_char s c') ∧
            (char_clientId c = char_clientId c' →
             char_clock c = char_clock c' → char_id c = char_id c') ∧
            (char_ref c = char_ref c' → char_id c = char_id c')) as Hchars.
  { intros c c' Hc Hc'.
    assert (∃ op, op ∈ ops1 ++ ops2 ∧ op_type op = "insert" ∧ c = op_char op)
      as (op & Hop & Hi & ->).
    { destruct Hc as [Hc|Hc]; [apply Ho1 in Hc|apply Ho2 in Hc];
        destruct Hc as (op & ? & ? & ?); exists op;
        (split; [apply elem_of_app; auto|done]). }
    assert (∃ op, op ∈ ops1 ++ ops2 ∧ op_type op = "insert" ∧ c' = op_char op)
      as (op' & Hop' & Hi' & ->).
    { destruct Hc' as [Hc'|Hc']; [apply Ho1 in Hc'|apply Ho2 in Hc'];
        destruct Hc' as (op' & ? & ? & ?); exists op';
        (split; [apply elem_of_app; auto|done]). }
    by apply (coherent_elem s (ops1 ++ ops2)). }
  (* the flags at the end *)
  assert (∀ x, deleted_in ops1 x = deleted_in ops2 x) as Hdel.
  { intros x. by eapply same_operations_deleted_in. }
  assert (∀ c, (c ∈ content r1.2 ∨ c ∈ content r2.2) →
            char_deleted r2.1 c =
            char_deleted s c || deleted_in ops1 (char_id c)) as Hflag.
  { intros c Hc. apply eq_true_iff_eq. rewrite orb_true_iff. split.
    - intros H. apply char_deleted_true in H.
      apply (run_tombstoned_origin localeCompare) in H
        as [H|(c' & Hc' & Href & Hd)].
      + apply (run_tombstoned_origin localeCompare) in H
          as [H|(c' & Hc' & Href & Hd)].
        * left. by apply char_deleted_true.
        * right. destruct (Hchars c' c) as (_ & _ & Hid); [by left|done|].
          by rewrite <- (Hid Href).
      + right. destruct (Hchars c' c) as (_ & _ & Hid); [by right|done|].
        by rewrite <- (Hid Href), Hdel.
    - intros [H|H].
      + by do 2 apply run_deleted_mono.
      + destruct Hc as [Hc|Hc].
        * apply run_deleted_mono.
          apply (run_deleted localeCompare); [constructor|done..].
        * apply (run_deleted localeCompare); [constructor|done|done|].
          by rewrite <- Hdel. }
  assert (∀ c c', c ∈ content r1.2 → c' ∈ content r2.2 →
            char_id c = char_id c' → wire_char r2.1 c = wire_char r2.1 c')
    as Hwire.
  { intros c c' Hc Hc' Hid.
    destruct (Hchars c c') as (Hw & _); [by left|by right|].
    specialize (Hw Hid). unfold wire_char in *.
    rewrite (Hflag c), (Hflag c') by auto.
    injection Hw as -> -> -> -> -> ->. done. }
  (* both lists of serialised characters are sorted, and hold the same *)
  apply (StronglySorted_unique_strong (wire_le localeCompare)).
  - intros w1 w2 Hw1 Hw2 Hle1 Hle2.
    apply list_elem_of_fmap in Hw1 as (c1 & -> & Hc1).
    apply list_elem_of_fmap in Hw2 as (c2 & -> & Hc2).
    destruct (wire_le_antisym _ Hcollation _ _ Hle1 Hle2) as [Hcl Hck].
    apply Hwire; [done..|].
    destruct (Hchars c1 c2) as (_ & Hkey & _); [by left|by right|].
    by apply Hkey.
  - apply (StronglySorted_fmap _ kle); [done|].
    apply (run_sorted localeCompare Hcollation). constructor.
  - apply (StronglySorted_fmap _ kle); [done|].
    apply (run_sorted localeCompare Hcollation). constructor.
  - apply NoDup_Permutation.
    + apply (NoDup_fmap_1 w_id). rewrite <- list_fmap_compose.
      apply (run_NoDup localeCompare). constructor.
    + apply (NoDup_fmap_1 w_id). rewrite <- list_fmap_compose.
      apply (run_NoDup localeCompare). constructor.
    + intros w. rewrite !list_elem_of_fmap. split.
      * intros (c & -> & Hc). destruct (Ho1 c Hc) as (op & Hop & Hi & ->).
        destruct (same_operations_elem _ _ _ _ Hsame Hop) as (op' & Hop' & Hw).
        apply wire_fields in Hw as [Ht Hid].
        assert (char_id (op_char op') ∈ char_id <$> content r2.2) as Hin.
        { apply run_inserted; [done|congruence]. }
        apply list_elem_of_fmap in Hin as (c' & Hid' & Hc').
        exists c'. split; [|done]. apply Hwire; [done..|congruence].
      * intros (c' & -> & Hc'). destruct (Ho2 c' Hc') as (op' & Hop' & Hi & ->).
        destruct (same_operations_elem _ _ _ _ (same_operations_sym _ _ _ Hsame)
                    Hop') as (op & Hop & Hw).
        apply wire_fields in Hw as [Ht Hid].
        assert (char_id (op_char op) ∈ char_id <$> content r1.2) as Hin.
        { apply run_inserted; [done|congruence]. }
        apply list_elem_of_fmap in Hin as (c & Hid' & Hc).
        exists c. split; [|done]. symmetry. apply Hwire; [done..|congruence].
Qed.
End Replicas.

(** ** [applyRemoteOps]: two operations in both orders *)

Section Commutativity.
Variable localeCompare : string → string → Z.
Hypothesis Hcollation : Collation localeCompare.

Local Abbreviation step := (applyRemoteOp localeCompare).
Local Abbreviation run := (applyRemoteOps localeCompare).
Local Abbreviation cmp := (compareChars localeCompare).

(** What an operation does to a replica that holds nothing. *)
Lemma step_empty s d op :
  content d = [] →
  step (s, d) op =
  (s, if decide (op_type op = "insert") then set_content [op_char op] d else d).
Proof.
  intros Hd. unfold applyRemoteOp. rewrite Hd. simpl.
  destruct (decide (op_type op = "insert")); [done|].
  by destruct (decide (op_type op = "delete")).
Qed.

(** What an operation does to a replica that holds one character. *)
Lemma step_single s d a op :
  content d = [a] →
  step (s, d) op =
  if decide (op_type op = "insert") then
    if decide (char_id a = char_id (op_char op)) then (s, d)
    else (s, set_content (if cmp a (op_char op) <=? 0 then [a; op_char op]
                          else [op_char op; a]) d)
  else if decide (op_type op = "delete") then
    if decide (char_id a = char_id (op_char op))
    then (set_deleted true a s, d) else (s, d)
  else (s, d).
Proof.
  intros Hd. unfold applyRemoteOp. rewrite Hd.
  destruct (decide (op_type op = "insert")).
  - unfold findIndex. simpl.
    destruct (decide (char_id a = char_id (op_char op))) as [E|E].
    + by rewrite bool_decide_eq_true_2.
    + rewrite bool_decide_eq_false_2 by done. simpl.
      by destruct (cmp a (op_char op) <=? 0).
  - destruct (decide (op_type op = "delete")); [|done]. simpl.
    destruct (decide (char_id a = char_id (op_char op))) as [E|E].
    + by rewrite bool_decide_eq_true_2.
    + by rewrite bool_decide_eq_false_2.
Qed.

(** Characters with different keys are strictly ordered. *)
Lemma cmp_strict a b :
  ¬ (char_clientId a = char_clientId b ∧ char_clock a = char_clock b) →
  (cmp a b <=? 0) = negb (cmp b a <=? 0).
Proof.
  intros Hne. unfold compareChars.
  destruct (decide (char_clientId a = char_clientId b)) as [E|E].
  - rewrite decide_True by done.
    assert (char_clock a ≠ char_clock b) by (intros ?; by apply Hne).
    destruct (Z.leb_spec (char_clock a - char_clock b) 0);
      destruct (Z.leb_spec (char_clock b - char_clock a) 0); simpl; lia.
  - rewrite (decide_False (P := char_clientId b = char_clientId a)) by done.
    pose proof (collation_antisym _ Hcollation (char_clientId a)
                  (char_clientId b)).
    pose proof (collation_antisym _ Hcollation (char_clientId b)
                  (char_clientId a)).
    assert (localeCompare (char_clientId a) (char_clientId b) ≠ 0)
      by (intros Hz; by apply (collation_eq _ Hcollation) in Hz).
    destruct (Z.leb_spec (localeCompare (char_clientId a) (char_clientId b)) 0);
      destruct (Z.leb_spec (localeCompare (char_clientId b) (char_clientId a)) 0);
      simpl; lia.
Qed.

Lemma cmp_wire s a b a' b' :
  wire_char s a = wire_char s a' → wire_char s b = wire_char s b' →
  cmp a b = cmp a' b'.
Proof.
  unfold wire_char, compareChars. intros [= _ _ Hca Hka _ _] [= _ _ Hcb Hkb _ _].
  by rewrite Hca, Hka, Hcb, Hkb.
Qed.

Lemma wire_all_fields s X X' :
  wire s X = wire s X' →
  op_type X' = op_type X ∧
  wire_char s (op_char X) = wire_char s (op_char X') ∧
  char_id (op_char X') = char_id (op_char X) ∧
  char_value (op_char X') = char_value (op_char X) ∧
  char_deleted s (op_char X') = char_deleted s (op_char X).
Proof.
  intros H.
  pose proof (f_equal (λ p, p.1.1) H) as Ht.
  pose proof (f_equal (λ p, p.1.2) H) as Hc. simpl in Ht, Hc.
  pose proof (f_equal w_id Hc) as Hi.
  pose proof (f_equal w_value Hc) as Hv.
  pose proof (f_equal w_deleted Hc) as Hd. simpl in Hi, Hv, Hd.
  done.
Qed.

Lemma getText_nil s cid : getText s (new_SimpleYDoc cid) = "".
Proof. done. Qed.

Lemma getText_single s d a :
  getText s (set_content [a] d) =
  if char_deleted s a then "" else String (char_value a) "".
Proof.
  unfold getText. simpl. rewrite visibleValues_cons.
  by destruct (char_deleted s a).
Qed.

Lemma getText_pair s d a b :
  getText s (set_content [a; b] d) =
  (if char_deleted s a then "" else String (char_value a) "") +:+
  (if char_deleted s b then "" else String (char_value b) "").
Proof.
  unfold getText. simpl. rewrite !visibleValues_cons.
  by destruct (char_deleted s a), (char_deleted s b).
Qed.

(** C2, as the code has it.  One fresh replica applies [A, B]; another
    applies the same two operations, the same objects or copies [A'] and
    [B'] of them, in the order [B', A'].  They end with the same text,
    unless one operation deletes the character the other inserts.  Then
    the replica that applied the insert first tombstoned its object and
    reads the empty text, and the replica that applied the delete first
    dropped it and shows the inserted character as it holds it: the two
    agree exactly when they hold the same character object (the flag is
    shared) or the insert carried the character already tombstoned. *)
Theorem two_operations_commute s cid1 cid2 A B A' B' :
  coherent s [A; B] →
  wire s A = wire s A' → wire s B = wire s B' →
  let r1 := run s (new_SimpleYDoc cid1) [A; B] in
  let r2 := run r1.1 (new_SimpleYDoc cid2) [B'; A'] in
  (¬ conflict A B ∧ ¬ conflict B A →
   getText r2.1 r1.2 = getText r2.1 r2.2) ∧
  (conflict A B →
   getText r2.1 r1.2 = "" ∧
   getText r2.1 r2.2 =
     (if bool_decide (char_ref (op_char A') = char_ref (op_char A))
         || char_deleted s (op_char A)
      then "" else String (char_value (op_char A)) "") ∧
   (getText r2.1 r1.2 = getText r2.1 r2.2 ↔
    char_ref (op_char A') = char_ref (op_char A) ∨
    char_deleted s (op_char A) = true)) ∧
  (conflict B A →
   getText r2.1 r2.2 = "" ∧
   getText r2.1 r1.2 =
     (if bool_decide (char_ref (op_char B) = char_ref (op_char B'))
         || char_deleted s (op_char B)
      then "" else String (char_value (op_char B)) "") ∧
   (getText r2.1 r1.2 = getText r2.1 r2.2 ↔
    char_ref (op_char B) = char_ref (op_char B') ∨
    char_deleted s (op_char B) = true)).
Proof.
  intros Hcoh HwA HwB r1 r2.
  destruct (wire_all_fields _ _ _ HwA) as (HtA & HcA & Hia & Hva & Hda).
  destruct (wire_all_fields _ _ _ HwB) as (HtB & HcB & Hib & Hvb & Hdb).
  subst r1 r2. rewrite !run_cons, !run_nil.
  rewrite (step_empty s _ A) by done.
  destruct (decide (op_type A = "insert")) as [HiA|HiA].
  - (* A inserts *)
    rewrite (step_single _ _ (op_char A) B) by done. cbn [fst snd].
    split; [|split; [|intros (_ & Hd & _); congruence]].
    + intros [Hno _].
      destruct (decide (op_type B = "insert")) as [HiB|HiB].
      * rewrite (step_empty _ _ B') by done.
        rewrite (decide_True (P := op_type B' = "insert")) by congruence.
        rewrite (step_single _ _ (op_char B') A') by done.
        rewrite (decide_True (P := op_type A' = "insert")) by congruence.
        destruct (coherent_elem s [A; B] A B Hcoh) as (Hid & Hkey & _);
          [by left|by right; left|done|done|].
        destruct (decide (char_id (op_char A) = char_id (op_char B))) as [E|E].
        -- rewrite (decide_True (P := char_id (op_char B') = char_id (op_char A'))) by congruence.
           cbn [fst snd]. rewrite !getText_single.
           specialize (Hid E). unfold wire_char in Hid.
           injection Hid as _ Hv _ _ Hd _. by rewrite Hv, Hd, <- Hvb, <- Hdb.
        -- rewrite (decide_False (P := char_id (op_char B') = char_id (op_char A'))) by congruence.
           cbn [fst snd].
           rewrite <- (cmp_wire s (op_char B) (op_char A) (op_char B') (op_char A')) by done.
           rewrite (cmp_strict (op_char A) (op_char B)) by (intros [??]; auto).
           destruct (cmp (op_char B) (op_char A) <=? 0); cbn [negb];
             rewrite !getText_pair;
             by rewrite Hva, Hvb, Hda, Hdb.
      * rewrite (step_empty _ _ B') by done.
        rewrite (decide_False (P := op_type B' = "insert")) by congruence.
        rewrite (step_empty _ _ A') by done.
        rewrite (decide_True (P := op_type A' = "insert")) by congruence.
        destruct (decide (op_type B = "delete")) as [HdB|HdB].
        -- rewrite decide_False by (intros E; by apply Hno).
           cbn [fst snd]. rewrite !getText_single. by rewrite Hva, Hda.
        -- cbn [fst snd]. rewrite !getText_single. by rewrite Hva, Hda.
    + (* the conflict: the first replica tombstoned its object *)
      intros (_ & HdB & E).
      rewrite (decide_False (P := op_type B = "insert")) by congruence.
      rewrite (decide_True (P := op_type B = "delete")) by done.
      rewrite (decide_True (P := char_id (op_char A) = char_id (op_char B))) by done.
      rewrite (step_empty _ _ B') by done.
      rewrite (decide_False (P := op_type B' = "insert")) by congruence.
      rewrite (step_empty _ _ A') by done.
      rewrite (decide_True (P := op_type A' = "insert")) by congruence.
      cbn [fst snd]. rewrite !getText_single.
      rewrite !char_deleted_set_true.
      rewrite (bool_decide_eq_true_2 (char_ref (op_char A) = char_ref (op_char A))) by done.
      cbn [orb]. rewrite Hda, Hva.
      split; [done|]. split; [done|].
      destruct (decide (char_ref (op_char A') = char_ref (op_char A))) as [R|R].
      * rewrite bool_decide_eq_true_2 by done. cbn [orb]. split; auto.
      * rewrite bool_decide_eq_false_2 by done. cbn [orb].
        destruct (char_deleted s (op_char A)).
        -- split; auto.
        -- split; [done|]. intros [?|?]; done.
  - (* A does not insert *)
    split; [|split; [by intros (? & _)|]].
    + intros [_ Hno].
      rewrite (step_empty _ _ B) by done. cbn [fst snd].
      rewrite (step_empty _ _ B') by done.
      destruct (decide (op_type B = "insert")) as [HiB|HiB].
      * rewrite (decide_True (P := op_type B' = "insert")) by congruence.
        rewrite (step_single _ _ (op_char B') A') by done.
        rewrite (decide_False (P := op_type A' = "insert")) by congruence.
        destruct (decide (op_type A' = "delete")) as [HdA|HdA].
        -- rewrite decide_False.
           2:{ intros E. apply Hno. split; [done|]. split; congruence. }
           cbn [fst snd]. rewrite !getText_single. by rewrite Hvb, Hdb.
        -- cbn [fst snd]. rewrite !getText_single. by rewrite Hvb, Hdb.
      * rewrite (decide_False (P := op_type B' = "insert")) by congruence.
        rewrite (step_empty _ _ A') by done.
        rewrite (decide_False (P := op_type A' = "insert")) by congruence.
        cbn [fst snd]. by rewrite !getText_nil.
    + (* the conflict, the delete first: the first replica dropped it *)
      intros (HiB & HdA & E).
      rewrite (step_empty _ _ B) by done. cbn [fst snd].
      rewrite (decide_True (P := op_type B = "insert")) by done.
      rewrite (step_empty _ _ B') by done.
      rewrite (decide_True (P := op_type B' = "insert")) by congruence.
      rewrite (step_single _ _ (op_char B') A') by done.
      rewrite (decide_False (P := op_type A' = "insert")) by congruence.
      rewrite (decide_True (P := op_type A' = "delete")) by congruence.
      rewrite (decide_True (P := char_id (op_char B') = char_id (op_char A'))) by congruence.
      cbn [fst snd]. rewrite !getText_single.
      rewrite !char_deleted_set_true.
      rewrite (bool_decide_eq_true_2 (char_ref (op_char B') = char_ref (op_char B'))) by done.
      cbn [orb]. split; [done|].
      destruct (decide (char_ref (op_char B) = char_ref (op_char B'))) as [R|R].
      * rewrite bool_decide_eq_true_2 by done. cbn [orb]. split; [done|].
        split; auto.
      * rewrite bool_decide_eq_false_2 by done. cbn [orb].
        destruct (char_deleted s (op_char B)).
        -- split; [done|]. split; auto.
        -- split; [done|]. split; [done|]. intros [?|?]; done.
Qed.
End Commutativity.

(** ** Concrete runs *)

Lemma x_ops_emitted :
  (insert empty_store (new_SimpleYDoc "a") 0 "x" "local").2 = [x_insert_op] ∧
  (let '(s, d, _) := insert empty_store (new_SimpleYDoc "a") 0 "x" "local" in
   (delete s d 0 1 "local").2) = [x_delete_op] ∧
  wire x_store x_insert_copy = wire empty_store x_insert_op.
Proof. by vm_compute. Qed.

(** C2, counterexample.  [A] inserts the character [a-1] and [B] deletes
    it.  The first replica applies [A, B]: it tombstones the object.  The
    second replica is fresh as well and applies copies of the same two
    operations in the order [B, A]: it drops the delete and shows "x". *)
Lemma delete_before_insert_diverges :
  let r1 := applyRemoteOps codeUnitCompare x_store (new_SimpleYDoc "r1")
              [x_insert_op; x_delete_op] in
  let r2 := applyRemoteOps codeUnitCompare r1.1 (new_SimpleYDoc "r2")
              [x_delete_copy; x_insert_copy] in
  wire x_store x_insert_op = wire x_store x_insert_copy ∧
  wire x_store x_delete_op = wire x_store x_delete_copy ∧
  getText r2.1 r1.2 = "" ∧ getText r2.1 r2.2 = "x" ∧
  getText r2.1 r1.2 ≠ getText r2.1 r2.2.
Proof. vm_compute. repeat split; done. Qed.

(** C1, counterexample.  Two fresh replicas receive the same three
    operations (typing "hi", deleting "h"), the second one as copies: the
    first in emission order, the second with the delete first and an
    insert repeated.  They read "i" and "hi".  And with shared objects
    throughout: the author of "a" then "b", both typed at position 0,
    reads "ba" while the replica that merged those two inserts reads
    "ab". *)
Lemma same_operations_different_text :
  (let ops1 := hi_ops 0 1 in
   let ops2 :=
     [mkOp "delete" (h_char 2) "local"; mkOp "insert" (h_char 2) "local";
      mkOp "insert" (i_char 3) "local"; mkOp "insert" (h_char 2) "local"] in
   let r1 := applyRemoteOps codeUnitCompare hi_store (new_SimpleYDoc "r1")
               ops1 in
   let r2 := applyRemoteOps codeUnitCompare r1.1 (new_SimpleYDoc "r2") ops2 in
   same_operations hi_store ops1 ops2 ∧
   getText r2.1 r1.2 = "i" ∧ getText r2.1 r2.2 = "hi") ∧
  (let '(s1, p1, ops_a) :=
     insert empty_store (new_SimpleYDoc "p") 0 "a" "local" in
   let '(s2, p2, ops_b) := insert s1 p1 0 "b" "local" in
   let '(s3, q) :=
     applyRemoteOps codeUnitCompare s2 (new_SimpleYDoc "q") (ops_a ++ ops_b) in
   getText s3 p2 = "ba" ∧ getText s3 q = "ab").
Proof.
  split; [split; [|split]|].
  - apply (bool_decide_unpack _). vm_compute. exact I.
  - vm_compute. done.
  - vm_compute. done.
  - vm_compute. done.
Qed.

(** C5, counterexample.  The list [delete a-1, insert a-1], where the
    insert carries the character untombstoned, applied once leaves "x"
    visible (the delete met no character); applied a second time the
    delete finds the character and tombstones it. *)
Lemma second_application_changes_state :
  let ops := [x_delete_copy; x_insert_copy] in
  let once := applyRemoteOps codeUnitCompare x_store (new_SimpleYDoc "r") ops in
  let twice := applyRemoteOps codeUnitCompare once.1 once.2 ops in
  getText once.1 once.2 = "x" ∧ getText twice.1 twice.2 = "" ∧ twice ≠ once.
Proof.
  vm_compute. split; [done|]. split; [done|]. intros H. discriminate H.
Qed.

(** C7, counterexample to "exactly [length]": on the text "ab",
    [delete(0, 3)] tombstones and returns two characters, not three. *)
Lemma delete_past_the_end :
  let '(s, d, _) := insert empty_store (new_SimpleYDoc "p") 0 "ab" "local" in
  let r := delete s d 0 3 "local" in
  getText s d = "ab" ∧
  List.length r.2 = 2%nat ∧ List.length r.2 ≠ Z.to_nat 3 ∧
  getText r.1.1 r.1.2 = "".
Proof. vm_compute. repeat split; (done || lia). Qed.

(** C7 at work: "ab" with the range [0, 1) deleted. *)
Lemma delete_removes_range_witness :
  let '(s, d, _) := insert empty_store (new_SimpleYDoc "p") 0 "ab" "local" in
  let r := delete s d 0 1 "local" in
  List.length r.2 = 1%nat ∧ getText r.1.1 r.1.2 = "b".
Proof.
  set (i := insert empty_store (new_SimpleYDoc "p") 0 "ab" "local").
  assert (NoDup (char_ref <$> content i.1.2)) as Hnd.
  { apply (bool_decide_unpack _). vm_compute. exact I. }
  destruct (delete_removes_range i.1.1 i.1.2 0 1 "local" Hnd)
    as (_ & Hlen & _ & _ & _ & Htext).
  split; [exact Hlen|exact Htext].
Defined.

(** C10, counterexample.  Client [a] types "x" and deletes it; a fresh
    replica of the same process is handed the operations [delete] and
    [insert] returned, the delete first.  The delete meets no character
    and is dropped; the insert that arrives in the next call carries the
    object the author has tombstoned, so the character is added as a
    tombstone and the replica reads the empty text. *)
Lemma late_insert_arrives_tombstoned :
  let '(s1, a1, ins) := insert empty_store (new_SimpleYDoc "a") 0 "x" "local" in
  let '(s2, a2, del) := delete s1 a1 0 1 "local" in
  let r1 := applyRemoteOps codeUnitCompare s2 (new_SimpleYDoc "r") del in
  let r2 := applyRemoteOps codeUnitCompare r1.1 r1.2 ins in
  ins = [x_insert_op] ∧ del = [x_delete_op] ∧
  r1 = (s2, new_SimpleYDoc "r") ∧
  content r2.2 = [x_char] ∧
  char_deleted r2.1 x_char = true ∧ ¬ visible r2.1 x_char ∧
  getText r2.1 r2.2 = "".
Proof. vm_compute. repeat split; try done. Qed.

(** C10 at work: a fresh replica receives the delete of [a-1], then its
    insert, both as copies made before the author's delete. *)
Lemma delete_of_unknown_id_is_dropped_witness :
  let r1 := applyRemoteOps codeUnitCompare x_store (new_SimpleYDoc "r")
              [x_delete_copy] in
  let r2 := applyRemoteOps codeUnitCompare r1.1 r1.2 [x_insert_copy] in
  r1 = (x_store, new_SimpleYDoc "r") ∧
  r2 = applyRemoteOps codeUnitCompare x_store (new_SimpleYDoc "r")
         [x_insert_copy] ∧
  (∀ c, c ∈ content r2.2 → char_id c = char_id (op_char x_delete_copy) →
        visible r2.1 c).
Proof.
  intros r1 r2.
  destruct (delete_of_unknown_id_is_dropped codeUnitCompare x_store
              (new_SimpleYDoc "r") x_delete_copy x_insert_copy)
    as (Hdrop & Hsame & _ & _ & _ & Hvis & _).
  - reflexivity.
  - simpl. apply not_elem_of_nil.
  - reflexivity.
  - reflexivity.
  - split; [exact Hdrop|]. split; [exact Hsame|].
    apply Hvis. vm_compute. reflexivity.
Defined.

(** C5 at work: a replica that holds "hi" receives the three operations of
    typing "hi" and deleting "h" once more, twice. *)
Lemma applyRemoteOps_idempotent_witness :
  let r := applyRemoteOps codeUnitCompare hi_store (new_SimpleYDoc "r")
             (hi_ops 0 1) in
  let once := applyRemoteOps codeUnitCompare r.1 r.2 (hi_ops 2 3) in
  applyRemoteOps codeUnitCompare once.1 once.2 (hi_ops 2 3) = once ∧
  applyRemoteOps codeUnitCompare r.1 r.2 [mkOp "insert" (i_char 3) "local"]
    = r ∧
  applyRemoteOps codeUnitCompare r.1 r.2 [mkOp "delete" (h_char 2) "local"]
    = r.
Proof.
  intros r.
  destruct (applyRemoteOps_idempotent codeUnitCompare r.1 r.2 (hi_ops 2 3))
    as (Hins & Hdel & Htwice).
  split; [|split].
  - apply Htwice.
    + apply (bool_decide_unpack _). vm_compute. exact I.
    + vm_compute. exact I.
  - rewrite Hins; [by destruct r|reflexivity|].
    apply (bool_decide_unpack _). vm_compute. exact I.
  - rewrite Hdel; [by destruct r|reflexivity|].
    vm_compute. reflexivity.
Defined.

(** C1 at work: the operations of typing "hi" and deleting "h", received in
    emission order by one replica, as copies, reordered and repeated, by
    another. *)
Lemma remote_merge_converges_witness :
  let ops1 := hi_ops 0 1 in
  let ops2 :=
    [mkOp "insert" (i_char 3) "local"; mkOp "insert" (h_char 2) "local";
     mkOp "delete" (h_char 2) "local"; mkOp "insert" (i_char 3) "local"] in
  let r1 := applyRemoteOps codeUnitCompare hi_store (new_SimpleYDoc "r1")
              ops1 in
  let r2 := applyRemoteOps codeUnitCompare r1.1 (new_SimpleYDoc "r2") ops2 in
  getText r2.1 r1.2 = getText r2.1 r2.2 ∧
  wire_char r2.1 <$> content r1.2 = wire_char r2.1 <$> content r2.2.
Proof.
  intros ops1 ops2.
  apply (remote_merge_converges codeUnitCompare codeUnitCompare_collation
           hi_store "r1" "r2" ops1 ops2).
  - apply (bool_decide_unpack _). vm_compute. exact I.
  - apply (bool_decide_unpack _). vm_compute. exact I.
  - vm_compute. exact I.
  - vm_compute. exact I.
Defined.

(** C2 at work.  Two inserts of different clients, the second replica
    receiving copies: both orders read the same.  The insert of [a-1] and
    its delete, the second replica receiving the insert object itself and
    a copy of the delete: both read the empty text.  The delete and then
    the insert, the second replica receiving copies: the first replica
    dropped the delete and reads "x", the second reads the empty text. *)
Lemma two_operations_commute_witness :
  (let A := mkOp "insert" (mkChar 0 "a-1" "x" "a" 1 0) "local" in
   let B := mkOp "insert" (mkChar 1 "b-1" "y" "b" 1 0) "local" in
   let A' := mkOp "insert" (mkChar 2 "a-1" "x" "a" 1 0) "local" in
   let B' := mkOp "insert" (mkChar 3 "b-1" "y" "b" 1 0) "local" in
   let r1 := applyRemoteOps codeUnitCompare hi_store (new_SimpleYDoc "r1")
               [A; B] in
   let r2 := applyRemoteOps codeUnitCompare r1.1 (new_SimpleYDoc "r2")
               [B'; A'] in
   getText r2.1 r1.2 = getText r2.1 r2.2) ∧
  (let r1 := applyRemoteOps codeUnitCompare x_store (new_SimpleYDoc "r1")
               [x_insert_op; x_delete_op] in
   let r2 := applyRemoteOps codeUnitCompare r1.1 (new_SimpleYDoc "r2")
               [x_delete_copy; x_insert_op] in
   getText r2.1 r1.2 = "" ∧ getText r2.1 r2.2 = "") ∧
  (let r1 := applyRemoteOps codeUnitCompare x_store (new_SimpleYDoc "r1")
               [x_delete_op; x_insert_op] in
   let r2 := applyRemoteOps codeUnitCompare r1.1 (new_SimpleYDoc "r2")
               [x_insert_copy; x_delete_copy] in
   getText r2.1 r1.2 = "x" ∧ getText r2.1 r2.2 = "").
Proof.
  split; [|split].
  - intros A B A' B'.
    refine (proj1 (two_operations_commute codeUnitCompare
                     codeUnitCompare_collation hi_store "r1" "r2" A B A' B'
                     _ _ _) _).
    + apply (bool_decide_unpack _). vm_compute. exact I.
    + reflexivity.
    + reflexivity.
    + split; intros (_ & H & _); discriminate H.
  - intros r1 r2.
    destruct (two_operations_commute codeUnitCompare
                codeUnitCompare_collation x_store "r1" "r2"
                x_insert_op x_delete_op x_insert_op x_delete_copy)
      as (_ & Hconflict & _).
    + apply (bool_decide_unpack _). vm_compute. exact I.
    + reflexivity.
    + reflexivity.
    + destruct Hconflict as (H1 & H2 & _).
      * split; [reflexivity|]. split; reflexivity.
      * split; [exact H1|exact H2].
  - intros r1 r2.
    destruct (two_operations_commute codeUnitCompare
                codeUnitCompare_collation x_store "r1" "r2"
                x_delete_op x_insert_op x_delete_copy x_insert_copy)
      as (_ & _ & Hconflict).
    + apply (bool_decide_unpack _). vm_compute. exact I.
    + reflexivity.
    + reflexivity.
    + destruct Hconflict as (H2 & H1 & _).
      * split; [reflexivity|]. split; reflexivity.
      * split; [exact H1|exact H2].
Defined.

(** C9 at work: [w3] is refused, the update of [w1] is merged. *)
Lemma update_requires_joined_document_witness :
  let message := mkMessage "update" (Some "doc1") [8; 9] in
  let refused := handleUpdate demo_applyUpdate id "w3" message demo_server in
  let merged := handleUpdate demo_applyUpdate id "w1" message demo_server in
  (sent refused = [("w3", MsgError "Not in document")] ∧
   documents refused = documents demo_server) ∧
  documents merged !! "doc1" = Some (mkManager "doc1" [7; 8; 9] ["w1"; "w2"]).
Proof.
  intros message refused merged.
  assert (server_wf demo_server) as Hwf.
  { split; apply (bool_decide_unpack _); vm_compute; exact I. }
  split.
  - destruct (update_requires_joined_document demo_applyUpdate id "w3" message
                demo_server (mkWs "w3" None true 1) Hwf eq_refl)
      as [Hrefused _].
    destruct (Hrefused (or_introl eq_refl)) as (_ & Hdocs & _ & Hsent).
    split; [exact Hsent|exact Hdocs].
  - destruct (update_requires_joined_document demo_applyUpdate id "w1" message
                demo_server (mkWs "w1" (Some "doc1") true 1) Hwf eq_refl)
      as [_ Hmerged].
    destruct (Hmerged "doc1" (mkManager "doc1" [7] ["w1"; "w2"])
                eq_refl eq_refl eq_refl) as (_ & Hdoc & _).
    exact Hdoc.
Defined.

(** * Further properties of the replica engine *)

(** ** [insert] in every state *)

Lemma splice_sublist {A} (n : nat) (x : A) (l : list A) :
  l `sublist_of` splice n x l.
Proof.
  unfold splice. rewrite <- (take_drop n l) at 1.
  apply sublist_app; [done|]. by apply sublist_cons_r; left.
Qed.

Lemma splice_perm {A} (n : nat) (x : A) (l : list A) : splice n x l ≡ₚ x :: l.
Proof.
  unfold splice. rewrite <- Permutation_middle. by rewrite take_drop.
Qed.

(** Whatever the state, the loop of [insert] only adds to [content]: the
    old characters stay, in their order, and the new ones are those of the
    returned operations. *)
Lemma insert_loop_sublist text : ∀ s d position origin i,
  let res := insert_loop s d position origin text i in
  content d `sublist_of` content res.1.2 ∧
  content res.1.2 ≡ₚ (op_char <$> res.2) ++ content d ∧
  clientId res.1.2 = clientId d.
Proof.
  induction text as [|u rest IH]; intros s d position origin i; simpl.
  { done. }
  match goal with |- context [insert_loop ?s1 ?d1 _ _ _ _] =>
    specialize (IH s1 d1 position origin (i + 1));
    destruct (insert_loop s1 d1 position origin rest (i + 1)) as [[s2 d2] ops]
  end.
  simpl in *. destruct IH as (Hsub & Hperm & Hcid). split; [|split; [|done]].
  - etrans; [|exact Hsub]. apply splice_sublist.
  - rewrite Hperm, splice_perm. symmetry. apply Permutation_middle.
Qed.

Lemma insert_loop_new_visible text : ∀ s d position origin i,
  let res := insert_loop s d position origin text i in
  Forall (visible res.1.1) (op_char <$> res.2).
Proof.
  induction text as [|u rest IH]; intros s d position origin i; simpl.
  { constructor. }
  match goal with |- context [insert_loop ?s1 ?d1 _ _ _ _] =>
    specialize (IH s1 d1 position origin (i + 1));
    pose proof (insert_loop_flags rest s1 d1 position origin (i + 1)) as Hfl;
    destruct (insert_loop s1 d1 position origin rest (i + 1)) as [[s2 d2] ops]
  end.
  simpl in *. constructor; [|done].
  unfold visible. rewrite Hfl by (simpl; lia).
  change (mkStore (S (next_ref s)) (tombstoned s ∖ {[next_ref s]}))
    with (new_object s).2.
  rewrite new_object_flags. simpl.
  rewrite bool_decide_eq_true_2 by done. apply andb_false_r.
Qed.






Lemma filter_visible_sublist s s' (l1 l2 : list Char) :
  l1 `sublist_of` l2 →
  (∀ c, c ∈ l1 → char_deleted s' c = char_deleted s c) →
  filter (visible s) l1 `sublist_of` filter (visible s') l2.
Proof.
  induction 1 as [|x l1 l2 _ IH|x l1 l2 _ IH]; intros Hfl.
  - done.
  - rewrite !filter_visible_cons, (Hfl x) by by left.
    destruct (char_deleted s x).
    + apply IH. intros c Hc. apply Hfl. by right.
    + apply sublist_skip, IH. intros c Hc. apply Hfl. by right.
  - rewrite filter_visible_cons. destruct (char_deleted s' x).
    + by apply IH.
    + by apply sublist_cons, IH.
Qed.

Lemma string_length_of_list l :
  String.length (string_of_list_ascii l) = List.length l.
Proof. induction l as [|a l IH]; simpl; [done|]. by rewrite IH. Qed.

Lemma list_ascii_length text :
  List.length (list_ascii_of_string text) = String.length text.
Proof. induction text as [|a t IH]; simpl; [done|]. by rewrite IH. Qed.

(** X2.  On a replica whose characters are objects of the store, [insert]
    at any position, tombstones before it or not, loses nothing: the old
    characters stay in [content] in their order with their flags as they
    were, so the old visible text is a subsequence of the new one, which is
    longer by exactly the length of [text]. *)
Theorem insert_keeps_the_old_text s d position text origin :
  Forall (λ c, (char_ref c < next_ref s)%nat) (content d) →
  let res := insert s d position text origin in
  content d `sublist_of` content res.1.2 ∧
  List.length (content res.1.2) =
    (List.length (content d) + String.length text)%nat ∧
  (∀ c, c ∈ content d → char_deleted res.1.1 c = char_deleted s c) ∧
  visibleValues s (content d) `sublist_of`
    visibleValues res.1.1 (content res.1.2) ∧
  String.length (getText res.1.1 res.1.2) =
    (String.length (getText s d) + String.length text)%nat.
Proof.
  intros Hwf res.
  destruct (insert_unfold s d position text origin) as (Hs & Hc & _ & Ho).
  fold res in Hs, Hc, Ho.
  pose proof (insert_loop_sublist text s d position origin 0) as (Hsub & Hperm & _).
  pose proof (insert_loop_new_visible text s d position origin 0) as Hvis.
  pose proof (insert_loop_ops s d position origin text 0) as (Hops & _).
  cbv zeta in Hsub, Hperm, Hvis. rewrite <- Hc in Hsub, Hperm.
  rewrite <- Ho in Hperm, Hvis, Hops. rewrite <- Hs in Hvis.
  assert (∀ c, c ∈ content d → char_deleted res.1.1 c = char_deleted s c)
    as Hfl.
  { intros c Hcd. rewrite Hs. apply insert_loop_flags.
    rewrite Forall_forall in Hwf. by apply Hwf. }
  assert (List.length res.2 = String.length text) as Hlen.
  { by rewrite Hops, emitted_length. }
  split; [done|]. split; [|split; [done|split]].
  - rewrite Hperm, length_app, length_fmap. lia.
  - unfold visibleValues. apply fmap_sublist.
    by apply filter_visible_sublist.
  - unfold getText, visibleValues.
    rewrite !string_length_of_list, !length_fmap.
    rewrite Hperm, filter_app, length_app.
    assert (filter (visible res.1.1) (op_char <$> res.2) = op_char <$> res.2)
      as ->.
    { clear -Hvis. induction Hvis as [|c l Hc _ IH]; [done|].
      rewrite filter_visible_cons, Hc. by rewrite IH. }
    rewrite length_fmap, Hlen.
    rewrite (filter_visible_ext res.1.1 s (content d)); [lia|].
    apply Forall_forall. intros c Hcd. by apply Hfl.
Qed.


(** ** [undo] and [redo] of a delete *)

Lemma mark_chars_store b l : ∀ s,
  next_ref (mark_chars b l s) = next_ref s ∧
  tombstoned (mark_chars b l s) =
    if b then list_to_set (char_ref <$> l) ∪ tombstoned s
    else tombstoned s ∖ list_to_set (char_ref <$> l).
Proof.
  unfold mark_chars. induction l as [|c l IH]; intros s; simpl.
  { split; [done|]. destruct b; apply set_eq; intros x;
      rewrite ?elem_of_union, ?elem_of_difference, elem_of_empty; tauto. }
  destruct (IH (set_deleted b c s)) as [-> ->]. split; [done|].
  destruct b; simpl; apply set_eq; intros x;
    rewrite ?elem_of_union, ?elem_of_difference, ?elem_of_union,
      ?elem_of_singleton; tauto.
Qed.

(** What the loop of [delete] does to the store, in every state: it sets
    the flag of the characters it emits, which were visible, and of no
    other. *)
Lemma delete_loop_tombstones position length origin l :
  ∀ s deleted currentPos,
  let res := delete_loop s l position length origin deleted currentPos in
  next_ref res.1 = next_ref s ∧
  tombstoned res.1 =
    list_to_set (char_ref <$> (op_char <$> res.2)) ∪ tombstoned s ∧
  Forall (λ op, char_ref (op_char op) ∉ tombstoned s) res.2.
Proof.
  induction l as [|c l IH]; intros s deleted currentPos; simpl.
  { split; [done|]. split; [|done]. apply set_eq. intros x.
    rewrite elem_of_union, elem_of_empty. tauto. }
  destruct (deleted <? length).
  2:{ split; [done|]. split; [|done]. apply set_eq. intros x.
      simpl. rewrite elem_of_union, elem_of_empty. tauto. }
  destruct (char_deleted s c) eqn:Hcd; [apply IH|].
  destruct (position <=? currentPos); [|apply IH].
  specialize (IH (set_deleted true c s) (deleted + 1) (currentPos + 1)).
  destruct (delete_loop (set_deleted true c s) l position length origin
              (deleted + 1) (currentPos + 1)) as [s' ops].
  simpl in *. destruct IH as (-> & -> & Hall). split; [done|]. split.
  - apply set_eq. intros x.
    rewrite !elem_of_union, elem_of_singleton. tauto.
  - constructor; [by apply char_deleted_false|].
    eapply Forall_impl; [exact Hall|]. intros op Hop Hin. apply Hop.
    apply elem_of_union. by right.
Qed.

Lemma getText_frame s1 s2 d1 d2 :
  tombstoned s1 = tombstoned s2 → content d1 = content d2 →
  getText s1 d1 = getText s2 d2.
Proof.
  intros Hs Hc. unfold getText, visibleValues. rewrite Hc. do 2 f_equal.
  apply filter_visible_ext, Forall_forall. intros c _.
  unfold char_deleted. by rewrite Hs.
Qed.

Lemma delete_local_unfold s d position length :
  let res := delete_loop s (content d) position length "local" 0 0 in
  delete s d position length "local" =
  (res.1,
   set_redoStack []
     (set_undoStack
        (undoStack d ++ [EDelete position (op_char <$> res.2) false]) d),
   res.2).
Proof.
  unfold delete.
  by destruct (delete_loop s (content d) position length "local" 0 0).
Qed.

Lemma undo_of_local_delete s d position length :
  let r := delete s d position length "local" in
  let u := undo r.1.1 r.1.2 in
  u.1 = s ∧
  u.2 = set_redoStack [EDelete position (op_char <$> r.2) true] d.
Proof.
  intros r u. subst u r. rewrite delete_local_unfold. cbn [fst snd].
  pose proof (delete_loop_tombstones position length "local" (content d) s 0 0)
    as (Hn & Ht & Hvis).
  destruct (delete_loop s (content d) position length "local" 0 0)
    as [s1 ops].
  cbn [fst snd] in *. unfold undo. simpl. rewrite pop_snoc. simpl.
  destruct (mark_chars_store false (op_char <$> ops) s1) as [Hn' Ht'].
  assert (mark_chars false (op_char <$> ops) s1 = s) as Hs.
  { apply store_eq; [congruence|]. rewrite Ht', Ht. apply set_eq. intros x.
    rewrite elem_of_difference, elem_of_union. split; [tauto|].
    intros Hx. split; [by right|]. intros Hin.
    apply elem_of_list_to_set, list_elem_of_fmap in Hin as (c & -> & Hc).
    apply list_elem_of_fmap in Hc as (op & -> & Hop).
    rewrite Forall_forall in Hvis. by apply (Hvis op Hop). }
  rewrite Hs. split; [done|]. by destruct d.
Qed.

(** X4.  In every state, a local [delete] followed at once by [undo]
    gives the state before the delete back: the store with every flag as
    it was, the same [content], clock table and undo stack, and so the
    same visible text.  Only the redo stack differs: it holds the undone
    delete, marked [isRedo]. *)
Theorem undo_of_delete_restores_the_state s d position length :
  let r := delete s d position length "local" in
  let u := undo r.1.1 r.1.2 in
  u.1 = s ∧
  u.2 = set_redoStack [EDelete position (op_char <$> r.2) true] d ∧
  getText u.1 u.2 = getText s d.
Proof.
  intros r u.
  destruct (undo_of_local_delete s d position length) as (Hs & Hd).
  fold r in Hs, Hd. fold u in Hs, Hd. split; [done|]. split; [done|].
  rewrite Hs, Hd. by apply getText_frame.
Qed.

(** X5.  [redo] after that [undo] tombstones the very characters the
    delete had tombstoned: store and visible text are those after the
    delete, the redo stack is empty again, and the undo stack holds the
    delete's entry once more, now marked [isRedo]. *)
Theorem redo_of_delete_tombstones_the_same_characters s d position length :
  let r := delete s d position length "local" in
  let u := undo r.1.1 r.1.2 in
  let v := redo u.1 u.2 in
  v.1 = r.1.1 ∧
  v.2 = set_undoStack
          (undoStack d ++ [EDelete position (op_char <$> r.2) true]) r.1.2 ∧
  getText v.1 v.2 = getText r.1.1 r.1.2.
Proof.
  intros r u v.
  destruct (undo_of_local_delete s d position length) as (Hs & Hd).
  fold r in Hs, Hd. fold u in Hs, Hd. subst v. rewrite Hs, Hd.
  subst u r. rewrite delete_local_unfold. cbn [fst snd].
  pose proof (delete_loop_tombstones position length "local" (content d) s 0 0)
    as (Hn & Ht & _).
  destruct (delete_loop s (content d) position length "local" 0 0)
    as [s1 ops].
  cbn [fst snd] in *. unfold redo. simpl.
  destruct (mark_chars_store true (op_char <$> ops) s) as [Hn' Ht'].
  assert (mark_chars true (op_char <$> ops) s = s1) as Hs1.
  { apply store_eq; congruence. }
  rewrite Hs1. split; [done|]. split; [done|]. by apply getText_frame.
Qed.

(** ** The two stacks under [undo] and [redo] *)

Lemma delete_not_local s d position length origin :
  origin ≠ "local" → (delete s d position length origin).1.2 = d.
Proof.
  intros H. unfold delete.
  destruct (delete_loop s (content d) position length origin 0 0).
  by rewrite decide_False.
Qed.

Lemma insert_not_local_stacks s d position text origin :
  origin ≠ "local" →
  undoStack (insert s d position text origin).1.2 = undoStack d ∧
  redoStack (insert s d position text origin).1.2 = redoStack d.
Proof.
  intros H. unfold insert.
  pose proof (insert_loop_stacks s d position origin text 0) as (Hu & Hr & _).
  destruct (insert_loop s d position origin text 0) as [[s1 d1] ops].
  by rewrite decide_False.
Qed.

Lemma pop_Some_snoc {A} (l : list A) rest x :
  pop l = Some (rest, x) → l = rest ++ [x].
Proof.
  revert rest. induction l as [|y l IH]; intros rest; simpl; [done|].
  destruct (pop l) as [[rest' z]|] eqn:E.
  - intros [= <- <-]. simpl. f_equal. by apply IH.
  - intros [= <- <-]. destruct l as [|z l]; [done|]. simpl in E.
    by destruct (pop l) as [[? ?]|].
Qed.

(** X6.  [undo] on an empty undo stack and [redo] on an empty redo stack
    change nothing.  Otherwise [undo] takes the newest entry off the undo
    stack and puts it, marked [isRedo], on the redo stack, whose other
    entries stay; the [redo] that follows puts it back on the undo stack,
    still marked, and the redo stack is as before the [undo].  The
    [delete] and [insert] that [undo] and [redo] call touch neither
    stack. *)
Theorem undo_and_redo_move_one_entry s d :
  match pop (undoStack d) with
  | None => undo s d = (s, d)
  | Some (rest, e) =>
      let u := undo s d in
      undoStack u.2 = rest ∧ redoStack u.2 = redoStack d ++ [with_isRedo e] ∧
      let v := redo u.1 u.2 in
      undoStack v.2 = rest ++ [with_isRedo e] ∧ redoStack v.2 = redoStack d
  end ∧
  match pop (redoStack d) with
  | None => redo s d = (s, d)
  | Some (rest, e) =>
      redoStack (redo s d).2 = rest ∧
      undoStack (redo s d).2 = undoStack d ++ [e]
  end.
Proof.
  split.
  - unfold undo. destruct (pop (undoStack d)) as [[rest e]|]; [|done].
    destruct e as [text position count b|position chars b]; cbv zeta.
    + pose proof (delete_not_local s (set_undoStack rest d) position count
                    "undo") as Hd.
      destruct (delete s (set_undoStack rest d) position count "undo")
        as [[s2 d2] ops].
      simpl in Hd. rewrite Hd by done. simpl. split; [done|]. split; [done|].
      unfold redo. simpl. rewrite pop_snoc.
      match goal with |- context [insert ?a ?b ?c ?e "redo"] =>
        pose proof (insert_not_local_stacks a b c e "redo") as [Hu Hr];
        [done|destruct (insert a b c e "redo") as [[s3 d3] ops3]]
      end.
      simpl in *. by rewrite Hu, Hr.
    + simpl. split; [done|]. split; [done|].
      unfold redo. simpl. by rewrite pop_snoc.
  - unfold redo. destruct (pop (redoStack d)) as [[rest e]|]; [|done].
    destruct e as [text position count b|position chars b].
    + match goal with |- context [insert ?a ?b ?c ?e "redo"] =>
        pose proof (insert_not_local_stacks a b c e "redo") as [Hu Hr];
        [done|destruct (insert a b c e "redo") as [[s3 d3] ops3]]
      end.
      simpl in *. by rewrite Hu, Hr.
    + done.
Qed.

(** X7.  A local [insert] or [delete] empties the redo stack, so the
    [redo] that follows changes nothing: what had been undone before the
    edit cannot be redone. *)
Theorem redo_after_a_local_edit_does_nothing s d position text length :
  let i := insert s d position text "local" in
  let r := delete s d position length "local" in
  redo i.1.1 i.1.2 = (i.1.1, i.1.2) ∧ redo r.1.1 r.1.2 = (r.1.1, r.1.2).
Proof.
  intros i r. subst i r. split.
  - unfold insert.
    destruct (insert_loop s d position "local" text 0) as [[s1 d1] ops].
    by rewrite decide_True.
  - by rewrite delete_local_unfold.
Qed.

(** ** [redo] of an undone insert *)





(** ** [applyRemoteOps]: what it leaves alone *)

Lemma applyRemoteOp_doc lc s d op :
  (applyRemoteOp lc (s, d) op).2 =
  set_content (content (applyRemoteOp lc (s, d) op).2) d.
Proof.
  unfold applyRemoteOp.
  destruct (decide (op_type op = "insert")).
  { destruct (_ =? -1); simpl; [done|by rewrite set_content_id]. }
  destruct (decide (op_type op = "delete")).
  { destruct (find _ _); simpl; by rewrite set_content_id. }
  simpl. by rewrite set_content_id.
Qed.

Lemma applyRemoteOps_doc lc ops : ∀ s d,
  (applyRemoteOps lc s d ops).2 =
  set_content (content (applyRemoteOps lc s d ops).2) d.
Proof.
  induction ops as [|op ops IH]; intros s d.
  { simpl. by rewrite set_content_id. }
  rewrite run_cons, IH. rewrite (applyRemoteOp_doc lc s d op) at 2. done.
Qed.

(** X9.  [applyRemoteOps] only adds characters and sets [deleted] flags.
    It leaves the client id, the clock table and both stacks of the
    replica as they are and creates no object.  Every character of
    [content] stays, and every new one is the character of an insert of
    the list; every tombstone stays a tombstone, and every new tombstone
    is a character of [content] whose id a delete of the list names.  Ids
    that were pairwise distinct stay so. *)
Theorem applyRemoteOps_only_adds_and_tombstones lc s d ops :
  let r := applyRemoteOps lc s d ops in
  r.2 = set_content (content r.2) d ∧
  next_ref r.1 = next_ref s ∧
  (∀ c, c ∈ content d → c ∈ content r.2) ∧
  (∀ c, c ∈ content r.2 →
        c ∈ content d ∨
        ∃ op, op ∈ ops ∧ op_type op = "insert" ∧ c = op_char op) ∧
  (∀ c, char_deleted s c = true → char_deleted r.1 c = true) ∧
  (∀ c, char_deleted r.1 c = true →
        char_deleted s c = true ∨
        ∃ c', c' ∈ content r.2 ∧ char_ref c' = char_ref c ∧
              deleted_in ops (char_id c') = true) ∧
  (NoDup (char_id <$> content d) → NoDup (char_id <$> content r.2)).
Proof.
  intros r. subst r. split; [apply applyRemoteOps_doc|].
  split; [apply run_store|].
  split; [intros c; apply run_content_mono|].
  split; [intros c; apply run_content_origin|].
  split; [intros c; apply run_deleted_mono|].
  split; [|apply run_NoDup].
  intros c Hc. apply char_deleted_true in Hc.
  apply run_tombstoned_origin in Hc as [Hc|(c' & ? & ? & ?)].
  - left. by apply char_deleted_true.
  - right. by exists c'.
Qed.

(** ** [applyRemoteOps]: the order of [content] *)

Section Order.
Variable localeCompare : string → string → Z.
Hypothesis Hcollation : Collation localeCompare.

Local Abbreviation run := (applyRemoteOps localeCompare).
Local Abbreviation kle := (key_le localeCompare).

Lemma run_sorts_at_a_new_insert ops : ∀ s d op,
  op ∈ ops → op_type op = "insert" →
  char_id (op_char op) ∉ char_id <$> content d →
  StronglySorted kle (content (run s d ops).2).
Proof.
  induction ops as [|op0 ops IH]; intros s d op Hop Hi Hnew.
  { by apply elem_of_nil in Hop. }
  rewrite run_cons.
  destruct (step_cases localeCompare s d op0)
    as [(_ & _ & _ & _ & Hc)|[(Hd & c & _ & _ & Hs)|(Hs & Hk & _)]].
  - apply run_sorted; [done|]. rewrite Hc. by apply js_sort_sorted.
  - rewrite Hs. cbn [fst snd].
    apply elem_of_cons in Hop as [->|Hop]; [congruence|]. by eapply IH.
  - rewrite Hs. cbn [fst snd].
    apply elem_of_cons in Hop as [->|Hop]; [by destruct Hnew; auto|].
    by eapply IH.
Qed.

(** X10.  With [localeCompare] a strict total order, [applyRemoteOps]
    keeps a [content] that is sorted by client id and then clock sorted.
    If the list holds an insert whose id the replica does not know,
    [content] is sorted afterwards whatever its order was: the replica's
    own characters, which [insert] placed by position, are moved to
    their place in the order of ids as well. *)
Theorem applyRemoteOps_sorts_content s d ops :
  let r := applyRemoteOps localeCompare s d ops in
  (StronglySorted (key_le localeCompare) (content d) →
   StronglySorted (key_le localeCompare) (content r.2)) ∧
  (∀ op, op ∈ ops → op_type op = "insert" →
         char_id (op_char op) ∉ char_id <$> content d →
         StronglySorted (key_le localeCompare) (content r.2)).
Proof.
  intros r. split.
  - by apply run_sorted.
  - intros op. by apply run_sorts_at_a_new_insert.
Qed.




End Order.







(** ** The saved state *)

Lemma char_deleted_set_deleted b c s c' :
  char_deleted (set_deleted b c s) c' =
  if decide (char_ref c' = char_ref c) then b else char_deleted s c'.
Proof.
  unfold char_deleted, set_deleted. simpl. apply eq_true_iff_eq.
  rewrite bool_decide_eq_true.
  destruct (decide (char_ref c' = char_ref c)) as [->|Hne], b;
    rewrite ?elem_of_union, ?elem_of_difference, ?elem_of_singleton,
      ?bool_decide_eq_true; split; try tauto; try done.
Qed.

(** [JSON.parse] gives every serialised character a new address, writes
    its fields and its flag, and touches no object that exists. *)
Lemma parse_chars_spec l : ∀ s,
  let res := parse_chars s l in
  next_ref res.1 = (next_ref s + List.length l)%nat ∧
  char_ref <$> res.2 = seq (next_ref s) (List.length l) ∧
  wire_char res.1 <$> res.2 = l ∧
  (∀ c, (char_ref c < next_ref s)%nat →
        char_deleted res.1 c = char_deleted s c).
Proof.
  induction l as [|w l IH]; intros s; simpl.
  { split; [lia|done]. }
  set (c := mkChar (next_ref s) (w_id w) (w_value w) (w_clientId w)
              (w_clock w) (w_position w)).
  set (s1 := mkStore (S (next_ref s)) (tombstoned s ∖ {[next_ref s]})).
  assert (s1 = (new_object s).2) as Hs1 by done.
  specialize (IH (set_deleted (w_deleted w) c s1)).
  destruct (parse_chars (set_deleted (w_deleted w) c s1) l) as [s2 cs].
  simpl in *. destruct IH as (Hn & Hr & Hw & Hfl).
  split; [lia|]. split; [f_equal; exact Hr|]. split.
  - f_equal; [|exact Hw]. unfold wire_char. rewrite Hfl by (simpl; lia).
    rewrite char_deleted_set_deleted, decide_True by done. by destruct w.
  - intros c' Hc'. rewrite Hfl by lia.
    rewrite char_deleted_set_deleted, decide_False by (simpl; lia).
    subst s1. change (mkStore (S (next_ref s)) (tombstoned s ∖ {[next_ref s]}))
      with (new_object s).2.
    rewrite new_object_flags, bool_decide_eq_false_2 by lia.
    apply andb_true_r.
Qed.

(** X12.  Saving and restoring is a round trip on what a replica shows.
    Whatever the state [s0], [d0] that was saved and the replica [d] that
    restores it: afterwards [d] reads the saved visible text and holds the
    saved characters field by field, flags included, and the saved clock
    table.  The characters are new objects (no flag of an existing object
    changes), and the client id and both stacks of [d] are kept:
    [state.clientId] is not read. *)
Theorem restore_reproduces_the_saved_state s0 d0 s d :
  let r := restore s d (save s0 d0) in
  getText r.1 r.2 = getText s0 d0 ∧
  wire_char r.1 <$> content r.2 = wire_char s0 <$> content d0 ∧
  vectorClock r.2 = vectorClock d0 ∧
  clientId r.2 = clientId d ∧
  undoStack r.2 = undoStack d ∧ redoStack r.2 = redoStack d ∧
  char_ref <$> content r.2 =
    seq (next_ref s) (List.length (content d0)) ∧
  (∀ c, (char_ref c < next_ref s)%nat →
        char_deleted r.1 c = char_deleted s c).
Proof.
  intros r. subst r. unfold restore, parse_state.
  assert (saved_content (save s0 d0) = wire_char s0 <$> content d0) as Hsc
    by done.
  pose proof (parse_chars_spec (saved_content (save s0 d0)) s) as H.
  destruct (parse_chars s (saved_content (save s0 d0))) as [s1 cs].
  cbn [fst snd] in *. destruct H as (_ & Hr & Hw & Hfl).
  rewrite Hsc in Hr, Hw. rewrite length_fmap in Hr.
  unfold setState, getText.
  cbn [content vectorClock clientId undoStack redoStack state_content
       state_vectorClock].
  split; [|done]. by rewrite !visibleValues_wire, Hw.
Qed.

(** * The simulated connection *)

Lemma broadcast_fold a message l : ∀ net,
  foldl (λ n conn,
           if decide (conn ≠ a) then
             if is_connected n conn
             then mkNetwork (next_conn n) (conn_heap n) (registered n)
                            (timers n ++ [(conn, message)])
             else n
           else n) net l =
  with_timers
    (timers net ++
     ((λ c, (c, message)) <$>
        filter (λ c, c ≠ a ∧ is_connected net c) l)) net.
Proof.
  induction l as [|c l IH]; intros net; simpl.
  { rewrite app_nil_r. by destruct net. }
  rewrite IH. rewrite filter_cons.
  destruct (decide (c ≠ a)) as [Hne|He].
  - destruct (is_connected net c) eqn:Hc.
    + rewrite decide_True by done. unfold with_timers. simpl.
      by rewrite <- app_assoc.
    + rewrite decide_False by (intros [_ H]; done). done.
  - rewrite decide_False by (intros [H _]; done). done.
Qed.

Lemma broadcast_spec a message net :
  broadcast a message net =
  with_timers (timers net ++ ((λ c, (c, message)) <$> peers a net)) net.
Proof. unfold broadcast, peers. apply broadcast_fold. Qed.

Lemma peers_ext a net1 net2 :
  registered net1 = registered net2 →
  (∀ c, c ≠ a → conn_heap net1 !! c = conn_heap net2 !! c) →
  peers a net1 = peers a net2.
Proof.
  intros Hr Hh. unfold peers. rewrite Hr. apply list_filter_iff.
  intros c. unfold is_connected. split; intros [Hne Hc]; split; try done.
  - by rewrite <- Hh.
  - by rewrite Hh.
Qed.

Lemma reconnect_loop_spec a queue : ∀ net conn,
  conn_heap net !! a = Some conn → messageQueue conn = queue →
  reconnect_loop a queue net =
  set_conn a (mkConnection (conn_clientId conn) (connected conn) [])
    (with_timers
       (timers net ++ (queue ≫= λ m, (λ c, (c, m)) <$> peers a net)) net).
Proof.
  induction queue as [|m rest IH]; intros net conn Ha Hq; simpl.
  { rewrite app_nil_r. unfold set_conn, with_timers. simpl.
    rewrite <- Hq. destruct net as [n h r t]. simpl in *. f_equal.
    symmetry. apply insert_id. by destruct conn. }
  rewrite Ha. rewrite broadcast_spec.
  set (conn1 := mkConnection (conn_clientId conn) (connected conn) rest).
  set (net1 := set_conn a conn1 net).
  assert (peers a net1 = peers a net) as Hp.
  { apply peers_ext; [done|]. intros c Hc. subst net1. simpl.
    by rewrite lookup_insert_ne. }
  rewrite (IH _ conn1); [| |done].
  2:{ subst net1. simpl. apply lookup_insert_eq. }
  rewrite Hp.
  assert (peers a (with_timers
                     (timers net1 ++ ((λ c, (c, m)) <$> peers a net)) net1) =
          peers a net) as ->.
  { rewrite <- Hp. by apply peers_ext. }
  unfold set_conn, with_timers. subst net1 conn1. simpl.
  rewrite insert_insert_eq, <- app_assoc. done.
Qed.

Lemma sends_while_disconnected a messages : ∀ net conn,
  conn_heap net !! a = Some conn → connected conn = false →
  foldl (λ n m, send_message a m n) net messages =
  set_conn a
    (mkConnection (conn_clientId conn) false (messageQueue conn ++ messages))
    net.
Proof.
  induction messages as [|m rest IH]; intros net conn Ha Hc; simpl.
  { rewrite app_nil_r. unfold set_conn. destruct net as [n h r t].
    simpl in *. f_equal. symmetry. apply insert_id. rewrite Ha. f_equal.
    destruct conn. simpl in *. by subst. }
  unfold send_message at 2. rewrite Ha, Hc.
  rewrite (IH _ (mkConnection (conn_clientId conn) false
                   (messageQueue conn ++ [m]))); [| |done].
  2:{ simpl. apply lookup_insert_eq. }
  unfold set_conn. simpl. by rewrite insert_insert_eq, <- app_assoc.
Qed.

(** X13.  What a connection is asked to send while it is disconnected is
    kept, and sent when it reconnects.  After [disconnect], any number of
    [send] calls start no timer and leave the messages in the queue
    behind those already there; [reconnect] then broadcasts the whole
    queue, oldest message first, each message to every registered
    connection other than the sender that is connected at that moment,
    and leaves the queue empty and the connection connected. *)
Theorem reconnect_sends_the_queue_in_order a conn net messages :
  conn_heap net !! a = Some conn →
  let net1 := foldl (λ n m, send_message a m n) (disconnect a net) messages in
  let net2 := reconnect a net1 in
  timers net1 = timers net ∧
  conn_heap net1 !! a =
    Some (mkConnection (conn_clientId conn) false
            (messageQueue conn ++ messages)) ∧
  timers net2 =
    timers net ++
    ((messageQueue conn ++ messages) ≫=
       λ m, (λ c, (c, m)) <$> peers a net) ∧
  conn_heap net2 !! a = Some (mkConnection (conn_clientId conn) true []).
Proof.
  intros Ha net1 net2.
  assert (net1 =
          set_conn a
            (mkConnection (conn_clientId conn) false
               (messageQueue conn ++ messages)) net) as H1.
  { subst net1. unfold disconnect. rewrite Ha.
    erewrite sends_while_disconnected;
      [|simpl; apply lookup_insert_eq|done].
    unfold set_conn. simpl. by rewrite insert_insert_eq. }
  assert (conn_heap net1 !! a =
          Some (mkConnection (conn_clientId conn) false
                  (messageQueue conn ++ messages))) as Ha1.
  { rewrite H1. simpl. apply lookup_insert_eq. }
  split; [by rewrite H1|]. split; [done|].
  subst net2. unfold reconnect. rewrite Ha1. cbn [conn_clientId messageQueue].
  erewrite reconnect_loop_spec; [|simpl; apply lookup_insert_eq|done].
  cbn [timers set_conn with_timers conn_heap]. split.
  - match goal with |- context [peers a ?n] =>
      assert (peers a n = peers a net) as ->
    end.
    { apply peers_ext; [by rewrite H1|]. intros c Hc. rewrite H1. simpl.
      by rewrite !lookup_insert_ne. }
    by rewrite H1.
  - simpl. apply lookup_insert_eq.
Qed.

(** ** What a disconnected connection is sent *)

Lemma timers_for_broadcast a message p net :
  a = p ∨ is_connected net p = false →
  timers_for p (broadcast a message net) = timers_for p net.
Proof.
  intros H. rewrite broadcast_spec. unfold timers_for, with_timers. simpl.
  rewrite filter_app.
  assert (filter (λ t : nat * Message, t.1 = p)
            ((λ c, (c, message)) <$> peers a net) = []) as ->.
  { apply elem_of_nil_inv. intros [c m] Hin.
    apply list_elem_of_filter in Hin as [Hc Hin]. simpl in Hc. subst c.
    apply list_elem_of_fmap in Hin as (c & [= <- _] & Hin).
    apply list_elem_of_filter in Hin as [[Hne Hcon] _].
    destruct H as [->|H]; [done|]. by rewrite H in Hcon. }
  by rewrite app_nil_r.
Qed.

Lemma is_connected_broadcast a message net c :
  is_connected (broadcast a message net) c = is_connected net c.
Proof. by rewrite broadcast_spec. Qed.

Lemma is_connected_set_conn a conn net c :
  c ≠ a → is_connected (set_conn a conn net) c = is_connected net c.
Proof.
  intros H. unfold is_connected, set_conn. simpl. by rewrite lookup_insert_ne.
Qed.

Lemma reconnect_loop_frame a p queue : ∀ net,
  a = p ∨ is_connected net p = false →
  timers_for p (reconnect_loop a queue net) = timers_for p net ∧
  next_conn (reconnect_loop a queue net) = next_conn net ∧
  (a ≠ p →
   is_connected (reconnect_loop a queue net) p = is_connected net p).
Proof.
  induction queue as [|m rest IH]; intros net H; simpl; [done|].
  set (net1 := match conn_heap net !! a with
               | Some conn => set_conn a _ net
               | None => net
               end).
  assert (timers net1 = timers net ∧ next_conn net1 = next_conn net ∧
          (a ≠ p → is_connected net1 p = is_connected net p))
    as (Ht & Hn & Hc).
  { subst net1. destruct (conn_heap net !! a); [|done].
    split; [done|]. split; [done|]. intros Hne.
    by apply is_connected_set_conn. }
  assert (a = p ∨ is_connected net1 p = false) as H1.
  { destruct H as [?|H]; [by left|].
    destruct (decide (a = p)) as [?|Hne]; [by left|].
    right. by rewrite Hc. }
  destruct (IH (broadcast a m net1)) as (IH1 & IH2 & IH3).
  { destruct H1 as [?|H1]; [by left|]. right.
    by rewrite is_connected_broadcast. }
  rewrite IH1, IH2, timers_for_broadcast by done.
  split; [unfold timers_for; by rewrite Ht|].
  split; [by rewrite broadcast_spec|].
  intros Hne. rewrite IH3, is_connected_broadcast by done. by apply Hc.
Qed.

Lemma net_step_offline p net act :
  is_connected net p = false → (p < next_conn net)%nat →
  act ≠ ActReconnect p →
  is_connected (net_step net act) p = false ∧
  (p < next_conn (net_step net act))%nat ∧
  timers_for p (net_step net act) = timers_for p net.
Proof.
  intros Hoff Hp Hact. destruct act as [cid|a m|a|a|a]; simpl.
  - split; [|split; [lia|done]].
    unfold is_connected in *. simpl. rewrite lookup_insert_ne by lia. done.
  - unfold send_message. destruct (conn_heap net !! a) as [conn|] eqn:Ha;
      [|done].
    destruct (connected conn) eqn:Hc.
    + rewrite is_connected_broadcast, timers_for_broadcast by (by right).
      split; [done|]. split; [|done]. by rewrite broadcast_spec.
    + split; [|done]. unfold is_connected in *. simpl.
      destruct (decide (p = a)) as [->|Hne].
      * by rewrite lookup_insert_eq.
      * by rewrite lookup_insert_ne.
  - unfold disconnect. destruct (conn_heap net !! a) as [conn|] eqn:Ha;
      [|done].
    split; [|done]. unfold is_connected in *. simpl.
    destruct (decide (p = a)) as [->|Hne].
    + by rewrite lookup_insert_eq.
    + by rewrite lookup_insert_ne.
  - assert (a ≠ p) as Hne by congruence.
    unfold reconnect. destruct (conn_heap net !! a) as [conn|] eqn:Ha;
      [|done].
    match goal with |- context [reconnect_loop a ?q ?n] =>
      destruct (reconnect_loop_frame a p q n) as (H1 & H2 & H3)
    end.
    { right. by rewrite is_connected_set_conn. }
    rewrite H1, H2, H3 by done.
    by rewrite is_connected_set_conn.
  - done.
Qed.

(** X14.  A disconnected connection is sent nothing, and what it missed
    is not sent again.  While the connection [p] is disconnected,
    whatever the editors of the page do other than reconnect [p] (open
    connections, send, disconnect, reconnect, destroy), [p] stays
    disconnected and no timer is started for it; and [reconnect] of [p]
    itself starts timers for the others only. *)
Theorem disconnected_connection_is_sent_nothing p net acts :
  is_connected net p = false → (p < next_conn net)%nat →
  Forall (λ act, act ≠ ActReconnect p) acts →
  let net' := foldl net_step net acts in
  is_connected net' p = false ∧
  timers_for p net' = timers_for p net ∧
  timers_for p (reconnect p net') = timers_for p net.
Proof.
  intros Hoff Hp Hacts net'.
  assert (is_connected net' p = false ∧ (p < next_conn net')%nat ∧
          timers_for p net' = timers_for p net) as (H1 & H2 & H3).
  { subst net'. revert net Hoff Hp.
    induction Hacts as [|act acts Hact _ IH]; intros net Hoff Hp; [done|].
    simpl.
    destruct (net_step_offline p net act Hoff Hp Hact) as (Ho & Hn & Ht).
    destruct (IH _ Ho Hn) as (? & ? & ?). split; [done|]. split; [done|].
    congruence. }
  split; [done|]. split; [done|]. rewrite <- H3.
  unfold reconnect. destruct (conn_heap net' !! p) as [conn|]; [|done].
  match goal with |- context [reconnect_loop p ?q ?n] =>
    destruct (reconnect_loop_frame p p q n) as (Hr & _)
  end; [by left|].
  by rewrite Hr.
Qed.

(** * The editor *)

Lemma substring_of_list (l : list ascii) : ∀ n m,
  String.substring n m (string_of_list_ascii l) =
  string_of_list_ascii (take m (drop n l)).
Proof.
  induction l as [|x l IH]; intros n m; simpl.
  { destruct n, m; done. }
  destruct n as [|n]; simpl.
  - destruct m as [|m]; simpl; [done|]. f_equal. apply (IH 0%nat).
  - apply IH.
Qed.

Lemma slice_of_list (l : list ascii) (i j : nat) :
  (i ≤ j)%nat → (j ≤ List.length l)%nat →
  slice (string_of_list_ascii l) (Z.of_nat i) (Z.of_nat j) =
  string_of_list_ascii (take (j - i) (drop i l)).
Proof.
  intros Hij Hj. unfold slice, slice_index.
  rewrite string_length_of_list.
  rewrite !(proj2 (Z.ltb_ge _ _)) by lia.
  rewrite !Z.min_l by lia.
  rewrite substring_of_list, Nat2Z.id.
  by replace (Z.to_nat (Z.of_nat j - Z.of_nat i)) with (j - i)%nat by lia.
Qed.


(** X15.  Removing a range in the text area removes it from the replica.
    When the text area showed the replica's visible text and the user
    removes [n] characters at position [p], leaving the cursor at [p], the
    handler calls [delete(p, n)]: the replica reads the new text of the
    text area, and one message with the [n] delete operations is handed
    to the connection. *)
Theorem handleTextChange_removes_the_range s d a net (p n : nat) :
  NoDup (char_ref <$> content d) →
  (0 < n)%nat →
  let text := getText s d in
  (p + n ≤ String.length text)%nat →
  let newText :=
    string_of_list_ascii
      (take p (list_ascii_of_string text) ++
       drop (p + n) (list_ascii_of_string text)) in
  let r := handleTextChange s d a net text newText (Z.of_nat p) in
  getText r.1.1 r.1.2 = newText ∧
  ∃ ops, List.length ops = n ∧
         Forall (λ op, op_type op = "delete" ∧ op_char op ∈ content d) ops ∧
         r.2 = send_message a (mkMsg "ops" ops (clientId d)) net.
Proof.
  intros Hnd Hn text Hp newText r.
  assert (List.length (list_ascii_of_string text) = String.length text)
    as Hl by apply list_ascii_length.
  assert (String.length newText = (String.length text - n)%nat) as Hnew.
  { subst newText. rewrite string_length_of_list, length_app, length_take,
      length_drop. lia. }
  subst r. unfold handleTextChange.
  rewrite (proj2 (Z.ltb_ge _ _)) by lia.
  rewrite (proj2 (Z.ltb_lt _ _)) by lia.
  replace (Z.of_nat (String.length text) - Z.of_nat (String.length newText))
    with (Z.of_nat n) by lia.
  destruct (delete_unfold s d (Z.of_nat p) (Z.of_nat n) "local")
    as (Hs & Hc & Ho).
  pose proof (delete_loop_spec (Z.of_nat p) (Z.of_nat n) "local" (content d)
                s 0 0 Hnd) as (_ & Hops & Hv).
  rewrite !Z.sub_0_r, !Nat2Z.id in Hops, Hv.
  destruct (delete s d (Z.of_nat p) (Z.of_nat n) "local") as [[s1 d1] ops].
  cbn [fst snd] in *.
  assert (list_ascii_of_string text = visibleValues s (content d)) as Htext.
  { subst text. unfold getText.
    by rewrite list_ascii_of_string_of_list_ascii. }
  split.
  - unfold getText, visibleValues. rewrite Hc, Hs, Hv.
    subst newText. rewrite Htext. unfold visibleValues.
    by rewrite fmap_app, fmap_take, fmap_drop.
  - exists ops. split; [|split; [|done]].
    + rewrite Ho, Hops, length_fmap, length_take, length_drop.
      rewrite <- (length_fmap char_value).
      fold (visibleValues s (content d)). rewrite <- Htext. lia.
    + rewrite Ho, Hops. apply Forall_forall. intros op Hop.
      apply list_elem_of_fmap in Hop as (c & -> & Hc'). split; [done|].
      by eapply elem_of_take_drop_filter.
Qed.

(** X16.  Typing into the text area inserts the typed text into the
    replica, where [insert] places text at the visible position asked
    for (no tombstone before the insertion point).  When the text area
    showed the replica's visible text and the user types [typed] at
    position [p], leaving the cursor behind it, the handler calls
    [insert(p, typed)]: the replica reads the new text of the text area,
    and the operations of the insert are handed to the connection. *)
Theorem handleTextChange_inserts_the_typed_text s d a net typed (p : nat) :
  (p ≤ List.length (content d))%nat →
  Forall (visible s) (take p (content d)) →
  Forall (λ c, (char_ref c < next_ref s)%nat) (content d) →
  typed ≠ "" →
  let text := getText s d in
  let newText :=
    string_of_list_ascii
      (take p (list_ascii_of_string text) ++ list_ascii_of_string typed ++
       drop p (list_ascii_of_string text)) in
  let r :=
    handleTextChange s d a net text newText
      (Z.of_nat (p + String.length typed)) in
  getText r.1.1 r.1.2 = newText ∧
  r.2 = send_message a
          (mkMsg "ops" (insert s d (Z.of_nat p) typed "local").2 (clientId d))
          net.
Proof.
  intros Hp Hvis Hwf Htyped text newText r.
  assert (List.length (list_ascii_of_string text) = String.length text)
    as Hl by apply list_ascii_length.
  assert (list_ascii_of_string text = visibleValues s (content d)) as Htext.
  { subst text. unfold getText.
    by rewrite list_ascii_of_string_of_list_ascii. }
  assert (p ≤ String.length text)%nat as Hpt.
  { rewrite <- Hl, Htext. rewrite <- (take_drop p (content d)).
    rewrite visibleValues_app, length_app.
    rewrite (visibleValues_all_visible _ (take p _)) by done.
    rewrite length_fmap, length_take. lia. }
  assert (0 < String.length typed)%nat as Hlen.
  { destruct typed; [done|simpl; lia]. }
  assert (String.length newText =
          (String.length text + String.length typed)%nat) as Hnew.
  { subst newText. rewrite string_length_of_list, !length_app, length_take,
      length_drop, !list_ascii_length. lia. }
  assert (slice newText (Z.of_nat p) (Z.of_nat (p + String.length typed)) =
          typed) as Hslice.
  { subst newText. rewrite slice_of_list; [|lia|].
    2:{ rewrite !length_app, length_take, length_drop, !list_ascii_length.
        lia. }
    rewrite drop_app_length' by (rewrite length_take; lia).
    replace (p + String.length typed - p)%nat
      with (List.length (list_ascii_of_string typed))
      by (rewrite list_ascii_length; lia).
    rewrite take_app_length. apply string_of_list_ascii_of_string. }
  subst r. unfold handleTextChange.
  rewrite (proj2 (Z.ltb_lt _ _)) by lia.
  replace (Z.of_nat (p + String.length typed) -
           (Z.of_nat (String.length newText) - Z.of_nat (String.length text)))
    with (Z.of_nat p) by lia.
  rewrite Hslice.
  pose proof (insert_at_visible_position s d (Z.of_nat p) typed "local")
    as Hins.
  cbv zeta in Hins. rewrite Nat2Z.id in Hins.
  specialize (Hins ltac:(lia) Hp Hvis Hwf).
  destruct (insert s d (Z.of_nat p) typed "local") as [[s1 d1] ops].
  cbn [fst snd] in *. split; [|done].
  rewrite Hins. subst newText. by rewrite Htext.
Qed.


(** * The relay server *)

Section RelayProperties.
Context {YDoc : Type}.
Variable Y_new : YDoc.
Variable Y_applyUpdate : YDoc → list Z → option (YDoc * option (list Z)).
Variable Y_encodeStateAsUpdate : YDoc → list Z.
Variable Y_textLength : YDoc → Z.

Lemma attached_ext (s s' : @Server YDoc) :
  documents s' = documents s → connections s' = connections s →
  attached s → attached s'.
Proof.
  unfold attached, server_wf. intros -> ->. done.
Qed.

Lemma attached_but_ext w (s s' : @Server YDoc) :
  documents s' = documents s → connections s' = connections s →
  attached_but w s → attached_but w s'.
Proof.
  unfold attached_but, server_wf. intros -> ->. done.
Qed.

(** Replacing the [Y.Doc] of a manager changes nothing about who has
    joined what. *)
Lemma attached_new_doc (s : @Server YDoc) docId dm doc' :
  documents s !! docId = Some dm → attached s →
  attached
    (set_documents
       (<[docId := mkManager (dm_docId dm) doc' (dm_clients dm)]>
          (documents s)) s).
Proof.
  intros Hdm ([Hd Hc] & H2 & H3).
  pose proof (Hd _ _ Hdm) as Hid. simpl in Hid.
  split; [split|split]; simpl.
  - by apply map_Forall_insert_2.
  - done.
  - apply map_Forall_insert_2; [|done]. by apply (H2 _ _ Hdm).
  - intros c wc Hwc d Hcur. destruct (H3 _ _ Hwc d Hcur) as (dm0 & Hdm0 & Hin).
    destruct (decide (docId = d)) as [->|Hne].
    + rewrite lookup_insert_eq. eexists. split; [done|]. simpl. congruence.
    + rewrite lookup_insert_ne by done. eauto.
Qed.

Lemma broadcastUpdate_exact dm update origin (s : @Server YDoc) :
  broadcastUpdate dm update origin s =
  mkServer (documents s) (connections s) (files s)
    (sent s ++
     ((λ c, (c, MsgUpdate update (dm_docId dm))) <$>
        filter (λ c, c ≠ origin ∧ is_open s c) (dm_clients dm))).
Proof.
  unfold broadcastUpdate.
  assert (∀ l (s0 : @Server YDoc),
    foldl (λ s1 client,
             if decide (client ≠ origin) then
               match connections s1 !! client with
               | Some ws =>
                   if readyState ws =? 1
                   then send client (MsgUpdate update (dm_docId dm)) s1
                   else s1
               | None => s1
               end
             else s1) s0 l =
    mkServer (documents s0) (connections s0) (files s0)
      (sent s0 ++
       ((λ c, (c, MsgUpdate update (dm_docId dm))) <$>
          filter (λ c, c ≠ origin ∧ is_open s0 c) l))) as H.
  { induction l as [|c l IH]; intros s0; simpl.
    { rewrite app_nil_r. by destruct s0. }
    rewrite IH, filter_cons.
    destruct (decide (c ≠ origin)) as [Hne|He].
    - destruct (connections s0 !! c) as [wc|] eqn:Hwc.
      + destruct (readyState wc =? 1) eqn:Hr.
        * apply Z.eqb_eq in Hr.
          rewrite decide_True by (split; [done|by exists wc]).
          unfold send. simpl. rewrite <- app_assoc. done.
        * apply Z.eqb_neq in Hr.
          rewrite decide_False; [done|].
          intros [_ (wc' & Hwc' & ?)]. congruence.
      + rewrite decide_False; [done|].
        intros [_ (wc' & Hwc' & ?)]. congruence.
    - rewrite decide_False by (intros [H _]; done). done. }
  apply H.
Qed.

(** The connection [w] leaves the document it has joined, if any: the
    step [handleJoin] and the ['close'] listener share. *)
Lemma leave_detaches w ws (s : @Server YDoc) :
  attached s → connections s !! w = Some ws →
  let s1 :=
    match currentDoc ws with
    | Some docId =>
        if truthy (Some docId) then
          match documents s !! docId with
          | Some doc => removeClient Y_encodeStateAsUpdate doc w s
          | None => s
          end
        else s
    | None => s
    end in
  attached_but w s1 ∧ connections s1 = connections s ∧ sent s1 = sent s ∧
  (∀ docId dm, documents s1 !! docId = Some dm →
               dm_clients dm ≠ [] ∨ currentDoc ws ≠ Some docId) ∧
  (∀ docId dm, documents s1 !! docId = Some dm →
               ∃ dm0, documents s !! docId = Some dm0 ∧
                      dm_doc dm = dm_doc dm0 ∧
                      dm_clients dm = filter (λ c, c ≠ w) (dm_clients dm0)) ∧
  (∀ docId dm0, documents s !! docId = Some dm0 →
     documents s1 !! docId = None →
     currentDoc ws = Some docId ∧ dm_clients dm0 = [w] ∧
     files s1 !! docId = Some (Y_encodeStateAsUpdate (dm_doc dm0))) ∧
  (no_orphans s → no_orphans s1).
Proof.
  intros ([Hd Hc] & H2 & H3) Hw s1.
  assert (∀ docId dm, documents s !! docId = Some dm →
            currentDoc ws ≠ Some docId → w ∉ dm_clients dm) as Hnot.
  { intros docId dm Hdm Hcur Hin.
    destruct (H2 _ _ Hdm) as (_ & Hall). rewrite Forall_forall in Hall.
    destruct (Hall w Hin) as (ws' & Hw' & Hcur'). congruence. }
  assert (∀ (l : list string), w ∉ l → filter (λ c, c ≠ w) l = l) as Hfilter.
  { intros l Hl. induction l as [|c l IH]; [done|].
    rewrite filter_cons, decide_True.
    - f_equal. apply IH. intros ?. apply Hl. by right.
    - intros ->. apply Hl. by left. }
  assert (∀ docId dm, currentDoc ws ≠ Some docId →
            documents s !! docId = Some dm →
            NoDup (dm_clients dm) ∧
            Forall (λ c, c ≠ w ∧ ∃ ws0, connections s !! c = Some ws0 ∧
                                        currentDoc ws0 = Some docId)
                   (dm_clients dm)) as Hothers.
  { intros docId dm Hne Hdm. destruct (H2 _ _ Hdm) as (? & Hall').
    split; [done|].
    apply Forall_forall. intros c Hc'. rewrite Forall_forall in Hall'.
    split; [|by apply Hall']. intros ->. by eapply (Hnot docId dm). }
  destruct (currentDoc ws) as [old|] eqn:Hcur.
  2:{ subst s1. split; [|split; [done|split; [done|split; [|split;
        [|split; [|done]]]]]].
      - split; [done|]. split.
        + intros docId dm Hdm. by apply Hothers.
        + intros c wc Hwc _. by apply H3.
      - intros docId dm _. by right.
      - intros docId dm Hdm. exists dm. split; [done|]. split; [done|].
        symmetry. apply Hfilter. by eapply Hnot.
      - intros docId dm0 H1 H1'. congruence. }
  assert (old ≠ "") as Hold by (intros ->; by apply (Hc _ _ Hw)).
  assert (truthy (Some old) = true) as Ht.
  { simpl. by rewrite bool_decide_eq_false_2. }
  destruct (H3 _ _ Hw old Hcur) as (oldDoc & HoldDoc & Hin).
  subst s1. rewrite Ht, HoldDoc.
  pose proof (Hd _ _ HoldDoc) as Hid. simpl in Hid.
  destruct (H2 _ _ HoldDoc) as (Hnd & Hall).
  unfold removeClient. rewrite Hid.
  set (clients' := filter (λ c, c ≠ w) (dm_clients oldDoc)).
  assert (NoDup clients') as Hnd' by (by apply NoDup_filter).
  assert (∀ c, c ∈ clients' ↔ c ≠ w ∧ c ∈ dm_clients oldDoc) as Hin'.
  { intros c. subst clients'. by rewrite list_elem_of_filter. }
  assert (∀ docId, docId ≠ old → Some old ≠ Some docId) as Hsome
    by (intros ? ? [=]; done).
  destruct clients' as [|c0 rest] eqn:Hclients.
  - (* the last client leaves: cleanup *)
    assert (dm_clients oldDoc = [w]) as Hsingle.
    { destruct (dm_clients oldDoc) as [|c l] eqn:E; [by inversion Hin|].
      assert (∀ x, x ∈ c :: l → x = w) as Hall_w.
      { intros x Hx. destruct (decide (x = w)) as [|Hne]; [done|].
        assert (x ∈ @nil string) as Hx' by (apply Hin'; done).
        by apply elem_of_nil in Hx'. }
      assert (c = w) as -> by (apply Hall_w; by left).
      destruct l as [|c' l]; [done|].
      assert (c' = w) as -> by (apply Hall_w; right; by left).
      apply NoDup_cons in Hnd as [Hnd _]. destruct Hnd. by left. }
    split; [|split; [done|split; [done|split; [|split; [|split]]]]].
    + split; [|split]; simpl.
      * split; simpl; [by apply map_Forall_delete|done].
      * intros docId dm Hdm. apply lookup_delete_Some in Hdm as [Hne Hdm].
        apply Hothers; [|done]. by apply Hsome.
      * intros c wc Hwc Hcw docId Hcur'.
        destruct (H3 _ _ Hwc docId Hcur') as (dm & Hdm & Hcin).
        destruct (decide (docId = old)) as [->|Hne].
        -- exfalso. assert (dm = oldDoc) as -> by congruence.
           rewrite Hsingle in Hcin. apply list_elem_of_singleton in Hcin.
           done.
        -- exists dm. by rewrite lookup_delete_ne.
    + simpl. intros docId dm Hdm. apply lookup_delete_Some in Hdm as [Hne Hdm].
      right. by apply Hsome.
    + simpl. intros docId dm Hdm. apply lookup_delete_Some in Hdm as [Hne Hdm].
      exists dm. split; [done|]. split; [done|]. symmetry. apply Hfilter.
      eapply Hnot; [done|]. by apply Hsome.
    + simpl. intros docId dm0 Hdm0 Hnone.
      destruct (decide (docId = old)) as [->|Hne].
      * assert (dm0 = oldDoc) as -> by congruence.
        split; [done|]. split; [done|]. apply lookup_insert_eq.
      * rewrite lookup_delete_ne in Hnone by done. congruence.
    + intros Hno docId dm Hdm. simpl in Hdm.
      apply lookup_delete_Some in Hdm as [Hne Hdm]. by apply (Hno _ _ Hdm).
  - (* other clients remain *)
    split; [|split; [done|split; [done|split; [|split; [|split]]]]].
    + split; [|split]; simpl.
      * split; simpl; [by apply map_Forall_insert_2|done].
      * intros docId dm Hdm. apply lookup_insert_Some in Hdm
          as [[<- <-]|[Hne Hdm]]; [|apply Hothers; [by apply Hsome|done]].
        simpl. split; [done|].
        apply Forall_forall. intros c Hcin. apply Hin' in Hcin as [Hcw Hcin].
        split; [done|]. rewrite Forall_forall in Hall. by apply Hall.
      * intros c wc Hwc Hcw docId Hcur'.
        destruct (H3 _ _ Hwc docId Hcur') as (dm & Hdm & Hcin).
        destruct (decide (docId = old)) as [->|Hne].
        -- rewrite lookup_insert_eq. eexists. split; [done|]. simpl.
           apply Hin'. split; [done|]. congruence.
        -- exists dm. by rewrite lookup_insert_ne.
    + simpl. intros docId dm Hdm. apply lookup_insert_Some in Hdm
        as [[<- <-]|[Hne Hdm]].
      * by left.
      * right. by apply Hsome.
    + simpl. intros docId dm Hdm. apply lookup_insert_Some in Hdm
        as [[<- <-]|[Hne Hdm]].
      * exists oldDoc. simpl. done.
      * exists dm. split; [done|]. split; [done|]. symmetry. apply Hfilter.
        eapply Hnot; [done|]. by apply Hsome.
    + simpl. intros docId dm0 Hdm0 Hnone.
      destruct (decide (docId = old)) as [->|Hne].
      * by rewrite lookup_insert_eq in Hnone.
      * rewrite lookup_insert_ne in Hnone by done. congruence.
    + intros Hno docId dm Hdm. simpl in Hdm. apply lookup_insert_Some in Hdm
        as [[<- <-]|[Hne Hdm]]; [done|by apply (Hno _ _ Hdm)].
Qed.

Lemma attached_but_drop w (s : @Server YDoc) :
  attached_but w s →
  attached (mkServer (documents s) (base.delete w (connections s)) (files s)
              (sent s)).
Proof.
  intros ([Hd Hc] & H2 & H3). split; [split|split]; simpl.
  - done.
  - by apply map_Forall_delete.
  - intros docId dm Hdm. destruct (H2 _ _ Hdm) as (? & Hall).
    split; [done|].
    eapply Forall_impl; [exact Hall|]. intros c (Hne & wc & Hwc & Hcur).
    exists wc. by rewrite lookup_delete_ne.
  - intros c wc Hwc. apply lookup_delete_Some in Hwc as [Hne Hwc].
    by apply (H3 _ _ Hwc).
Qed.

(** What [handleJoin] does once the connection has left its old
    document. *)
Lemma join_after_leave w ws docId (s1 : @Server YDoc) :
  attached_but w s1 → connections s1 !! w = Some ws → docId ≠ "" →
  let ws' := mkWs (ws_id ws) (Some docId) (isAlive ws) (readyState ws) in
  let s2 :=
    mkServer (documents s1) (<[w := ws']> (connections s1)) (files s1)
             (sent s1) in
  let r := getDocument Y_new docId s2 in
  let a := addClient Y_encodeStateAsUpdate r.1 w r.2 in
  let doc :=
    match documents s1 !! docId with
    | Some dm => dm_doc dm
    | None => Y_new
    end in
  let clients :=
    match documents s1 !! docId with
    | Some dm => dm_clients dm
    | None => []
    end in
  a.1 = mkManager docId doc (clients ++ [w]) ∧
  documents a.2 = <[docId := a.1]> (documents s1) ∧
  connections a.2 = <[w := ws']> (connections s1) ∧
  files a.2 = files s1 ∧
  sent a.2 = sent s1 ++ [(w, MsgSync (Y_encodeStateAsUpdate doc) docId)] ∧
  attached a.2 ∧
  (no_orphans s1 → no_orphans a.2).
Proof.
  intros ([Hd Hc] & H2 & H3) Hw Hne ws' s2 r a doc clients.
  assert (w ∉ clients) as Hnotin.
  { subst clients. destruct (documents s1 !! docId) as [dm|] eqn:Hdm.
    - intros Hin. destruct (H2 _ _ Hdm) as (_ & Hall).
      rewrite Forall_forall in Hall. by destruct (Hall w Hin).
    - apply not_elem_of_nil. }
  assert (a.1 = mkManager docId doc (clients ++ [w]) ∧
          documents a.2 = <[docId := a.1]> (documents s1) ∧
          connections a.2 = <[w := ws']> (connections s1) ∧
          files a.2 = files s1 ∧
          sent a.2 = sent s1 ++ [(w, MsgSync (Y_encodeStateAsUpdate doc) docId)])
    as (Ha1 & Ha2 & Ha3 & Ha4 & Ha5).
  { subst a r doc clients. unfold getDocument. subst s2. simpl.
    destruct (documents s1 !! docId) as [dm|] eqn:Hdm; simpl.
    - pose proof (Hd _ _ Hdm) as Hid. simpl in Hid.
      rewrite decide_False by done. by rewrite Hid.
    - by rewrite insert_insert_eq. }
  split; [done|]. split; [done|]. split; [done|]. split; [done|].
  split; [done|].
  split.
  2:{ intros Hno. unfold no_orphans. rewrite Ha2.
      apply map_Forall_insert_2; [|done]. rewrite Ha1. simpl.
      by destruct clients. }
  split; [split|split].
  - rewrite Ha2. apply map_Forall_insert_2; [by rewrite Ha1|done].
  - rewrite Ha3. apply map_Forall_insert_2; [simpl; congruence|done].
  - rewrite Ha2, Ha3. intros d dm Hdm.
    apply lookup_insert_Some in Hdm as [[<- <-]|[Hned Hdm]].
    + rewrite Ha1. simpl. split.
      * apply NoDup_app. split; [|split; [|apply NoDup_singleton]].
        -- subst clients. destruct (documents s1 !! docId) as [dm|] eqn:Hdm;
             [|constructor]. by destruct (H2 _ _ Hdm).
        -- intros x Hx Hx'. apply list_elem_of_singleton in Hx'. by subst x.
      * apply Forall_app. split.
        -- subst clients. destruct (documents s1 !! docId) as [dm|] eqn:Hdm;
             [|constructor].
           destruct (H2 _ _ Hdm) as (_ & Hall).
           eapply Forall_impl; [exact Hall|].
           intros c (Hcw & wc & Hwc & Hcur). exists wc.
           by rewrite lookup_insert_ne.
        -- constructor; [|constructor]. exists ws'.
           by rewrite lookup_insert_eq.
    + destruct (H2 _ _ Hdm) as (? & Hall).
      split; [done|].
      eapply Forall_impl; [exact Hall|].
      intros c (Hcw & wc & Hwc & Hcur). exists wc.
      by rewrite lookup_insert_ne.
  - rewrite Ha2, Ha3. intros c wc Hwc d Hcur.
    apply lookup_insert_Some in Hwc as [[<- <-]|[Hcw Hwc]].
    + simpl in Hcur. injection Hcur as <-. rewrite lookup_insert_eq.
      eexists. split; [done|]. rewrite Ha1. simpl.
      apply elem_of_app. right. by left.
    + destruct (H3 _ _ Hwc (not_eq_sym Hcw) d Hcur) as (dm & Hdm & Hin).
      destruct (decide (docId = d)) as [->|Hned].
      * rewrite lookup_insert_eq. eexists. split; [done|].
        rewrite Ha1. simpl. apply elem_of_app. left.
        subst clients. by rewrite Hdm.
      * exists dm. by rewrite lookup_insert_ne.
Qed.

Lemma handleJoin_unfold w message (s : @Server YDoc) ws docId :
  connections s !! w = Some ws → msg_docId message = Some docId →
  docId ≠ "" →
  let s1 :=
    match currentDoc ws with
    | Some old =>
        if truthy (Some old) then
          match documents s !! old with
          | Some doc => removeClient Y_encodeStateAsUpdate doc w s
          | None => s
          end
        else s
    | None => s
    end in
  let ws' := mkWs (ws_id ws) (Some docId) (isAlive ws) (readyState ws) in
  let s2 :=
    mkServer (documents s1) (<[w := ws']> (connections s1)) (files s1)
             (sent s1) in
  let r := getDocument Y_new docId s2 in
  let a := addClient Y_encodeStateAsUpdate r.1 w r.2 in
  handleJoin Y_new Y_encodeStateAsUpdate Y_textLength w message s =
  send w
    (MsgJoined docId (List.length (dm_clients a.1))
       (Y_textLength (dm_doc a.1))
       (List.length (Y_encodeStateAsUpdate (dm_doc a.1)))) a.2.
Proof.
  intros Hw Hm Hne. unfold handleJoin. rewrite Hw, Hm.
  assert (truthy (Some docId) = true) as ->.
  { simpl. by rewrite bool_decide_eq_false_2. }
  cbv zeta.
  match goal with |- context [getDocument Y_new docId ?s2] =>
    destruct (getDocument Y_new docId s2) as [dm s3]
  end.
  cbn [fst snd].
  by destruct (addClient Y_encodeStateAsUpdate dm w s3) as [dm' s4].
Qed.

(** X18.  [handleJoin] with a document id moves the connection to that
    document.  The connection's [currentDoc] becomes the id; it is taken
    out of the clients of the document it had joined and put last among
    those of the new one; it alone is sent two messages, ['sync'] with
    the encoded document and then ['joined'] with the statistics.  When
    no manager is filed under the id, and also when the joining
    connection was the only client of that very document (leaving it
    triggers the cleanup), the manager is a new one over an empty
    [Y.Doc]: that is what the ['sync'] message carries, whatever is
    persisted. *)
Theorem handleJoin_moves_the_connection w message (s : @Server YDoc) ws
    docId :
  attached s → connections s !! w = Some ws →
  msg_docId message = Some docId → docId ≠ "" →
  let s' := handleJoin Y_new Y_encodeStateAsUpdate Y_textLength w message s in
  let kept :=
    match documents s !! docId with
    | Some dm0 => filter (λ c, c ≠ w) (dm_clients dm0)
    | None => []
    end in
  let doc :=
    match documents s !! docId with
    | Some dm0 => if decide (dm_clients dm0 = [w]) then Y_new else dm_doc dm0
    | None => Y_new
    end in
  connections s' =
    <[w := mkWs (ws_id ws) (Some docId) (isAlive ws) (readyState ws)]>
      (connections s) ∧
  documents s' !! docId = Some (mkManager docId doc (kept ++ [w])) ∧
  (∀ other dm, other ≠ docId → documents s' !! other = Some dm →
               w ∉ dm_clients dm) ∧
  sent s' =
    sent s ++
    [(w, MsgSync (Y_encodeStateAsUpdate doc) docId);
     (w, MsgJoined docId (List.length (kept ++ [w])) (Y_textLength doc)
           (List.length (Y_encodeStateAsUpdate doc)))].
Proof.
  intros Hatt Hw Hm Hne s' kept doc.
  pose proof (handleJoin_unfold w message s ws docId Hw Hm Hne) as Hunf.
  cbv zeta in Hunf.
  pose proof (leave_detaches w ws s Hatt Hw)
    as (Hbut & Hconn & Hsent & Hleft & Hkept & Hgone & _).
  cbv zeta in Hbut, Hconn, Hsent, Hleft, Hkept, Hgone.
  set (s1 := match currentDoc ws with Some _ => _ | None => _ end) in *.
  assert (connections s1 !! w = Some ws) as Hw1 by (by rewrite Hconn).
  pose proof (join_after_leave w ws docId s1 Hbut Hw1 Hne)
    as (Ha1 & Ha2 & Ha3 & _ & Ha5 & _).
  cbv zeta in Ha1, Ha2, Ha3, Ha5.
  set (a := addClient _ _ _ _) in *.
  assert ((match documents s1 !! docId with
           | Some dm => dm_doc dm
           | None => Y_new
           end) = doc ∧
          (match documents s1 !! docId with
           | Some dm => dm_clients dm
           | None => []
           end) = kept) as [Hdoc Hclients].
  { subst doc kept. destruct (documents s1 !! docId) as [dm|] eqn:Hdm.
    - destruct (Hkept _ _ Hdm) as (dm0 & Hd0' & Hd0 & Hc0). rewrite Hd0'.
      split; [|done]. rewrite decide_False; [done|]. intros Hsingle.
      destruct (Hleft _ _ Hdm) as [Hnil|Hcur].
      + apply Hnil. rewrite Hc0, Hsingle, filter_cons, decide_False by auto.
        done.
      + destruct Hatt as (_ & H2 & _). destruct (H2 _ _ Hd0') as (_ & Hall).
        rewrite Hsingle in Hall. apply Forall_cons in Hall as [Hall _].
        destruct Hall as (ws0 & Hws0 & Hcur0). congruence.
    - destruct (documents s !! docId) as [dm0|] eqn:Hdm0; [|done].
      destruct (Hgone _ _ Hdm0 Hdm) as (_ & Hsingle & _).
      rewrite decide_True by done. rewrite Hsingle.
      by rewrite filter_cons, decide_False by auto. }
  rewrite Hdoc, Hclients in Ha1. rewrite Hdoc in Ha5.
  subst s'. rewrite Hunf. unfold send. cbn [connections documents sent].
  rewrite Ha1. cbn [dm_clients dm_doc].
  split; [by rewrite Ha3, Hconn|]. split; [|split].
  - by rewrite Ha2, lookup_insert_eq, Ha1.
  - intros other dm Hother Hdm. rewrite Ha2, lookup_insert_ne in Hdm by done.
    destruct Hbut as (_ & H2 & _). destruct (H2 _ _ Hdm) as (_ & Hall).
    intros Hin. rewrite Forall_forall in Hall. by destruct (Hall w Hin).
  - by rewrite Ha5, Hsent, <- app_assoc.
Qed.

Lemma no_orphans_ext (s s' : @Server YDoc) :
  documents s' = documents s → no_orphans s → no_orphans s'.
Proof. unfold no_orphans. by intros ->. Qed.

Lemma no_orphans_new_doc (s : @Server YDoc) docId dm doc' :
  documents s !! docId = Some dm → no_orphans s →
  no_orphans
    (set_documents
       (<[docId := mkManager (dm_docId dm) doc' (dm_clients dm)]>
          (documents s)) s).
Proof.
  intros Hdm Hno. unfold no_orphans. simpl.
  apply map_Forall_insert_2; [|done]. by apply (Hno _ _ Hdm).
Qed.

Lemma handleJoin_keeps w message (s : @Server YDoc) :
  attached s →
  let s' := handleJoin Y_new Y_encodeStateAsUpdate Y_textLength w message s in
  attached s' ∧ (no_orphans s → no_orphans s').
Proof.
  intros Hatt.
  destruct (connections s !! w) as [ws|] eqn:Hw.
  2:{ unfold handleJoin. by rewrite Hw. }
  destruct (msg_docId message) as [d|] eqn:Hm.
  2:{ unfold handleJoin. rewrite Hw, Hm.
      split; [by eapply attached_ext|by apply no_orphans_ext]. }
  destruct (decide (d = "")) as [->|Hne].
  { unfold handleJoin. rewrite Hw, Hm. simpl.
    split; [by eapply attached_ext|by apply no_orphans_ext]. }
  cbv zeta. rewrite (handleJoin_unfold w message s ws d Hw Hm Hne).
  pose proof (leave_detaches w ws s Hatt Hw)
    as (Hbut & Hconn & _ & _ & _ & _ & Hno1).
  cbv zeta in Hbut, Hconn, Hno1.
  set (s1 := match currentDoc ws with Some _ => _ | None => _ end) in *.
  assert (connections s1 !! w = Some ws) as Hw1 by (by rewrite Hconn).
  pose proof (join_after_leave w ws d s1 Hbut Hw1 Hne)
    as (_ & _ & _ & _ & _ & Hatt' & Hno2).
  split; [by eapply attached_ext|].
  intros Hno. eapply no_orphans_ext; [|by apply Hno2, Hno1]. done.
Qed.

Lemma handleUpdate_keeps w message (s : @Server YDoc) :
  attached s →
  let s' := handleUpdate Y_applyUpdate Y_encodeStateAsUpdate w message s in
  attached s' ∧ (no_orphans s → no_orphans s').
Proof.
  intros Hatt. cbv zeta.
  unfold handleUpdate. destruct (connections s !! w) as [ws|]; [|done].
  destruct (negb _ || negb _).
  { split; [by eapply attached_ext|by apply no_orphans_ext]. }
  destruct (msg_docId message) as [d|]; [|done].
  destruct (documents s !! d) as [dm|] eqn:Hdm; [|done].
  unfold dm_applyUpdate.
  destruct (Y_applyUpdate (dm_doc dm) (msg_update message))
    as [[doc' ev]|]; [|done].
  pose proof (attached_new_doc s d dm doc' Hdm Hatt) as Hnew.
  pose proof (no_orphans_new_doc s d dm doc' Hdm) as Hnew'.
  destruct Hatt as ([Hd _] & _).
  pose proof (Hd _ _ Hdm) as Hid. simpl in Hid. rewrite Hid in *.
  destruct ev as [u|]; [|done].
  rewrite broadcastUpdate_exact.
  split; [by eapply attached_ext|].
  intros Hno. eapply no_orphans_ext; [|by apply Hnew']. done.
Qed.

(** X19.  The server's handlers keep documents and connections in
    agreement.  If the clients of every document are distinct connections
    whose [currentDoc] is that document, and every connection with a
    [currentDoc] is a client of it, then the same holds after
    [handleJoin], [handleUpdate] and [handleSyncRequest] with any
    message, after the ['close'] listener of any connection, and after a
    [loadState] completes.  None of them leaves a document without a
    client behind, if there was none before: the cleanup removes the
    manager that the last client leaves. *)
Theorem handlers_keep_clients_and_connections_in_step w message docId
    (s : @Server YDoc) :
  attached s →
  let after :=
    [handleJoin Y_new Y_encodeStateAsUpdate Y_textLength w message s;
     handleUpdate Y_applyUpdate Y_encodeStateAsUpdate w message s;
     handleSyncRequest Y_encodeStateAsUpdate w message s;
     onClose Y_encodeStateAsUpdate w s;
     loadState Y_applyUpdate docId s] in
  Forall attached after ∧ (no_orphans s → Forall no_orphans after).
Proof.
  intros Hatt after.
  destruct (handleJoin_keeps w message s Hatt) as [Hj1 Hj2].
  destruct (handleUpdate_keeps w message s Hatt) as [Hu1 Hu2].
  assert (attached (handleSyncRequest Y_encodeStateAsUpdate w message s) ∧
          (no_orphans s →
           no_orphans (handleSyncRequest Y_encodeStateAsUpdate w message s)))
    as [Hs1 Hs2].
  { unfold handleSyncRequest.
    destruct (msg_docId message) as [d|];
      [destruct (documents s !! d)|];
      (split; [by eapply attached_ext|by apply no_orphans_ext]). }
  assert (attached (onClose Y_encodeStateAsUpdate w s) ∧
          (no_orphans s → no_orphans (onClose Y_encodeStateAsUpdate w s)))
    as [Hc1 Hc2].
  { unfold onClose. destruct (connections s !! w) as [ws|] eqn:Hw; [|done].
    pose proof (leave_detaches w ws s Hatt Hw)
      as (Hbut & _ & _ & _ & _ & _ & Hno1).
    split; [by apply attached_but_drop|]. intros Hno.
    eapply no_orphans_ext; [|by apply Hno1]. done. }
  assert (attached (loadState Y_applyUpdate docId s) ∧
          (no_orphans s → no_orphans (loadState Y_applyUpdate docId s)))
    as [Hl1 Hl2].
  { unfold loadState. destruct (documents s !! docId) as [dm|] eqn:Hdm;
      [|done].
    destruct (files s !! docId) as [data|]; [|done].
    destruct (Y_applyUpdate (dm_doc dm) data) as [[doc' ev]|]; [|done].
    split; [by apply attached_new_doc|by apply no_orphans_new_doc]. }
  split.
  - subst after. repeat (apply Forall_cons; split; [done|]). constructor.
  - intros Hno. subst after.
    repeat (apply Forall_cons; split; [by auto|]). constructor.
Qed.

(** X20.  An update that changes the document is relayed to exactly the
    other open connections that have joined it, once each.  When the
    sender has joined the document the message names and [Y.applyUpdate]
    reports a change, every connection other than the sender whose
    [currentDoc] is that document and whose socket is open is handed one
    ['update'] message with the reported update, in the order of joining,
    and nobody else is sent anything.  When [Y.applyUpdate] reports no
    change, nothing is sent. *)
Theorem update_is_relayed_to_the_other_clients w message (s : @Server YDoc)
    ws docId dm doc' ev :
  attached s → connections s !! w = Some ws →
  currentDoc ws = Some docId → msg_docId message = Some docId →
  documents s !! docId = Some dm →
  Y_applyUpdate (dm_doc dm) (msg_update message) = Some (doc', ev) →
  let s' := handleUpdate Y_applyUpdate Y_encodeStateAsUpdate w message s in
  let recipients :=
    filter (λ c, c ≠ w ∧ is_open s c) (dm_clients dm) in
  documents s' = <[docId := mkManager docId doc' (dm_clients dm)]>
                   (documents s) ∧
  connections s' = connections s ∧
  match ev with
  | Some u =>
      sent s' = sent s ++ ((λ c, (c, MsgUpdate u docId)) <$> recipients)
  | None => sent s' = sent s
  end ∧
  NoDup recipients ∧
  (∀ c, c ∈ recipients ↔
        c ≠ w ∧ ∃ wc, connections s !! c = Some wc ∧
                      currentDoc wc = Some docId ∧ readyState wc = 1).
Proof.
  intros Hatt Hw Hcur Hm Hdm Happly s' recipients.
  destruct Hatt as ([Hd Hc] & H2 & H3).
  assert (docId ≠ "") as Hne.
  { intros ->. by apply (Hc _ _ Hw). }
  pose proof (Hd _ _ Hdm) as Hid. simpl in Hid.
  destruct (H2 _ _ Hdm) as (Hnd & Hall).
  assert (s' = dm_applyUpdate Y_applyUpdate Y_encodeStateAsUpdate dm
                 (msg_update message) w s) as Hs'.
  { subst s'. unfold handleUpdate. rewrite Hw, Hcur, Hm. simpl.
    rewrite (bool_decide_eq_false_2 _ Hne), bool_decide_eq_true_2 by done.
    simpl. by rewrite Hdm. }
  rewrite Hs'. unfold dm_applyUpdate. rewrite Happly, Hid.
  split; [|split; [|split; [|split]]].
  - destruct ev as [u|]; [|done]. by rewrite broadcastUpdate_exact.
  - destruct ev as [u|]; [|done]. by rewrite broadcastUpdate_exact.
  - destruct ev as [u|]; [|done]. by rewrite broadcastUpdate_exact.
  - by apply NoDup_filter.
  - intros c. subst recipients. rewrite list_elem_of_filter. unfold is_open.
    split.
    + intros [[Hcw (wc & Hwc & Hopen)] Hin]. split; [done|].
      rewrite Forall_forall in Hall.
      destruct (Hall c Hin) as (wc' & Hwc' & Hcur').
      exists wc. split; [done|]. split; [congruence|done].
    + intros [Hcw (wc & Hwc & Hcur' & Hopen)]. split.
      * split; [done|]. by exists wc.
      * destruct (H3 _ _ Hwc docId Hcur') as (dm' & Hdm' & Hin).
        congruence.
Qed.

(** [handleSyncRequest] sends one message and changes nothing else; it
    asks for no join. *)
Lemma handleSyncRequest_sent w message (s : @Server YDoc) :
  let s' := handleSyncRequest Y_encodeStateAsUpdate w message s in
  documents s' = documents s ∧ connections s' = connections s ∧
  files s' = files s ∧
  sent s' =
    sent s ++
    [(w,
      match msg_docId message with
      | Some docId =>
          match documents s !! docId with
          | Some dm => MsgSync (Y_encodeStateAsUpdate (dm_doc dm)) docId
          | None => MsgError "Document not found"
          end
      | None => MsgError "Document not found"
      end)].
Proof.
  unfold handleSyncRequest. destruct (msg_docId message) as [docId|]; [|done].
  by destruct (documents s !! docId).
Qed.

(** X21.  A document that all clients have left starts empty for the next
    one.  When the only client of a document closes its connection, the
    manager is removed without a message to anybody; a sync request for
    the document is then answered "Document not found".  A connection
    that joins the document afterwards gets a new manager over an empty
    [Y.Doc] and is sent the encoding of that empty document.  Whatever
    [loadState] reads when it completes, the joiner is sent nothing more:
    bytes that were read are merged into the manager's document without a
    broadcast, and only a later sync request returns the merged state;
    when no file was found the document stays empty. *)
Theorem rejoined_document_starts_empty w w2 ws ws2 message docId dm data
    (s : @Server YDoc) :
  attached s → connections s !! w = Some ws →
  currentDoc ws = Some docId → documents s !! docId = Some dm →
  dm_clients dm = [w] →
  connections s !! w2 = Some ws2 → w2 ≠ w → currentDoc ws2 = None →
  msg_docId message = Some docId →
  let s1 := onClose Y_encodeStateAsUpdate w s in
  let s2 := handleJoin Y_new Y_encodeStateAsUpdate Y_textLength w2 message s1 in
  let s3 := loadState_read Y_applyUpdate docId data s2 in
  let loaded :=
    match data with
    | Some bytes =>
        match Y_applyUpdate Y_new bytes with
        | Some (doc', _) => doc'
        | None => Y_new
        end
    | None => Y_new
    end in
  (documents s1 !! docId = None ∧ sent s1 = sent s ∧
   sent (handleSyncRequest Y_encodeStateAsUpdate w2 message s1) =
     sent s ++ [(w2, MsgError "Document not found")]) ∧
  (documents s2 !! docId = Some (mkManager docId Y_new [w2]) ∧
   sent s2 =
     sent s ++
     [(w2, MsgSync (Y_encodeStateAsUpdate Y_new) docId);
      (w2, MsgJoined docId 1 (Y_textLength Y_new)
             (List.length (Y_encodeStateAsUpdate Y_new)))]) ∧
  (documents s3 !! docId = Some (mkManager docId loaded [w2]) ∧
   connections s3 = connections s2 ∧ sent s3 = sent s2 ∧
   sent (handleSyncRequest Y_encodeStateAsUpdate w2 message s3) =
     sent s3 ++ [(w2, MsgSync (Y_encodeStateAsUpdate loaded) docId)]).
Proof.
  intros Hatt Hw Hcur Hdm Hsingle Hw2 Hne Hcur2 Hm s1 s2 s3 loaded.
  pose proof Hatt as ([Hd Hc] & _).
  assert (docId ≠ "") as Hdoc by (intros ->; by apply (Hc _ _ Hw)).
  pose proof (Hd _ _ Hdm) as Hid. simpl in Hid.
  assert (documents s1 = base.delete docId (documents s) ∧
          connections s1 = base.delete w (connections s) ∧
          sent s1 = sent s) as (Hd1 & Hc1 & Ht1).
  { subst s1. unfold onClose. rewrite Hw, Hcur.
    assert (truthy (Some docId) = true) as ->.
    { simpl. by rewrite bool_decide_eq_false_2. }
    rewrite Hdm. unfold removeClient.
    rewrite Hsingle, filter_cons, decide_False by auto.
    rewrite filter_nil. simpl. by rewrite Hid. }
  assert (attached s1) as Hatt1.
  { subst s1. unfold onClose. rewrite Hw.
    pose proof (leave_detaches w ws s Hatt Hw) as (Hbut & _).
    by apply attached_but_drop. }
  assert (connections s1 !! w2 = Some ws2) as Hw21.
  { by rewrite Hc1, lookup_delete_ne. }
  assert (documents s1 !! docId = None) as Hnone.
  { rewrite Hd1. apply lookup_delete_eq. }
  split.
  { split; [done|]. split; [done|].
    destruct (handleSyncRequest_sent w2 message s1) as (_ & _ & _ & ->).
    by rewrite Hm, Hnone, Ht1. }
  pose proof (handleJoin_unfold w2 message s1 ws2 docId Hw21 Hm Hdoc) as Hunf.
  cbv zeta in Hunf. rewrite Hcur2 in Hunf.
  assert (attached_but w2 s1) as Hbut.
  { pose proof (leave_detaches w2 ws2 s1 Hatt1 Hw21) as (Hbut & _).
    cbv zeta in Hbut. by rewrite Hcur2 in Hbut. }
  pose proof (join_after_leave w2 ws2 docId s1 Hbut Hw21 Hdoc)
    as (Ha1 & Ha2 & Ha3 & Ha4 & Ha5 & _).
  cbv zeta in Ha1, Ha2, Ha3, Ha4, Ha5. rewrite Hnone in Ha1, Ha5.
  set (a := addClient _ _ _ _) in *.
  assert (documents s2 !! docId = Some (mkManager docId Y_new [w2]) ∧
          sent s2 =
            sent s ++
            [(w2, MsgSync (Y_encodeStateAsUpdate Y_new) docId);
             (w2, MsgJoined docId 1 (Y_textLength Y_new)
                    (List.length (Y_encodeStateAsUpdate Y_new)))])
    as (Hd2 & Ht2).
  { subst s2. rewrite Hunf. unfold send. cbn [documents sent].
    rewrite Ha2, lookup_insert_eq, Ha1, Ha5, Ht1.
    cbn [dm_clients dm_doc]. by rewrite <- app_assoc. }
  split; [done|].
  assert (documents s3 !! docId = Some (mkManager docId loaded [w2]) ∧
          connections s3 = connections s2 ∧ sent s3 = sent s2)
    as (Hd3 & Hc3 & Ht3).
  { subst s3 loaded. unfold loadState_read. rewrite Hd2.
    destruct data as [bytes|]; [|done]. simpl.
    destruct (Y_applyUpdate Y_new bytes) as [[doc' ev]|]; [|done].
    simpl. by rewrite lookup_insert_eq. }
  split; [done|]. split; [done|]. split; [done|].
  destruct (handleSyncRequest_sent w2 message s3) as (_ & _ & _ & ->).
  by rewrite Hm, Hd3.
Qed.

Lemma pongs_lookup (pongs : list string) : ∀ (s : @Server YDoc) w,
  connections (foldl (λ s w, onPong w s) s pongs) !! w =
  (λ ws, if decide (w ∈ pongs)
         then mkWs (ws_id ws) (currentDoc ws) true (readyState ws)
         else ws) <$> connections s !! w.
Proof.
  induction pongs as [|p pongs IH]; intros s w; simpl.
  { by destruct (connections s !! w) as [ws|]. }
  rewrite IH. unfold onPong. simpl. rewrite lookup_alter.
  destruct (decide (p = w)) as [->|Hne].
  - destruct (connections s !! w) as [ws|]; simpl; [|done].
    rewrite (decide_True (P := w ∈ w :: pongs)) by (by left).
    by destruct (decide (w ∈ pongs)).
  - destruct (connections s !! w) as [ws|]; simpl; [|done].
    destruct (decide (w ∈ pongs)) as [Hin|Hin].
    + by rewrite decide_True by (by right).
    + rewrite decide_False; [done|].
      intros [?|?]%elem_of_cons; by auto.
Qed.

(** X22.  The heartbeat terminates exactly the connections that did not
    answer the previous one.  A heartbeat terminates the connections
    whose [isAlive] is [false] and touches neither documents nor files
    nor sends a message; of the connections there at one heartbeat, the
    next heartbeat terminates those from which no ['pong'] arrived in
    between, whatever their state was before. *)
Theorem heartbeat_terminates_the_silent_connections (s : @Server YDoc)
    (pongs : list string) w :
  let s1 := (heartbeat s).2 in
  let s2 := foldl (λ s w, onPong w s) s1 pongs in
  (w ∈ (heartbeat s).1 ↔
   ∃ ws, connections s !! w = Some ws ∧ isAlive ws = false) ∧
  (w ∈ (heartbeat s2).1 ↔ is_Some (connections s !! w) ∧ w ∉ pongs) ∧
  documents s2 = documents s ∧ files s2 = files s ∧ sent s2 = sent s.
Proof.
  intros s1 s2. split; [|split].
  - unfold heartbeat. simpl. rewrite elem_of_dom. split.
    + intros [ws Hws]. apply map_lookup_filter_Some in Hws as [? ?].
      by exists ws.
    + intros (ws & Hws & Ha). exists ws. by apply map_lookup_filter_Some.
  - unfold heartbeat at 1. cbn [fst]. rewrite elem_of_dom.
    assert (connections s2 !! w =
            (λ ws, if decide (w ∈ pongs)
                   then mkWs (ws_id ws) (currentDoc ws) true (readyState ws)
                   else mkWs (ws_id ws) (currentDoc ws) false (readyState ws))
              <$> connections s !! w) as Hs2.
    { subst s2. rewrite pongs_lookup. subst s1. unfold heartbeat. simpl.
      rewrite lookup_fmap. destruct (connections s !! w) as [ws|]; simpl;
        [|done].
      f_equal. destruct (decide (w ∈ pongs)).
      - by destruct (isAlive ws).
      - destruct ws as [i c a r]. simpl. by destruct a. }
    split.
    + intros [ws Hws]. apply map_lookup_filter_Some in Hws as [Hws Ha].
      rewrite Hs2 in Hws. destruct (connections s !! w) as [ws0|]; [|done].
      split; [done|]. simpl in Hws. injection Hws as <-.
      simpl in Ha. by destruct (decide (w ∈ pongs)).
    + intros [[ws0 Hws0] Hnot]. eexists.
      apply map_lookup_filter_Some. rewrite Hs2, Hws0. simpl.
      split; [done|]. simpl. by rewrite decide_False.
  - assert (∀ (s0 : @Server YDoc),
              let r := foldl (λ s w, onPong w s) s0 pongs in
              documents r = documents s0 ∧ files r = files s0 ∧
              sent r = sent s0) as H.
    { induction pongs as [|p l IH]; intros s0; simpl; [done|].
      by destruct (IH (onPong p s0)) as (-> & -> & ->). }
    destruct (H s1) as (H1 & H2 & H3). cbv zeta in H1, H2, H3.
    subst s2. by rewrite H1, H2, H3.
Qed.
End RelayProperties.

(** ** Snapshots *)

Section Sorting.
Context {A : Type}.
Variable cmp : A → A → Z.
Hypothesis cmp_total : ∀ a b, cmp a b ≤ 0 ∨ cmp b a ≤ 0.
Hypothesis cmp_trans : ∀ a b c, cmp a b ≤ 0 → cmp b c ≤ 0 → cmp a c ≤ 0.


End Sorting.









Lemma prefix_app p rest : String.prefix p (p +:+ rest) = true.
Proof.
  induction p as [|a p IH]; simpl; [by destruct rest|].
  destruct (Ascii.ascii_dec a a); [done|done].
Qed.

Section Snapshots.
Context {YDoc : Type}.
Variable Y_encodeStateAsUpdate : YDoc → list Z.

End Snapshots.

(** * The properties at work *)

(** X2 at work: "x" inserted behind the tombstone of [deleted_a]. *)
Lemma insert_keeps_the_old_text_witness :
  let r := insert deleted_a.1 deleted_a.2 1 "x" "local" in
  visibleValues deleted_a.1 (content deleted_a.2) `sublist_of`
    visibleValues r.1.1 (content r.1.2) ∧
  String.length (getText r.1.1 r.1.2) =
    (String.length (getText deleted_a.1 deleted_a.2) + String.length "x")%nat.
Proof.
  intros r.
  destruct (insert_keeps_the_old_text deleted_a.1 deleted_a.2 1 "x" "local")
    as (_ & _ & _ & H1 & H2).
  - apply (bool_decide_unpack _). vm_compute. exact I.
  - split; [exact H1|exact H2].
Defined.




(** X10 at work: a fresh replica that receives "hi" and the delete of
    "h". *)
Lemma applyRemoteOps_sorts_content_witness :
  StronglySorted (key_le codeUnitCompare)
    (content (applyRemoteOps codeUnitCompare hi_store (new_SimpleYDoc "r")
                (hi_ops 0 1)).2).
Proof.
  refine (proj1 (applyRemoteOps_sorts_content codeUnitCompare
                   codeUnitCompare_collation hi_store (new_SimpleYDoc "r")
                   (hi_ops 0 1)) _).
  constructor.
Defined.


(** X13 at work: two messages sent while disconnected reach the other
    editor at the reconnect, in order. *)
Lemma reconnect_sends_the_queue_in_order_witness :
  let net1 :=
    foldl (λ n m, send_message 0 m n) (disconnect 0 demo_net)
          [hello 0; hello 1] in
  timers net1 = [] ∧
  timers (reconnect 0 net1) = [(1%nat, hello 0); (1%nat, hello 1)].
Proof.
  intros net1.
  destruct (reconnect_sends_the_queue_in_order 0 (mkConnection "p" true [])
              demo_net [hello 0; hello 1] eq_refl) as (H1 & _ & H2 & _).
  split; [exact H1|exact H2].
Defined.

(** X14 at work: the second editor is disconnected while the first one
    sends, a third one arrives and sends, and the first one goes through
    a disconnect and a reconnect of its own. *)
Lemma disconnected_connection_is_sent_nothing_witness :
  let net := disconnect 1 demo_net in
  let net' :=
    foldl net_step net
      [ActSend 0 (hello 0); ActNew "r"; ActSend 2 (hello 1);
       ActDisconnect 0; ActSend 0 (hello 2); ActReconnect 0; ActDestroy 2] in
  is_connected net' 1 = false ∧
  timers_for 1 net' = timers_for 1 net ∧
  timers_for 1 (reconnect 1 net') = timers_for 1 net.
Proof.
  intros net.
  apply (disconnected_connection_is_sent_nothing 1 net).
  - reflexivity.
  - apply (bool_decide_unpack _). vm_compute. exact I.
  - apply (bool_decide_unpack _). vm_compute. exact I.
Defined.

(** X15 at work: the "a" of "ab" removed in the text area. *)
Lemma handleTextChange_removes_the_range_witness :
  let r :=
    handleTextChange typed_ab.1 typed_ab.2 0 demo_net
      (getText typed_ab.1 typed_ab.2) "b" 0 in
  getText r.1.1 r.1.2 = "b".
Proof.
  intros r.
  refine (proj1 (handleTextChange_removes_the_range typed_ab.1 typed_ab.2 0
                   demo_net 0 1 _ _ _)).
  - apply (bool_decide_unpack _). vm_compute. exact I.
  - lia.
  - apply (bool_decide_unpack _). vm_compute. exact I.
Defined.

(** X16 at work: "x" typed between "a" and "b". *)
Lemma handleTextChange_inserts_the_typed_text_witness :
  let r :=
    handleTextChange typed_ab.1 typed_ab.2 0 demo_net
      (getText typed_ab.1 typed_ab.2) "axb" 2 in
  getText r.1.1 r.1.2 = "axb".
Proof.
  intros r.
  refine (proj1 (handleTextChange_inserts_the_typed_text typed_ab.1 typed_ab.2
                   0 demo_net "x" 1 _ _ _ _)).
  - apply (bool_decide_unpack _). vm_compute. exact I.
  - apply (bool_decide_unpack _). vm_compute. exact I.
  - apply (bool_decide_unpack _). vm_compute. exact I.
  - discriminate.
Defined.


Lemma demo_server_attached : attached demo_server.
Proof.
  unfold demo_server.
  split; [split; apply (bool_decide_unpack _); vm_compute; exact I|].
  split.
  - intros docId dm Hdm. cbn [documents] in Hdm.
    apply lookup_singleton_Some in Hdm as [<- <-].
    split; [apply (bool_decide_unpack _); vm_compute; exact I|].
    repeat (apply Forall_cons; split; [eexists; split; reflexivity|]).
    constructor.
  - intros w ws Hw docId Hcur. cbn [connections] in Hw.
    apply lookup_insert_Some in Hw as [[<- <-]|[_ Hw]].
    { injection Hcur as <-. eexists. split; [reflexivity|].
      apply (bool_decide_unpack _). vm_compute. exact I. }
    apply lookup_insert_Some in Hw as [[<- <-]|[_ Hw]].
    { injection Hcur as <-. eexists. split; [reflexivity|].
      apply (bool_decide_unpack _). vm_compute. exact I. }
    apply lookup_singleton_Some in Hw as [<- <-]. discriminate Hcur.
Qed.

Lemma solo_server_attached : attached solo_server.
Proof.
  unfold solo_server.
  split; [split; apply (bool_decide_unpack _); vm_compute; exact I|].
  split.
  - intros docId dm Hdm. cbn [documents] in Hdm.
    apply lookup_singleton_Some in Hdm as [<- <-].
    split; [apply (bool_decide_unpack _); vm_compute; exact I|].
    repeat (apply Forall_cons; split; [eexists; split; reflexivity|]).
    constructor.
  - intros w ws Hw docId Hcur. cbn [connections] in Hw.
    apply lookup_insert_Some in Hw as [[<- <-]|[_ Hw]].
    { injection Hcur as <-. eexists. split; [reflexivity|].
      apply (bool_decide_unpack _). vm_compute. exact I. }
    apply lookup_singleton_Some in Hw as [<- <-]. discriminate Hcur.
Qed.

(** X18 at work: [w3], which has joined nothing, joins the document of
    [w1] and [w2]. *)
Lemma handleJoin_moves_the_connection_witness :
  let s' :=
    handleJoin [] id demo_textLength "w3" (mkMessage "join" (Some "doc1") [])
      demo_server in
  documents s' !! "doc1" = Some (mkManager "doc1" [7] ["w1"; "w2"; "w3"]) ∧
  sent s' = [("w3", MsgSync [7] "doc1"); ("w3", MsgJoined "doc1" 3 1 1)].
Proof.
  intros s'.
  destruct (handleJoin_moves_the_connection [] id demo_textLength "w3"
              (mkMessage "join" (Some "doc1") []) demo_server
              (mkWs "w3" None true 1) "doc1" demo_server_attached
              eq_refl eq_refl ltac:(discriminate)) as (_ & H1 & _ & H2).
  split; [exact H1|exact H2].
Defined.

(** X19 at work, on the server of [w1], [w2] and [w3]. *)
Lemma handlers_keep_clients_and_connections_in_step_witness :
  attached
    (handleJoin [] id demo_textLength "w1" (mkMessage "join" (Some "doc2") [])
       demo_server) ∧
  attached (onClose id "w2" demo_server).
Proof.
  destruct (handlers_keep_clients_and_connections_in_step [] demo_applyUpdate
              id demo_textLength "w1" (mkMessage "join" (Some "doc2") [])
              "doc1" demo_server demo_server_attached) as [H1 _].
  destruct (handlers_keep_clients_and_connections_in_step [] demo_applyUpdate
              id demo_textLength "w2" (mkMessage "join" (Some "doc2") [])
              "doc1" demo_server demo_server_attached) as [H2 _].
  split.
  - exact (Forall_inv H1).
  - exact (Forall_inv (Forall_inv_tail (Forall_inv_tail (Forall_inv_tail H2)))).
Defined.

(** X20 at work: an update of [w1] goes to [w2]. *)
Lemma update_is_relayed_to_the_other_clients_witness :
  let s' :=
    handleUpdate demo_applyUpdate id "w1"
      (mkMessage "update" (Some "doc1") [8; 9]) demo_server in
  sent s' = [("w2", MsgUpdate [8; 9] "doc1")] ∧
  documents s' !! "doc1" = Some (mkManager "doc1" [7; 8; 9] ["w1"; "w2"]).
Proof.
  intros s'.
  destruct (update_is_relayed_to_the_other_clients demo_applyUpdate id "w1"
              (mkMessage "update" (Some "doc1") [8; 9]) demo_server
              (mkWs "w1" (Some "doc1") true 1) "doc1"
              (mkManager "doc1" [7] ["w1"; "w2"]) [7; 8; 9] (Some [8; 9])
              demo_server_attached eq_refl eq_refl eq_refl eq_refl eq_refl)
    as (H2 & _ & H1 & _).
  split; [exact H1|]. fold s' in H2. rewrite H2. reflexivity.
Defined.

(** X21 at work: [w1] closes, [w2] joins the document afterwards, and the
    read returns the bytes [7]. *)
Lemma rejoined_document_starts_empty_witness :
  let message := mkMessage "join" (Some "doc1") [] in
  let s1 := onClose id "w1" solo_server in
  let s2 := handleJoin [] id demo_textLength "w2" message s1 in
  let s3 := loadState_read demo_applyUpdate "doc1" (Some [7]) s2 in
  documents s1 !! "doc1" = None ∧
  sent s2 = [("w2", MsgSync [] "doc1"); ("w2", MsgJoined "doc1" 1 0 0)] ∧
  documents s3 !! "doc1" = Some (mkManager "doc1" [7] ["w2"]) ∧
  sent s3 = sent s2.
Proof.
  intros message s1 s2 s3.
  destruct (rejoined_document_starts_empty [] demo_applyUpdate id
              demo_textLength "w1" "w2" (mkWs "w1" (Some "doc1") true 1)
              (mkWs "w2" None true 1) message "doc1"
              (mkManager "doc1" [7] ["w1"]) (Some [7]) solo_server
              solo_server_attached
              eq_refl eq_refl eq_refl eq_refl eq_refl ltac:(discriminate)
              eq_refl eq_refl)
    as ((H1 & _) & (_ & H2) & (H3 & _ & H4 & _)).
  split; [exact H1|]. split; [exact H2|]. split; [exact H3|exact H4].
Defined.

